(** * Software IO TLB (swiotlb): a shallow embedding of the bounce-buffer
      allocator and the properties of its bookkeeping.

    The slot table, the free bitmap and the per-area free lists are
    embedded as the C code has them: arrays become lists read and written
    by index, the intrusive [list_head] chains become lists of slot
    indices (a node is linked exactly when its index occurs in the list),
    fixed-width integers are [Z] with the wrap-around written out.  Every
    operation is taken as one atomic step; the interleaving inside a
    critical section is not modelled. *)

From stdpp Require Import base numbers list list_numbers sets.

Local Open Scope Z_scope.

(** ** Machine integers *)

Definition u64 (x : Z) : Z := x mod 2 ^ 64.
Definition u32 (x : Z) : Z := x mod 2 ^ 32.
Definition s32 (x : Z) : Z :=
  let y := x mod 2 ^ 32 in if y <? 2 ^ 31 then y else y - 2 ^ 32.

(** ** Outcomes: a return value, a [BUG_ON] that fired, or a loop that
       did not finish within its fuel. *)

Inductive result (A : Type) : Type :=
| Ok (a : A)
| Bug
| OutOfFuel.
Arguments Ok {A} a.
Arguments Bug {A}.
Arguments OutOfFuel {A}.

Definition rbind {A B} (r : result A) (k : A -> result B) : result B :=
  match r with
  | Ok a => k a
  | Bug => Bug
  | OutOfFuel => OutOfFuel
  end.

Notation "'let*' p ':=' r 'in' k" := (rbind r (fun p => k))
  (at level 10, p pattern, r at level 200, k at level 200).

(** ** Geometry *)

(** Modelled from the spec: the header defining the unit geometry is not
    among the sources; the spec gives units of 2KiB and segments of 128
    units, and the code is written for 4KiB pages and 64-bit longs. *)
Definition IO_TLB_SHIFT : Z := 11.
Definition IO_TLB_SIZE : Z := 2 ^ IO_TLB_SHIFT.
Definition IO_TLB_SEGSIZE : Z := 128.
Definition PAGE_SHIFT : Z := 12.
Definition PAGE_SIZE : Z := 2 ^ PAGE_SHIFT.
Definition BITS_PER_LONG : Z := 64.

Definition INVALID_PHYS_ADDR : Z := 2 ^ 64 - 1.

(** Modelled from the spec: the mapping-error value of the DMA layer is
    declared outside the sources; it is the all-ones bus address. *)
Definition DMA_MAPPING_ERROR : Z := 2 ^ 64 - 1.

(** ** Arrays indexed by C integers *)

Definition zlookup {A} (l : list A) (i : Z) : option A :=
  if decide (0 <= i) then l !! Z.to_nat i else None.

Definition zinsert {A} (l : list A) (i : Z) (x : A) : list A :=
  if decide (0 <= i) then <[Z.to_nat i := x]> l else l.

(** ** Data model *)

Record io_tlb_slot : Type := Slot {
  orig_addr : Z;
  alloc_size : Z
}.

Record io_tlb_area : Type := Area {
  used : Z;
  free_slots : list Z;
  free_slots_from_other_cpu : list Z
}.

Record io_tlb_mem : Type := Mem {
  start : Z;
  nslabs : Z;
  nareas : Z;
  area_nslabs : Z;
  bitmap : list bool;
  slots : list io_tlb_slot;
  areas : list io_tlb_area
}.

(** What the allocator reads from a device: its minimum-alignment mask
    (an unsigned int), its segment-boundary mask (an unsigned long) and
    its translation from physical to bus addresses. *)
Record device : Type := Device {
  dma_get_min_align_mask : Z;
  dma_get_seg_boundary : Z;
  phys_to_dma_unencrypted : Z -> Z
}.

(** Boot-time switches and platform predicates the code consults. *)
Record platform : Type := Platform {
  swiotlb_lockless_mode : bool;
  cc_mem_encrypt : bool;
  PageHighMem : Z -> bool
}.

Inductive dma_data_direction : Type :=
| DMA_BIDIRECTIONAL
| DMA_TO_DEVICE
| DMA_FROM_DEVICE
| DMA_NONE.

Inductive diagnostic : Type :=
| WarnNoBuffer
| WarnMemEncrypt
| WarnInvalidSizes
| WarnBufferFull
| WarnAccessBeforeStart
| WarnOverflowOffset
| WarnOverflowSize.

(** One [memcpy]: direction, byte offset into the staging memory, physical
    address on the original side, and length. *)
Record copy_ev : Type := Copy {
  copy_dir : dma_data_direction;
  copy_pool_off : Z;
  copy_phys : Z;
  copy_len : Z
}.

Definition copied_bytes (l : list copy_ev) : Z :=
  foldr (fun c acc => copy_len c + acc) 0 l.

(** Field updates *)

Definition set_bitmap (mem : io_tlb_mem) (b : list bool) : io_tlb_mem :=
  Mem (start mem) (nslabs mem) (nareas mem) (area_nslabs mem)
      b (slots mem) (areas mem).

Definition set_slots (mem : io_tlb_mem) (s : list io_tlb_slot) : io_tlb_mem :=
  Mem (start mem) (nslabs mem) (nareas mem) (area_nslabs mem)
      (bitmap mem) s (areas mem).

Definition set_areas (mem : io_tlb_mem) (a : list io_tlb_area) : io_tlb_mem :=
  Mem (start mem) (nslabs mem) (nareas mem) (area_nslabs mem)
      (bitmap mem) (slots mem) a.

Definition free_slot : io_tlb_slot := Slot INVALID_PHYS_ADDR 0.
Definition empty_area : io_tlb_area := Area 0 [] [].

Definition slot_at (mem : io_tlb_mem) (i : Z) : io_tlb_slot :=
  default free_slot (zlookup (slots mem) i).

Definition area_at (mem : io_tlb_mem) (a : Z) : io_tlb_area :=
  default empty_area (zlookup (areas mem) a).

(** [test_bit]: bits beyond the bitmap read as zero. *)
Definition test_bit (mem : io_tlb_mem) (i : Z) : bool :=
  default false (zlookup (bitmap mem) i).

Definition __set_bit (i : Z) (mem : io_tlb_mem) : io_tlb_mem :=
  set_bitmap mem (zinsert (bitmap mem) i true).

Definition __clear_bit (i : Z) (mem : io_tlb_mem) : io_tlb_mem :=
  set_bitmap mem (zinsert (bitmap mem) i false).

Definition set_orig_addr (i v : Z) (mem : io_tlb_mem) : io_tlb_mem :=
  set_slots mem
    (zinsert (slots mem) i (Slot v (alloc_size (slot_at mem i)))).

Definition set_alloc_size (i v : Z) (mem : io_tlb_mem) : io_tlb_mem :=
  set_slots mem
    (zinsert (slots mem) i (Slot (orig_addr (slot_at mem i)) v)).

Definition set_area (a : Z) (x : io_tlb_area) (mem : io_tlb_mem) : io_tlb_mem :=
  set_areas mem (zinsert (areas mem) a x).

(** [list_del]: unlink the node of slot [i] from whichever chain holds it. *)
Definition unlink (i : Z) (l : list Z) : list Z :=
  filter (fun x => x <> i) l.

Definition area_unlink (i : Z) (a : io_tlb_area) : io_tlb_area :=
  Area (used a) (unlink i (free_slots a))
       (unlink i (free_slots_from_other_cpu a)).

Definition list_del (i : Z) (mem : io_tlb_mem) : io_tlb_mem :=
  set_areas mem (area_unlink i <$> areas mem).

(** [list_add] to the head of an area's [free_slots]. *)
Definition list_add_free (i a : Z) (mem : io_tlb_mem) : io_tlb_mem :=
  let ar := area_at mem a in
  set_area a (Area (used ar) (i :: free_slots ar)
                   (free_slots_from_other_cpu ar)) mem.

(** [list_add_tail] to an area's [free_slots]. *)
Definition list_add_tail_free (i a : Z) (mem : io_tlb_mem) : io_tlb_mem :=
  let ar := area_at mem a in
  set_area a (Area (used ar) (free_slots ar ++ [i])
                   (free_slots_from_other_cpu ar)) mem.

(** [list_add] to the head of an area's [free_slots_from_other_cpu]. *)
Definition list_add_other (i a : Z) (mem : io_tlb_mem) : io_tlb_mem :=
  let ar := area_at mem a in
  set_area a (Area (used ar) (free_slots ar)
                   (i :: free_slots_from_other_cpu ar)) mem.

Definition add_used (a d : Z) (mem : io_tlb_mem) : io_tlb_mem :=
  let ar := area_at mem a in
  set_area a (Area (u64 (used ar + d)) (free_slots ar)
                   (free_slots_from_other_cpu ar)) mem.

(** ** Small helpers of the allocator *)

Definition nr_slots (val : Z) : Z :=
  u64 (val + IO_TLB_SIZE - 1) / IO_TLB_SIZE.

Definition swiotlb_align_offset (dev : device) (addr : Z) : Z :=
  Z.land (Z.land addr (dma_get_min_align_mask dev)) (IO_TLB_SIZE - 1).

Definition io_tlb_offset (val : Z) : Z :=
  Z.land val (IO_TLB_SEGSIZE - 1).

Definition slot_addr (start idx : Z) : Z :=
  u64 (start + Z.shiftl idx IO_TLB_SHIFT).

Definition get_max_slots (boundary_mask : Z) : Z :=
  if boundary_mask =? 2 ^ 64 - 1
  then Z.shiftl 1 (BITS_PER_LONG - IO_TLB_SHIFT)
  else nr_slots (u64 (boundary_mask + 1)).

(** Modelled from the spec: the boundary helper of the IOMMU layer is not
    among the sources.  The candidate run of [nr] units at [index],
    shifted by the position [shift] of the pool's bus base, spans a
    boundary when its position inside the window of [boundary_size] units
    plus its length exceeds the window. *)
Definition iommu_is_span_boundary (index nr shift boundary_size : Z) : bool :=
  let shift := Z.land (u64 (shift + index)) (boundary_size - 1) in
  boundary_size <? shift + nr.

(** Modelled from the spec: the bit-scan helper of the bitmap library is
    not among the sources.  It returns the first index at or after
    [offset] and below [size] whose bit is zero, and [size] when the bits
    from [offset] up to [size] are all set. *)
Fixpoint scan_zero_bit (mem : io_tlb_mem) (i : Z) (n : nat) : Z :=
  match n with
  | O => i
  | S n' => if test_bit mem i then scan_zero_bit mem (i + 1) n' else i
  end.

Definition find_next_zero_bit (mem : io_tlb_mem) (size offset : Z) : Z :=
  scan_zero_bit mem offset (Z.to_nat (size - offset)).

(** ** Initialisation: [swiotlb_init_io_tlb_mem] *)

Definition init_slot (mem : io_tlb_mem) (i : Z) : io_tlb_mem :=
  let mem := __set_bit i mem in
  let mem := set_orig_addr i INVALID_PHYS_ADDR mem in
  let mem := set_alloc_size i 0 mem in
  let aindex := s32 (i / area_nslabs mem) in
  list_add_tail_free i aindex mem.

(** The three tables come zero-filled from the caller, one entry per unit
    and per area. *)
Definition swiotlb_init_io_tlb_mem (start nslabs nareas : Z) : io_tlb_mem :=
  let mem :=
    Mem start nslabs nareas (nslabs / nareas)
        (replicate (Z.to_nat nslabs) false)
        (replicate (Z.to_nat nslabs) (Slot 0 0))
        (replicate (Z.to_nat nareas) empty_area) in
  foldl init_slot mem (seqZ 0 nslabs).

(** C's division traps on a zero divisor, where the division of [Z] gives
    zero.  [swiotlb_init_io_tlb_mem] divides twice: [nslabs / nareas] for
    the size of an area, and [i / area_nslabs] for every unit.  The call
    does not return when it is asked for no area, or for some units but
    fewer than one per area; the definition above is the pool it builds
    otherwise. *)
Definition init_divides_by_zero (nslabs nareas : Z) : bool :=
  (nareas =? 0) || ((0 <? nslabs) && (nslabs / nareas =? 0)).

(** ** Slot search: [swiotlb_do_find_slots] *)

(** The walk over the area's free list; a candidate that fails a check is
    skipped ([continue]), the first that passes all of them is taken. *)
Fixpoint scan_free_slots (mem : io_tlb_mem)
    (tbl_dma_addr iotlb_align_mask max_slots nslots : Z)
    (orig_addr alloc_size alloc_align_mask : Z)
    (l : list Z) : option Z :=
  match l with
  | [] => None
  | slot_index :: tl =>
    let next :=
      scan_free_slots mem tbl_dma_addr iotlb_align_mask max_slots nslots
        orig_addr alloc_size alloc_align_mask tl in
    let slot_dma_addr := slot_addr tbl_dma_addr slot_index in
    if negb (orig_addr =? 0) &&
       negb (Z.land slot_dma_addr iotlb_align_mask =?
             Z.land orig_addr iotlb_align_mask)
    then next
    else if negb (alloc_align_mask =? 0) &&
            negb (Z.land slot_dma_addr (alloc_align_mask - 1) =? 0)
    then next
    else if (PAGE_SIZE <=? alloc_size) &&
            negb (Z.land slot_dma_addr (PAGE_SIZE - 1) =? 0)
    then next
    else if IO_TLB_SEGSIZE <? io_tlb_offset slot_index + nslots
    then next
    else if negb (iommu_is_span_boundary slot_index nslots
                    (nr_slots tbl_dma_addr) max_slots)
    then
      if find_next_zero_bit mem (slot_index + nslots) slot_index
           =? slot_index + nslots
      then Some slot_index
      else next
    else next
  end.

(** The body of the loop after [found:]. *)
Definition claim_slot (slot_index alloc_size offset : Z)
    (mem : io_tlb_mem) (i : Z) : io_tlb_mem :=
  let mem := __clear_bit i mem in
  let mem :=
    set_alloc_size i
      (u64 (alloc_size -
            u32 (offset + u32 (Z.shiftl (i - slot_index) IO_TLB_SHIFT))))
      mem in
  list_del i mem.

Definition swiotlb_do_find_slots (dev : device) (mem : io_tlb_mem)
    (area_index orig_addr alloc_size alloc_align_mask : Z)
    : result (io_tlb_mem * Z) :=
  let area := area_at mem area_index in
  let boundary_mask := dma_get_seg_boundary dev in
  let tbl_dma_addr :=
    Z.land (phys_to_dma_unencrypted dev (start mem)) boundary_mask in
  let max_slots := get_max_slots boundary_mask in
  let iotlb_align_mask :=
    Z.land (dma_get_min_align_mask dev) (Z.lnot (IO_TLB_SIZE - 1)) in
  let nslots := u32 (nr_slots alloc_size) in
  let offset := swiotlb_align_offset dev orig_addr in
  if nslots =? 0 then Bug
  else if nareas mem <=? u32 area_index then Bug
  else
    let max_slots := Z.max max_slots IO_TLB_SEGSIZE in
    if u64 (area_nslabs mem - used area) <? nslots then Ok (mem, -1)
    else
      match scan_free_slots mem tbl_dma_addr iotlb_align_mask max_slots
              nslots orig_addr alloc_size alloc_align_mask
              (free_slots area) with
      | None => Ok (mem, -1)
      | Some slot_index =>
        let mem :=
          foldl (claim_slot slot_index alloc_size offset) mem
                (seqZ slot_index nslots) in
        let mem := add_used area_index nslots mem in
        Ok (mem, s32 slot_index)
      end.

(** Draining [free_slots_from_other_cpu] back into the area. *)
Definition reclaim_slot (area_index : Z) (mem : io_tlb_mem) (i : Z)
    : io_tlb_mem :=
  let mem := __set_bit i mem in
  let mem := set_orig_addr i INVALID_PHYS_ADDR mem in
  let mem := set_alloc_size i 0 mem in
  let mem := list_del i mem in
  let mem := list_add_free i area_index mem in
  add_used area_index (-1) mem.

Definition swiotlb_find_slots_lockless (dev : device) (mem : io_tlb_mem)
    (cpu orig_addr alloc_size alloc_align_mask : Z)
    : result (io_tlb_mem * Z) :=
  let area_index := s32 (Z.land cpu (u32 (nareas mem - 1))) in
  let* (mem, index) :=
    swiotlb_do_find_slots dev mem area_index orig_addr alloc_size
      alloc_align_mask in
  if 0 <=? index then Ok (mem, index)
  else
    let mem :=
      foldl (reclaim_slot area_index) mem
            (free_slots_from_other_cpu (area_at mem area_index)) in
    swiotlb_do_find_slots dev mem area_index orig_addr alloc_size
      alloc_align_mask.

(** The [do ... while (i != start)] walk over the areas. *)
Fixpoint find_slots_loop (fuel : nat) (dev : device) (mem : io_tlb_mem)
    (start i orig_addr alloc_size alloc_align_mask : Z)
    : result (io_tlb_mem * Z) :=
  match fuel with
  | O => OutOfFuel
  | S fuel =>
    let* (mem, index) :=
      swiotlb_do_find_slots dev mem i orig_addr alloc_size
        alloc_align_mask in
    if 0 <=? index then Ok (mem, index)
    else
      let i := if nareas mem <=? i + 1 then 0 else i + 1 in
      if i =? start then Ok (mem, -1)
      else find_slots_loop fuel dev mem start i orig_addr alloc_size
             alloc_align_mask
  end.

Definition swiotlb_find_slots (plat : platform) (dev : device)
    (mem : io_tlb_mem) (cpu orig_addr alloc_size alloc_align_mask : Z)
    : result (io_tlb_mem * Z) :=
  let start := s32 (Z.land cpu (u32 (nareas mem - 1))) in
  if swiotlb_lockless_mode plat
  then swiotlb_find_slots_lockless dev mem cpu orig_addr alloc_size
         alloc_align_mask
  else find_slots_loop (S (Z.to_nat (nareas mem))) dev mem start start
         orig_addr alloc_size alloc_align_mask.

Definition mem_used (mem : io_tlb_mem) : Z :=
  foldl (fun acc i => u64 (acc + used (area_at mem i))) 0
        (seqZ 0 (nareas mem)).

(** ** Bounce copy: [swiotlb_bounce] *)

Definition PFN_DOWN (addr : Z) : Z := Z.shiftr addr PAGE_SHIFT.

(** The page-by-page loop taken for a high-memory original buffer. *)
Fixpoint bounce_highmem (fuel : nat) (dir : dma_data_direction)
    (pfn voff offset size : Z) : result (list copy_ev) :=
  if size =? 0 then Ok []
  else
    match fuel with
    | O => OutOfFuel
    | S fuel =>
      let sz := Z.min (PAGE_SIZE - offset) size in
      let* rest :=
        bounce_highmem fuel dir (pfn + 1) (voff + sz) 0 (size - sz) in
      Ok (Copy dir voff (Z.shiftl pfn PAGE_SHIFT + offset) sz :: rest)
    end.

(** The copy proper, once the address and the size are settled: page by
    page through high memory, one [memcpy] otherwise; towards the pool for
    [DMA_TO_DEVICE], back to the original buffer for any other direction. *)
Definition bounce_copy (plat : platform) (dir : dma_data_direction)
    (pfn voff orig_addr size : Z) : result (list copy_ev) :=
  let way :=
    match dir with
    | DMA_TO_DEVICE => DMA_TO_DEVICE
    | _ => DMA_FROM_DEVICE
    end in
  if PageHighMem plat pfn
  then
    let offset := Z.land orig_addr (PAGE_SIZE - 1) in
    bounce_highmem (S (Z.to_nat size)) way pfn voff offset size
  else Ok [Copy way voff orig_addr size].

Definition swiotlb_bounce (plat : platform) (dev : device) (mem : io_tlb_mem)
    (tlb_addr size : Z) (dir : dma_data_direction)
    : result (list diagnostic * list copy_ev) :=
  let index := s32 (Z.shiftr (u64 (tlb_addr - start mem)) IO_TLB_SHIFT) in
  let orig_addr := orig_addr (slot_at mem index) in
  let alloc_size := alloc_size (slot_at mem index) in
  let pfn := PFN_DOWN orig_addr in
  let voff := u64 (tlb_addr - start mem) in
  if orig_addr =? INVALID_PHYS_ADDR then Ok ([], [])
  else
    let tlb_offset := Z.land tlb_addr (IO_TLB_SIZE - 1) in
    let orig_addr_offset := swiotlb_align_offset dev orig_addr in
    if tlb_offset <? orig_addr_offset
    then Ok ([WarnAccessBeforeStart], [])
    else
      let tlb_offset := tlb_offset - orig_addr_offset in
      if alloc_size <? tlb_offset
      then Ok ([WarnOverflowOffset], [])
      else
        let orig_addr := u64 (orig_addr + tlb_offset) in
        let alloc_size := alloc_size - tlb_offset in
        let diags := if alloc_size <? size then [WarnOverflowSize] else [] in
        let size := if alloc_size <? size then alloc_size else size in
        let* copies := bounce_copy plat dir pfn voff orig_addr size in
        Ok (diags, copies).

(** ** Mapping: [swiotlb_tbl_map_single] *)

(** Modelled from the spec: the attribute bits are declared outside the
    sources; only their being distinct single bits matters here. *)
Definition DMA_ATTR_SKIP_CPU_SYNC : Z := Z.shiftl 1 5.
Definition DMA_ATTR_NO_WARN : Z := Z.shiftl 1 8.

(** The loop that saves the mapping from the original address into the
    slots of the run. *)
Definition save_orig_addrs (index orig_addr n : Z) (mem : io_tlb_mem)
    : io_tlb_mem :=
  foldl (fun mem i => set_orig_addr (index + i) (slot_addr orig_addr i) mem)
        mem (seqZ 0 n).

Definition swiotlb_tbl_map_single (plat : platform) (dev : device)
    (omem : option io_tlb_mem)
    (cpu orig_addr mapping_size alloc_size alloc_align_mask : Z)
    (dir : dma_data_direction) (attrs : Z)
    : result (option io_tlb_mem * Z * list diagnostic * list copy_ev) :=
  let offset := swiotlb_align_offset dev orig_addr in
  match omem with
  | None => Ok (omem, DMA_MAPPING_ERROR, [WarnNoBuffer], [])
  | Some mem =>
    if nslabs mem =? 0
    then Ok (omem, DMA_MAPPING_ERROR, [WarnNoBuffer], [])
    else
      let d0 := if cc_mem_encrypt plat then [WarnMemEncrypt] else [] in
      if alloc_size <? mapping_size
      then Ok (omem, DMA_MAPPING_ERROR, d0 ++ [WarnInvalidSizes], [])
      else
        let* (mem, index) :=
          swiotlb_find_slots plat dev mem cpu orig_addr
            (u64 (alloc_size + offset)) alloc_align_mask in
        if index =? -1
        then
          Ok (Some mem, DMA_MAPPING_ERROR,
              d0 ++ (if Z.land attrs DMA_ATTR_NO_WARN =? 0
                     then [WarnBufferFull] else []), [])
        else if 2 ^ 32 <=? nr_slots (u64 (alloc_size + offset))
        then OutOfFuel (* the unsigned int counter never reaches the bound *)
        else
          let mem :=
            save_orig_addrs index orig_addr
              (nr_slots (u64 (alloc_size + offset))) mem in
          let tlb_addr := u64 (slot_addr (start mem) index + offset) in
          let* (d1, copies) :=
            swiotlb_bounce plat dev mem tlb_addr mapping_size
              DMA_TO_DEVICE in
          Ok (Some mem, tlb_addr, d0 ++ d1, copies)
  end.

(** ** Release: [swiotlb_release_slots] and [swiotlb_tbl_unmap_single] *)

Definition release_slot (aindex : Z) (mem : io_tlb_mem) (i : Z)
    : io_tlb_mem :=
  let mem := __set_bit i mem in
  let mem := set_orig_addr i INVALID_PHYS_ADDR mem in
  let mem := set_alloc_size i 0 mem in
  list_add_free i aindex mem.

Definition swiotlb_release_slots (plat : platform) (dev : device)
    (mem : io_tlb_mem) (cpu tlb_addr : Z) : result io_tlb_mem :=
  let offset := swiotlb_align_offset dev tlb_addr in
  let index :=
    s32 (Z.shiftr (u64 (tlb_addr - offset - start mem)) IO_TLB_SHIFT) in
  let nslots :=
    s32 (nr_slots (u64 (alloc_size (slot_at mem index) + offset))) in
  let aindex := s32 (u64 index / area_nslabs mem) in
  let ncpu := s32 (Z.land cpu (u32 (nareas mem - 1))) in
  if nareas mem <=? u32 aindex then Bug
  else if swiotlb_lockless_mode plat && negb (aindex =? ncpu)
  then
    Ok (foldl (fun mem i => list_add_other i aindex mem) mem
              (reverse (seqZ index nslots)))
  else
    let mem :=
      foldl (release_slot aindex) mem (reverse (seqZ index nslots)) in
    Ok (add_used aindex (- nslots) mem).

Definition swiotlb_tbl_unmap_single (plat : platform) (dev : device)
    (mem : io_tlb_mem) (cpu tlb_addr mapping_size : Z)
    (dir : dma_data_direction) (attrs : Z)
    : result (io_tlb_mem * list diagnostic * list copy_ev) :=
  let sync :=
    (Z.land attrs DMA_ATTR_SKIP_CPU_SYNC =? 0) &&
    match dir with
    | DMA_FROM_DEVICE | DMA_BIDIRECTIONAL => true
    | _ => false
    end in
  let* (d, copies) :=
    if sync
    then swiotlb_bounce plat dev mem tlb_addr mapping_size DMA_FROM_DEVICE
    else Ok ([], []) in
  let* mem := swiotlb_release_slots plat dev mem cpu tlb_addr in
  Ok (mem, d, copies).

(** ** Restricted pools: [swiotlb_alloc] and [swiotlb_free] *)

(** The returned page is identified by its frame number; [None] is the
    NULL page. *)
Definition swiotlb_alloc (plat : platform) (dev : device)
    (omem : option io_tlb_mem) (cpu size : Z)
    : result (option io_tlb_mem * option Z) :=
  match omem with
  | None => Ok (omem, None)
  | Some mem =>
    let* (mem, index) := swiotlb_find_slots plat dev mem cpu 0 size 0 in
    if index =? -1 then Ok (Some mem, None)
    else
      let tlb_addr := slot_addr (start mem) index in
      Ok (Some mem, Some (PFN_DOWN tlb_addr))
  end.

(** Modelled from the spec: the membership test of the pool is declared
    outside the sources; an address belongs to the pool when it lies
    between the pool's base and its end. *)
Definition is_swiotlb_buffer (omem : option io_tlb_mem) (paddr : Z) : bool :=
  match omem with
  | None => false
  | Some mem =>
    (start mem <=? paddr) &&
    (paddr <? start mem + Z.shiftl (nslabs mem) IO_TLB_SHIFT)
  end.

Definition swiotlb_free (plat : platform) (dev : device)
    (omem : option io_tlb_mem) (cpu page size : Z)
    : result (option io_tlb_mem * bool) :=
  let tlb_addr := Z.shiftl page PAGE_SHIFT in
  match omem with
  | Some mem =>
    if is_swiotlb_buffer omem tlb_addr
    then
      let* mem := swiotlb_release_slots plat dev mem cpu tlb_addr in
      Ok (Some mem, true)
    else Ok (omem, false)
  | None => Ok (omem, false)
  end.

(** ** Well-formed pools and legitimate traces *)

Definition in_area (mem : io_tlb_mem) (a i : Z) : Prop :=
  a * area_nslabs mem <= i < (a + 1) * area_nslabs mem.

(** The bookkeeping invariant of a pool: every area holds a whole number
    of segments, every area's free list holds
    exactly the units of the area whose bit is set, the units waiting in
    [free_slots_from_other_cpu] belong to the area and are still marked
    used, and a unit whose bit is set carries the free sentinel. *)
Record pool_inv (mem : io_tlb_mem) : Prop := PoolInv {
  inv_nareas : 0 < nareas mem;
  inv_area_nslabs : 0 < area_nslabs mem;
  inv_nslabs : nslabs mem = nareas mem * area_nslabs mem;
  inv_seg : (IO_TLB_SEGSIZE | area_nslabs mem);
  inv_small : nslabs mem < 2 ^ 31;
  inv_bitmap_len : Z.of_nat (length (bitmap mem)) = nslabs mem;
  inv_slots_len : Z.of_nat (length (slots mem)) = nslabs mem;
  inv_areas_len : Z.of_nat (length (areas mem)) = nareas mem;
  inv_free_nodup : forall a,
    0 <= a < nareas mem -> NoDup (free_slots (area_at mem a));
  inv_free_iff : forall a i,
    0 <= a < nareas mem ->
    (i ∈ free_slots (area_at mem a) <->
     in_area mem a i /\ test_bit mem i = true);
  inv_other_nodup : forall a,
    0 <= a < nareas mem ->
    NoDup (free_slots_from_other_cpu (area_at mem a));
  inv_other_in : forall a i,
    0 <= a < nareas mem ->
    i ∈ free_slots_from_other_cpu (area_at mem a) ->
    in_area mem a i /\ test_bit mem i = false;
  inv_used : forall a,
    0 <= a < nareas mem ->
    0 <= used (area_at mem a) /\
    used (area_at mem a) + Z.of_nat (length (free_slots (area_at mem a)))
      = area_nslabs mem;
  inv_sentinel : forall i,
    test_bit mem i = true ->
    orig_addr (slot_at mem i) = INVALID_PHYS_ADDR
}.

(** The staging region is unit-aligned and does not wrap the address
    space. *)
Definition pool_addr_ok (mem : io_tlb_mem) : Prop :=
  0 <= start mem /\ start mem mod IO_TLB_SIZE = 0 /\
  start mem + nslabs mem * IO_TLB_SIZE < 2 ^ 64.

(** Pool sizes handed to the initialisation: whole segments per area. *)
Definition geometry_ok (nslabs nareas : Z) : Prop :=
  0 < nareas /\ 0 < nslabs /\ nslabs < 2 ^ 31 /\
  (IO_TLB_SEGSIZE * nareas | nslabs).

(** What [swiotlb_release_slots] derives from the bounce address. *)
Definition release_index (dev : device) (mem : io_tlb_mem) (tlb_addr : Z) : Z :=
  s32 (Z.shiftr
         (u64 (tlb_addr - swiotlb_align_offset dev tlb_addr - start mem))
         IO_TLB_SHIFT).

Definition release_nslots (dev : device) (mem : io_tlb_mem) (tlb_addr : Z) : Z :=
  s32 (nr_slots
         (u64 (alloc_size (slot_at mem (release_index dev mem tlb_addr))
               + swiotlb_align_offset dev tlb_addr))).

Definition release_aindex (dev : device) (mem : io_tlb_mem) (tlb_addr : Z) : Z :=
  s32 (u64 (release_index dev mem tlb_addr) / area_nslabs mem).

(** A release is legitimate when the run it is about to free is currently
    allocated: inside the pool and inside one area, every unit marked used
    and none already queued for reclamation.  Anything else is a double
    release or a release of a foreign address. *)
Definition release_ok (dev : device) (mem : io_tlb_mem) (tlb_addr : Z) : Prop :=
  let index := release_index dev mem tlb_addr in
  let nslots := release_nslots dev mem tlb_addr in
  let aindex := release_aindex dev mem tlb_addr in
  0 <= index /\ 0 <= nslots /\
  index + nslots <= (aindex + 1) * area_nslabs mem /\
  index + nslots <= nslabs mem /\
  forall i, index <= i < index + nslots ->
    test_bit mem i = false /\
    i ∉ free_slots_from_other_cpu (area_at mem aindex).

(** The states a pool goes through: initialisation with whole segments in
    every area, followed by any sequence of mappings, restricted-pool
    allocations and legitimate releases, issued from any processor for any
    device. *)
Inductive reachable (plat : platform) : io_tlb_mem -> Prop :=
| reach_init start nslabs nareas :
    geometry_ok nslabs nareas ->
    reachable plat (swiotlb_init_io_tlb_mem start nslabs nareas)
| reach_map mem dev cpu orig_addr mapping_size alloc_size alloc_align_mask
    dir attrs mem' tlb_addr diags copies :
    reachable plat mem ->
    swiotlb_tbl_map_single plat dev (Some mem) cpu orig_addr mapping_size
      alloc_size alloc_align_mask dir attrs
      = Ok (Some mem', tlb_addr, diags, copies) ->
    reachable plat mem'
| reach_alloc mem dev cpu size mem' page :
    reachable plat mem ->
    swiotlb_alloc plat dev (Some mem) cpu size = Ok (Some mem', page) ->
    reachable plat mem'
| reach_unmap mem dev cpu tlb_addr mapping_size dir attrs mem' diags copies :
    reachable plat mem ->
    release_ok dev mem tlb_addr ->
    swiotlb_tbl_unmap_single plat dev mem cpu tlb_addr mapping_size dir attrs
      = Ok (mem', diags, copies) ->
    reachable plat mem'
| reach_free mem dev cpu page size mem' b :
    reachable plat mem ->
    release_ok dev mem (Z.shiftl page PAGE_SHIFT) ->
    swiotlb_free plat dev (Some mem) cpu page size = Ok (Some mem', b) ->
    reachable plat mem'.


(** The quantities [swiotlb_do_find_slots] derives from the device and
    the request before it walks the free list. *)
Definition tbl_dma_addr_of (dev : device) (mem : io_tlb_mem) : Z :=
  Z.land (phys_to_dma_unencrypted dev (start mem)) (dma_get_seg_boundary dev).

Definition iotlb_align_mask_of (dev : device) : Z :=
  Z.land (dma_get_min_align_mask dev) (Z.lnot (IO_TLB_SIZE - 1)).

Definition max_slots_of (dev : device) : Z :=
  Z.max (get_max_slots (dma_get_seg_boundary dev)) IO_TLB_SEGSIZE.

Definition nslots_of (alloc_size : Z) : Z := u32 (nr_slots alloc_size).

(** The state left by a successful search that took the run at
    [slot_index]. *)
Definition claimed (dev : device) (mem : io_tlb_mem)
    (area_index orig_addr alloc_size slot_index : Z) : io_tlb_mem :=
  add_used area_index (nslots_of alloc_size)
    (foldl (claim_slot slot_index alloc_size
              (swiotlb_align_offset dev orig_addr))
           mem (seqZ slot_index (nslots_of alloc_size))).

(** A candidate passes every check of the walk. *)
Definition candidate_ok (dev : device) (mem : io_tlb_mem)
    (orig_addr alloc_size alloc_align_mask slot_index : Z) : Prop :=
  let slot_dma_addr := slot_addr (tbl_dma_addr_of dev mem) slot_index in
  let nslots := nslots_of alloc_size in
  (orig_addr <> 0 ->
   Z.land slot_dma_addr (iotlb_align_mask_of dev) =
   Z.land orig_addr (iotlb_align_mask_of dev)) /\
  (alloc_align_mask <> 0 ->
   Z.land slot_dma_addr (alloc_align_mask - 1) = 0) /\
  (PAGE_SIZE <= alloc_size -> Z.land slot_dma_addr (PAGE_SIZE - 1) = 0) /\
  io_tlb_offset slot_index + nslots <= IO_TLB_SEGSIZE /\
  iommu_is_span_boundary slot_index nslots
    (nr_slots (tbl_dma_addr_of dev mem)) (max_slots_of dev) = false /\
  find_next_zero_bit mem (slot_index + nslots) slot_index
    = slot_index + nslots.

(** Two states of one pool: same geometry, same table sizes. *)
Definition same_shape (mem mem' : io_tlb_mem) : Prop :=
  start mem' = start mem /\ nslabs mem' = nslabs mem /\
  nareas mem' = nareas mem /\ area_nslabs mem' = area_nslabs mem /\
  length (bitmap mem') = length (bitmap mem) /\
  length (slots mem') = length (slots mem) /\
  length (areas mem') = length (areas mem).

(** Unlinking every node of a run. *)
Definition unlink_all (run : list Z) (l : list Z) : list Z :=
  filter (fun x => x ∉ run) l.

Definition area_unlink_all (run : list Z) (a : io_tlb_area) : io_tlb_area :=
  Area (used a) (unlink_all run (free_slots a))
       (unlink_all run (free_slots_from_other_cpu a)).

(** The outcomes of a mapping request on a pool that is present: an
    error that leaves a well-formed pool, or a claimed run whose slots
    received the original addresses and whose content was bounced. *)
Definition map_success (plat : platform) (dev : device) (mem : io_tlb_mem)
    (o ms A m : Z) (mem' : io_tlb_mem) (tlb_addr : Z)
    (diags : list diagnostic) (copies : list copy_ev) : Prop :=
  let offset := swiotlb_align_offset dev o in
  let total := u64 (A + offset) in
  exists mem0 a index d1,
    pool_inv mem0 /\ same_shape mem mem0 /\ 0 <= a < nareas mem0 /\
    ms <= A /\ nr_slots total < 2 ^ 32 /\ nslots_of total = nr_slots total /\
    0 < nr_slots total /\
    0 <= index /\ index ∈ free_slots (area_at mem0 a) /\
    candidate_ok dev mem0 o total m index /\
    mem' = save_orig_addrs index o (nr_slots total)
             (claimed dev mem0 a o total index) /\
    tlb_addr = u64 (slot_addr (start mem) index + offset) /\
    swiotlb_bounce plat dev mem' tlb_addr ms DMA_TO_DEVICE = Ok (d1, copies) /\
    diags = (if cc_mem_encrypt plat then [WarnMemEncrypt] else []) ++ d1.


(** The state of the tables after the initialisation loop has visited the
    units below [k]. *)
Definition init_inv (k : Z) (mem : io_tlb_mem) : Prop :=
  (forall j, test_bit mem j = bool_decide (0 <= j < k)) /\
  (forall j, 0 <= j < k -> orig_addr (slot_at mem j) = INVALID_PHYS_ADDR) /\
  (forall a, 0 <= a < nareas mem ->
     NoDup (free_slots (area_at mem a)) /\
     (forall i, i ∈ free_slots (area_at mem a) <->
                in_area mem a i /\ 0 <= i < k) /\
     free_slots_from_other_cpu (area_at mem a) = [] /\
     used (area_at mem a) = 0).

(** An executable check of [release_ok]. *)
Definition release_okb (dev : device) (mem : io_tlb_mem) (tlb_addr : Z) : bool :=
  let index := release_index dev mem tlb_addr in
  let nslots := release_nslots dev mem tlb_addr in
  let aindex := release_aindex dev mem tlb_addr in
  (0 <=? index) && (0 <=? nslots) &&
  (index + nslots <=? (aindex + 1) * area_nslabs mem) &&
  (index + nslots <=? nslabs mem) &&
  forallb (fun i =>
             negb (test_bit mem i) &&
             negb (existsb (Z.eqb i)
                     (free_slots_from_other_cpu (area_at mem aindex))))
          (seqZ index nslots).

(** The bus range of a run stays between two consecutive multiples of the
    device's boundary. *)
Definition bus_range_ok (dev : device) (mem : io_tlb_mem) (index n : Z) : Prop :=
  let lo := phys_to_dma_unencrypted dev (start mem) + index * IO_TLB_SIZE in
  let hi := lo + n * IO_TLB_SIZE in
  lo / (dma_get_seg_boundary dev + 1) = (hi - 1) / (dma_get_seg_boundary dev + 1).

(** Concrete platforms, devices and pools used to exercise the model. *)
Definition locked_plat : platform := Platform false false (fun _ => false).
Definition lockless_plat : platform := Platform true false (fun _ => false).
Definition highmem_plat : platform := Platform false false (fun _ => true).
Definition plain_dev : device := Device 0 (2 ^ 32 - 1) (fun x => x).
Definition seg64k_dev : device := Device 0 (2 ^ 16 - 1) (fun x => x).
Definition seg256k_dev : device := Device 0 (2 ^ 18 - 1) (fun x => x).
Definition nvme_dev : device := Device (2 ^ 12 - 1) (2 ^ 32 - 1) (fun x => x).
Definition odd_dev : device := Device (2 ^ 13 - 1) (2 ^ 12 - 1) (fun x => x).
Definition pool_1x128 : io_tlb_mem := swiotlb_init_io_tlb_mem (2 ^ 20) 128 1.
Definition pool_2x128 : io_tlb_mem := swiotlb_init_io_tlb_mem (2 ^ 20) 256 2.
Definition pool_odd : io_tlb_mem :=
  swiotlb_init_io_tlb_mem (2 ^ 20 + 2 ^ 12) 128 1.
Definition pool_shifted : io_tlb_mem :=
  swiotlb_init_io_tlb_mem (2 ^ 20 + 100 * 2 ^ 11) 128 1.

(** [pool_1x128] after one mapping of 100 bytes found at physical address
    4096; the bounce address is the pool base. *)
Definition mapped_1x128 : io_tlb_mem :=
  match swiotlb_tbl_map_single locked_plat plain_dev (Some pool_1x128) 0
          4096 100 100 0 DMA_TO_DEVICE 0 with
  | Ok (Some mem, _, _, _) => mem
  | _ => pool_1x128
  end.

(** The checks of the walk that do not look at the bitmap. *)
Definition placement_ok (dev : device) (mem : io_tlb_mem)
    (orig_addr alloc_size alloc_align_mask slot_index : Z) : Prop :=
  let slot_dma_addr := slot_addr (tbl_dma_addr_of dev mem) slot_index in
  let nslots := nslots_of alloc_size in
  (orig_addr <> 0 ->
   Z.land slot_dma_addr (iotlb_align_mask_of dev) =
   Z.land orig_addr (iotlb_align_mask_of dev)) /\
  (alloc_align_mask <> 0 ->
   Z.land slot_dma_addr (alloc_align_mask - 1) = 0) /\
  (PAGE_SIZE <= alloc_size -> Z.land slot_dma_addr (PAGE_SIZE - 1) = 0) /\
  io_tlb_offset slot_index + nslots <= IO_TLB_SEGSIZE /\
  iommu_is_span_boundary slot_index nslots
    (nr_slots (tbl_dma_addr_of dev mem)) (max_slots_of dev) = false.

(** ** Syncing a mapping: [swiotlb_sync_single_for_device] and
       [swiotlb_sync_single_for_cpu] *)

Definition swiotlb_sync_single_for_device (plat : platform) (dev : device)
    (mem : io_tlb_mem) (tlb_addr size : Z) (dir : dma_data_direction)
    : result (list diagnostic * list copy_ev) :=
  match dir with
  | DMA_TO_DEVICE | DMA_BIDIRECTIONAL =>
    swiotlb_bounce plat dev mem tlb_addr size DMA_TO_DEVICE
  | DMA_FROM_DEVICE => Ok ([], [])
  | DMA_NONE => Bug
  end.

Definition swiotlb_sync_single_for_cpu (plat : platform) (dev : device)
    (mem : io_tlb_mem) (tlb_addr size : Z) (dir : dma_data_direction)
    : result (list diagnostic * list copy_ev) :=
  match dir with
  | DMA_FROM_DEVICE | DMA_BIDIRECTIONAL =>
    swiotlb_bounce plat dev mem tlb_addr size DMA_FROM_DEVICE
  | DMA_TO_DEVICE => Ok ([], [])
  | DMA_NONE => Bug
  end.

(** The direction a bounce copies in: towards the pool for
    [DMA_TO_DEVICE], back to the original buffer otherwise. *)
Definition way_of (dir : dma_data_direction) : dma_data_direction :=
  match dir with
  | DMA_TO_DEVICE => DMA_TO_DEVICE
  | _ => DMA_FROM_DEVICE
  end.

(** ** [swiotlb_map] *)

(** What [swiotlb_map] asks the DMA layer about the device: whether a bus
    range is within its reach, and whether it is cache-coherent. *)
Record dma_layer : Type := DmaLayer {
  dma_capable : Z -> Z -> bool;
  dev_is_dma_coherent : bool
}.

(** What [swiotlb_map] does besides returning: the overflow warning, and
    the cache maintenance requested for a device that is not coherent. *)
Inductive map_note : Type :=
| WarnAddrOverflow (dma_addr size : Z)
| ArchSyncForDevice (paddr size : Z) (dir : dma_data_direction).

(** The unmapping of the overflow path dereferences the pool; without a
    pool the mapping has already failed, so that branch is not taken. *)
Definition swiotlb_map (dl : dma_layer) (plat : platform) (dev : device)
    (omem : option io_tlb_mem) (cpu paddr size : Z)
    (dir : dma_data_direction) (attrs : Z)
    : result (option io_tlb_mem * Z * list diagnostic * list copy_ev
              * list map_note) :=
  let* (omem, swiotlb_addr, d, c) :=
    swiotlb_tbl_map_single plat dev omem cpu paddr size size 0 dir attrs in
  if swiotlb_addr =? DMA_MAPPING_ERROR
  then Ok (omem, DMA_MAPPING_ERROR, d, c, [])
  else
    let dma_addr := phys_to_dma_unencrypted dev swiotlb_addr in
    if negb (dma_capable dl dma_addr size)
    then
      match omem with
      | None => Bug
      | Some mem =>
        let* (mem, d2, c2) :=
          swiotlb_tbl_unmap_single plat dev mem cpu swiotlb_addr size dir
            (Z.lor attrs DMA_ATTR_SKIP_CPU_SYNC) in
        Ok (Some mem, DMA_MAPPING_ERROR, d ++ d2, c ++ c2,
            [WarnAddrOverflow dma_addr size])
      end
    else
      Ok (omem, dma_addr, d, c,
          if negb (dev_is_dma_coherent dl) &&
             (Z.land attrs DMA_ATTR_SKIP_CPU_SYNC =? 0)
          then [ArchSyncForDevice swiotlb_addr size dir] else []).

(** ** [swiotlb_max_mapping_size] *)

(** Modelled from the spec: the rounding macro is declared outside the
    sources; it rounds its first argument up to the next multiple of the
    second.  Both arguments are [int] here, so the sum and the product
    wrap at 32 bits and the division truncates. *)
Definition roundup (x y : Z) : Z := s32 (Z.quot (s32 (x + (y - 1))) y * y).

Definition swiotlb_max_mapping_size (dev : device) : Z :=
  let min_align_mask := s32 (dma_get_min_align_mask dev) in
  let min_align :=
    if min_align_mask =? 0 then 0
    else s32 (roundup min_align_mask IO_TLB_SIZE) in
  u64 (IO_TLB_SIZE * IO_TLB_SEGSIZE - min_align).

(** ** Boot-time sizing: [round_up_default_nslabs] and
       [swiotlb_adjust_nareas] *)

(** The two boot parameters the sizing functions update. *)
Record boot_config : Type := BootConfig {
  default_nslabs : Z;
  default_nareas : Z
}.

(** Modelled from the spec: the power-of-two helpers are declared outside
    the sources.  [is_power_of_2] is the usual bit test on a non-zero
    value; [roundup_pow_of_two] of a value of at least one is the least
    power of two not below it, one shifted by the position of the highest
    bit of the value minus one. *)
Definition is_power_of_2 (n : Z) : bool :=
  negb (n =? 0) && (Z.land n (n - 1) =? 0).

Definition roundup_pow_of_two (n : Z) : Z :=
  u64 (Z.shiftl 1 (Z.log2_up n)).

(** The configuration after the call, and the value returned. *)
Definition round_up_default_nslabs (c : boot_config) : boot_config * bool :=
  if default_nareas c =? 0 then (c, false)
  else if default_nslabs c <? u64 (IO_TLB_SEGSIZE * default_nareas c)
  then
    (BootConfig
       (roundup_pow_of_two (u64 (IO_TLB_SEGSIZE * default_nareas c)))
       (default_nareas c), true)
  else if is_power_of_2 (default_nslabs c) then (c, false)
  else
    (BootConfig (roundup_pow_of_two (default_nslabs c)) (default_nareas c),
     true).

Definition swiotlb_adjust_nareas (nareas : Z) (c : boot_config)
    : boot_config :=
  let nareas :=
    if nareas =? 0 then 1
    else if negb (is_power_of_2 nareas)
    then u32 (roundup_pow_of_two nareas)
    else nareas in
  fst (round_up_default_nslabs (BootConfig (default_nslabs c) nareas)).

(** The number of areas the walk of [swiotlb_find_slots] has still to
    visit when it stands at area [i], having started at area [st]. *)
Definition areas_left (mem : io_tlb_mem) (st i : Z) : Z :=
  if i <? st then st - i else nareas mem - i + st.

(** The units on the free lists of the areas below [k]. *)
Definition free_below (mem : io_tlb_mem) (k : Z) : Z :=
  foldl (fun acc a => acc + Z.of_nat (length (free_slots (area_at mem a))))
        0 (seqZ 0 k).

(** [pool_2x128] in lockless mode after processor 0 has mapped one unit
    and processor 1 has unmapped it: the unit waits in the reclamation
    queue of area 0. *)
Definition queued_2x128 : io_tlb_mem :=
  match swiotlb_tbl_map_single lockless_plat plain_dev (Some pool_2x128) 0
          4096 100 100 0 DMA_TO_DEVICE 0 with
  | Ok (Some mem, tlb_addr, _, _) =>
    match swiotlb_tbl_unmap_single lockless_plat plain_dev mem 1 tlb_addr
            100 DMA_TO_DEVICE 0 with
    | Ok (mem, _, _) => mem
    | _ => pool_2x128
    end
  | _ => pool_2x128
  end.

(** ** Boot: [swiotlb_init_remap] *)

Definition IO_TLB_MIN_SLABS : Z := Z.shiftr (Z.shiftl 1 20) IO_TLB_SHIFT.

(** Modelled from the spec: the alignment macro is declared outside the
    sources; it rounds an unsigned long up to the next multiple of a power
    of two. *)
Definition ALIGN (x a : Z) : Z := Z.land (u64 (x + (a - 1))) (Z.lnot (a - 1)).

(** What [swiotlb_init_remap] asks its environment: the number of
    processors, and the early allocator.  [swiotlb_memblock_alloc] stands
    for the function of that name with the flags and the remap callback of
    the call: from a number of units to the physical address of the buffer
    it obtained, or nothing.  The three flags tell whether the tables for
    the slots, the areas and the bitmap could be allocated. *)
Record boot_env : Type := BootEnv {
  num_processors : Z;
  num_possible_cpus : Z;
  swiotlb_memblock_alloc : Z -> option Z;
  alloc_slots_ok : bool;
  alloc_areas_ok : bool;
  alloc_bitmap_ok : bool
}.

(** The file-scope variables the boot code reads and writes;
    [io_tlb_default_mem] is all zeroes until the pool is initialised. *)
Record swiotlb_boot : Type := SwiotlbBoot {
  swiotlb_force_bounce : bool;
  swiotlb_force_disable : bool;
  boot_lockless_mode : bool;
  boot_defaults : boot_config;
  io_tlb_default_mem : io_tlb_mem
}.

(** The loop that halves the request until the allocator grants it. *)
Fixpoint memblock_retry (fuel : nat) (env : boot_env) (nslabs : Z)
    : result (option (Z * Z)) :=
  match fuel with
  | O => OutOfFuel
  | S fuel =>
    match swiotlb_memblock_alloc env nslabs with
    | Some tlb => Ok (Some (tlb, nslabs))
    | None =>
      if nslabs <=? IO_TLB_MIN_SLABS then Ok None
      else memblock_retry fuel env
             (ALIGN (Z.shiftr nslabs 1) IO_TLB_SEGSIZE)
    end
  end.

(** The [panic] of a failed bitmap allocation and the division by zero
    inside the initialisation are both the [Bug] outcome. *)
Definition swiotlb_init_remap (env : boot_env) (addressing_limit : bool)
    (st : swiotlb_boot) : result swiotlb_boot :=
  if negb addressing_limit && negb (swiotlb_force_bounce st) then Ok st
  else if swiotlb_force_disable st then Ok st
  else
    let lockless :=
      if negb (nareas (io_tlb_default_mem st) =? u32 (num_processors env))
      then false else boot_lockless_mode st in
    let c := boot_defaults st in
    let c :=
      if default_nareas c =? 0
      then swiotlb_adjust_nareas (u32 (num_possible_cpus env)) c else c in
    let* r :=
      memblock_retry (S (Z.to_nat (default_nslabs c))) env
        (default_nslabs c) in
    match r with
    | None =>
      Ok (SwiotlbBoot (swiotlb_force_bounce st) (swiotlb_force_disable st)
            lockless c (io_tlb_default_mem st))
    | Some (tlb, nslabs) =>
      let c :=
        if negb (default_nslabs c =? nslabs)
        then BootConfig nslabs (default_nareas c) else c in
      if negb (alloc_slots_ok env) || negb (alloc_areas_ok env)
      then
        Ok (SwiotlbBoot (swiotlb_force_bounce st) (swiotlb_force_disable st)
              lockless c (io_tlb_default_mem st))
      else if negb (alloc_bitmap_ok env) then Bug
      else if init_divides_by_zero nslabs (default_nareas c) then Bug
      else
        Ok (SwiotlbBoot (swiotlb_force_bounce st) (swiotlb_force_disable st)
              lockless c
              (swiotlb_init_io_tlb_mem tlb nslabs (default_nareas c)))
    end.

(** A boot in which the allocator refuses 1024 units and grants 512, on a
    machine with eight processors. *)
Definition tight_env : boot_env :=
  BootEnv 8 8 (fun n => if n =? 512 then Some (2 ^ 20) else None)
    true true true.

Definition fresh_boot : swiotlb_boot :=
  SwiotlbBoot false false true (BootConfig 1024 0)
    (Mem 0 0 0 0 [] [] []).

(** The same allocator on a machine with 1024 possible processors. *)
Definition crowded_env : boot_env :=
  BootEnv 1024 1024 (fun n => if n =? 512 then Some (2 ^ 20) else None)
    true true true.

(** * Properties *)

Lemma Ok_inj {A} (a b : A) : Ok a = Ok b -> a = b.
Proof. by intros [= ->]. Qed.

(** ** Indexed reads and writes *)

Section zarray.
Context {A : Type}.
Implicit Types (l : list A) (i j : Z) (x : A).

Lemma length_zinsert l i x : length (zinsert l i x) = length l.
Proof. unfold zinsert. case_decide; [apply length_insert | done]. Qed.

Lemma zlookup_Some_range l i x :
  zlookup l i = Some x -> 0 <= i < Z.of_nat (length l).
Proof.
  unfold zlookup. case_decide; [|done].
  intros Hlt%lookup_lt_Some. lia.
Qed.

Lemma zlookup_ge l i : Z.of_nat (length l) <= i -> zlookup l i = None.
Proof.
  intros. unfold zlookup. case_decide; [|done].
  apply lookup_ge_None. lia.
Qed.

Lemma zlookup_neg l i : i < 0 -> zlookup l i = None.
Proof. intros. unfold zlookup. case_decide; [lia | done]. Qed.

Lemma zlookup_is_Some l i :
  0 <= i < Z.of_nat (length l) -> is_Some (zlookup l i).
Proof.
  intros. unfold zlookup. case_decide; [|lia].
  apply lookup_lt_is_Some. lia.
Qed.

Lemma zlookup_zinsert_eq l i x :
  0 <= i < Z.of_nat (length l) -> zlookup (zinsert l i x) i = Some x.
Proof.
  intros. unfold zlookup, zinsert. case_decide; [|lia].
  apply list_lookup_insert_eq. lia.
Qed.

Lemma zlookup_zinsert_ne l i j x :
  i <> j -> zlookup (zinsert l i x) j = zlookup l j.
Proof.
  intros. unfold zlookup, zinsert. repeat case_decide; try done.
  apply list_lookup_insert_ne. lia.
Qed.

Lemma zlookup_zinsert_out l i j x :
  ~ (0 <= i < Z.of_nat (length l)) ->
  zlookup (zinsert l i x) j = zlookup l j.
Proof.
  intros. unfold zinsert. case_decide; [|done].
  rewrite list_insert_ge; [done | lia].
Qed.

Lemma default_zlookup_zinsert (d : A) l i j x :
  default d (zlookup (zinsert l i x) j) =
  if decide (i = j /\ 0 <= i < Z.of_nat (length l))
  then x else default d (zlookup l j).
Proof.
  case_decide as H.
  - destruct H as [-> H]. by rewrite zlookup_zinsert_eq.
  - destruct (decide (i = j)) as [->|].
    + rewrite zlookup_zinsert_out; [done | tauto].
    + by rewrite zlookup_zinsert_ne.
Qed.
End zarray.

(** ** Machine arithmetic *)

Ltac consts :=
  unfold IO_TLB_SIZE, IO_TLB_SHIFT, IO_TLB_SEGSIZE, PAGE_SIZE, PAGE_SHIFT,
    BITS_PER_LONG, INVALID_PHYS_ADDR, DMA_MAPPING_ERROR in *.

Lemma u64_small x : 0 <= x < 2 ^ 64 -> u64 x = x.
Proof. intros. unfold u64. by apply Z.mod_small. Qed.

Lemma u32_small x : 0 <= x < 2 ^ 32 -> u32 x = x.
Proof. intros. unfold u32. by apply Z.mod_small. Qed.

Lemma s32_small x : 0 <= x < 2 ^ 31 -> s32 x = x.
Proof.
  intros. unfold s32. rewrite Z.mod_small by lia.
  destruct (Z.ltb_spec x (2 ^ 31)); lia.
Qed.

Lemma s32_nonneg x : 0 <= s32 x -> s32 x = u32 x.
Proof.
  unfold s32, u32. cbv zeta.
  pose proof (Z.mod_pos_bound x (2 ^ 32) ltac:(lia)).
  destruct (Z.ltb_spec (x mod 2 ^ 32) (2 ^ 31)); lia.
Qed.

Lemma u64_range x : 0 <= u64 x < 2 ^ 64.
Proof. unfold u64. apply Z.mod_pos_bound. lia. Qed.

Lemma u32_range x : 0 <= u32 x < 2 ^ 32.
Proof. unfold u32. apply Z.mod_pos_bound. lia. Qed.

Lemma land_low_mod x k : 0 <= k -> Z.land x (2 ^ k - 1) = x mod 2 ^ k.
Proof.
  intros. replace (2 ^ k - 1) with (Z.ones k)
    by (rewrite Z.ones_equiv; lia).
  by apply Z.land_ones.
Qed.

Lemma land_upper_bound a b : 0 <= b -> 0 <= Z.land a b <= b.
Proof.
  intros Hb. split; [apply Z.land_nonneg; auto|].
  assert (Z.land a b + Z.ldiff b a = b) as Hsum.
  { rewrite Z.add_nocarry_lxor.
    - apply Z.bits_inj'. intros n Hn.
      rewrite Z.lxor_spec, Z.land_spec, Z.ldiff_spec.
      destruct (Z.testbit a n), (Z.testbit b n); done.
    - apply Z.bits_inj'. intros n Hn.
      rewrite !Z.land_spec, Z.ldiff_spec, Z.bits_0.
      destruct (Z.testbit a n), (Z.testbit b n); done. }
  assert (0 <= Z.ldiff b a) by (apply Z.ldiff_nonneg; auto).
  lia.
Qed.

Lemma s32_range x : - 2 ^ 31 <= s32 x < 2 ^ 31.
Proof.
  unfold s32. cbv zeta.
  pose proof (Z.mod_pos_bound x (2 ^ 32) ltac:(lia)).
  destruct (Z.ltb_spec (x mod 2 ^ 32) (2 ^ 31)); lia.
Qed.

Lemma swiotlb_align_offset_range dev addr :
  0 <= swiotlb_align_offset dev addr < IO_TLB_SIZE.
Proof.
  unfold swiotlb_align_offset.
  pose proof (land_upper_bound (Z.land addr (dma_get_min_align_mask dev))
                (IO_TLB_SIZE - 1)). consts. lia.
Qed.

Lemma io_tlb_offset_mod val : io_tlb_offset val = val mod IO_TLB_SEGSIZE.
Proof.
  unfold io_tlb_offset, IO_TLB_SEGSIZE.
  change 128 with (2 ^ 7). by rewrite land_low_mod.
Qed.

Lemma nr_slots_ceil val :
  0 <= val -> val + IO_TLB_SIZE - 1 < 2 ^ 64 ->
  nr_slots val = (val + IO_TLB_SIZE - 1) / IO_TLB_SIZE.
Proof. intros. unfold nr_slots. rewrite u64_small; [done | consts; lia]. Qed.

Lemma nr_slots_bounds val :
  0 <= val -> val + IO_TLB_SIZE - 1 < 2 ^ 64 ->
  (nr_slots val - 1) * IO_TLB_SIZE < val <= nr_slots val * IO_TLB_SIZE.
Proof.
  intros. rewrite nr_slots_ceil by done. consts.
  pose proof (Z.div_mod (val + 2 ^ 11 - 1) (2 ^ 11) ltac:(lia)).
  pose proof (Z.mod_pos_bound (val + 2 ^ 11 - 1) (2 ^ 11) ltac:(lia)).
  lia.
Qed.

(** ** Reading the tables after one write *)

Lemma test_bit_set_bit i mem j :
  test_bit (__set_bit i mem) j =
  if decide (i = j /\ 0 <= i < Z.of_nat (length (bitmap mem)))
  then true else test_bit mem j.
Proof. apply default_zlookup_zinsert. Qed.

Lemma test_bit_clear_bit i mem j :
  test_bit (__clear_bit i mem) j =
  if decide (i = j /\ 0 <= i < Z.of_nat (length (bitmap mem)))
  then false else test_bit mem j.
Proof. apply default_zlookup_zinsert. Qed.

Lemma test_bit_true_range mem i :
  test_bit mem i = true -> 0 <= i < Z.of_nat (length (bitmap mem)).
Proof.
  unfold test_bit. destruct (zlookup (bitmap mem) i) eqn:E; [|done].
  intros _. by eapply zlookup_Some_range.
Qed.

Lemma slot_at_set_orig_addr i v mem j :
  slot_at (set_orig_addr i v mem) j =
  if decide (i = j /\ 0 <= i < Z.of_nat (length (slots mem)))
  then Slot v (alloc_size (slot_at mem i)) else slot_at mem j.
Proof. apply default_zlookup_zinsert. Qed.

Lemma slot_at_set_alloc_size i v mem j :
  slot_at (set_alloc_size i v mem) j =
  if decide (i = j /\ 0 <= i < Z.of_nat (length (slots mem)))
  then Slot (orig_addr (slot_at mem i)) v else slot_at mem j.
Proof. apply default_zlookup_zinsert. Qed.

Lemma area_at_set_area a x mem b :
  area_at (set_area a x mem) b =
  if decide (a = b /\ 0 <= a < Z.of_nat (length (areas mem)))
  then x else area_at mem b.
Proof. apply default_zlookup_zinsert. Qed.

Lemma area_at_list_del i mem b :
  area_at (list_del i mem) b = area_unlink i (area_at mem b).
Proof.
  unfold area_at, list_del, zlookup. simpl.
  case_decide; [|done].
  rewrite list_lookup_fmap. by destruct (areas mem !! Z.to_nat b).
Qed.

Lemma length_areas_list_del i mem :
  length (areas (list_del i mem)) = length (areas mem).
Proof. simpl. apply length_fmap. Qed.

(** ** The free-list walk *)

Lemma scan_zero_bit_le mem n : forall i, scan_zero_bit mem i n <= i + Z.of_nat n.
Proof.
  induction n as [|n IH]; intros i; simpl; [lia|].
  destruct (test_bit mem i); [|lia].
  specialize (IH (i + 1)). lia.
Qed.

Lemma scan_zero_bit_full mem n : forall i,
  scan_zero_bit mem i n = i + Z.of_nat n ->
  forall j, i <= j < i + Z.of_nat n -> test_bit mem j = true.
Proof.
  induction n as [|n IH]; intros i Hscan j Hj; [lia|].
  simpl in Hscan. destruct (test_bit mem i) eqn:Hbit; [|lia].
  destruct (decide (j = i)) as [->|]; [done|].
  apply (IH (i + 1)); lia.
Qed.

Lemma find_next_zero_bit_full mem s n :
  0 <= n ->
  find_next_zero_bit mem (s + n) s = s + n ->
  forall j, s <= j < s + n -> test_bit mem j = true.
Proof.
  unfold find_next_zero_bit. intros Hn Hscan j Hj.
  replace (s + n - s) with n in Hscan by lia.
  apply (scan_zero_bit_full mem (Z.to_nat n) s); lia.
Qed.

Lemma scan_free_slots_Some dev mem orig_addr alloc_size alloc_align_mask l idx :
  scan_free_slots mem (tbl_dma_addr_of dev mem) (iotlb_align_mask_of dev)
    (max_slots_of dev) (nslots_of alloc_size)
    orig_addr alloc_size alloc_align_mask l = Some idx ->
  idx ∈ l /\
  candidate_ok dev mem orig_addr alloc_size alloc_align_mask idx.
Proof.
  induction l as [|x l IH]; simpl; [done|].
  destruct (negb (orig_addr =? 0) && _) eqn:E1;
    [intros [? ?]%IH; split; [by right | done]|].
  destruct (negb (alloc_align_mask =? 0) && _) eqn:E2;
    [intros [? ?]%IH; split; [by right | done]|].
  destruct ((PAGE_SIZE <=? alloc_size) && _) eqn:E3;
    [intros [? ?]%IH; split; [by right | done]|].
  destruct (IO_TLB_SEGSIZE <? _) eqn:E4;
    [intros [? ?]%IH; split; [by right | done]|].
  destruct (iommu_is_span_boundary _ _ _ _) eqn:E5; simpl;
    [intros [? ?]%IH; split; [by right | done]|].
  destruct (find_next_zero_bit _ _ _ =? _) eqn:E6;
    [|intros [? ?]%IH; split; [by right | done]].
  intros [= <-]. split; [by left|].
  unfold candidate_ok. cbv zeta.
  apply andb_false_iff in E1, E2, E3.
  repeat split.
  - intros Ho. destruct E1 as [E1|E1].
    + apply negb_false_iff in E1. lia.
    + apply negb_false_iff in E1. lia.
  - intros Ho. destruct E2 as [E2|E2]; apply negb_false_iff in E2; lia.
  - intros Ho. destruct E3 as [E3|E3]; [lia|].
    apply negb_false_iff in E3. lia.
  - lia.
  - done.
  - lia.
Qed.

(** The outcomes of one search over one area. *)
Lemma swiotlb_do_find_slots_Ok dev mem area_index orig_addr alloc_size
    alloc_align_mask mem' index :
  swiotlb_do_find_slots dev mem area_index orig_addr alloc_size
    alloc_align_mask = Ok (mem', index) ->
  nslots_of alloc_size <> 0 /\ u32 area_index < nareas mem /\
  ((mem' = mem /\ index = -1) \/
   exists slot_index,
     slot_index ∈ free_slots (area_at mem area_index) /\
     candidate_ok dev mem orig_addr alloc_size alloc_align_mask slot_index /\
     nslots_of alloc_size
       <= u64 (area_nslabs mem - used (area_at mem area_index)) /\
     index = s32 slot_index /\
     mem' = claimed dev mem area_index orig_addr alloc_size slot_index).
Proof.
  unfold swiotlb_do_find_slots.
  fold (nslots_of alloc_size) (tbl_dma_addr_of dev mem)
    (iotlb_align_mask_of dev) (max_slots_of dev).
  destruct (Z.eqb_spec (nslots_of alloc_size) 0); [done|].
  destruct (Z.leb_spec (nareas mem) (u32 area_index)); [done|].
  destruct (Z.ltb_spec (u64 (area_nslabs mem - used (area_at mem area_index)))
              (nslots_of alloc_size)).
  { intros [= <- <-]. auto. }
  destruct (scan_free_slots _ _ _ _ _ _ _ _ _) as [slot_index|] eqn:Hscan.
  - intros [= <- <-]. apply scan_free_slots_Some in Hscan as [Hin Hok].
    split; [done|]. split; [done|]. right. exists slot_index.
    by split_and!.
  - intros [= <- <-]. auto.
Qed.

(** ** Writes to one table leave the other tables alone *)

Lemma test_bit_set_orig_addr i v mem j :
  test_bit (set_orig_addr i v mem) j = test_bit mem j.
Proof. reflexivity. Qed.

Lemma test_bit_set_alloc_size i v mem j :
  test_bit (set_alloc_size i v mem) j = test_bit mem j.
Proof. reflexivity. Qed.

Lemma test_bit_list_del i mem j :
  test_bit (list_del i mem) j = test_bit mem j.
Proof. reflexivity. Qed.

Lemma test_bit_set_area a x mem j :
  test_bit (set_area a x mem) j = test_bit mem j.
Proof. reflexivity. Qed.

Lemma test_bit_list_add_free i a mem j :
  test_bit (list_add_free i a mem) j = test_bit mem j.
Proof. reflexivity. Qed.

Lemma test_bit_list_add_tail_free i a mem j :
  test_bit (list_add_tail_free i a mem) j = test_bit mem j.
Proof. reflexivity. Qed.

Lemma test_bit_list_add_other i a mem j :
  test_bit (list_add_other i a mem) j = test_bit mem j.
Proof. reflexivity. Qed.

Lemma test_bit_add_used a d mem j :
  test_bit (add_used a d mem) j = test_bit mem j.
Proof. reflexivity. Qed.

Lemma slot_at_set_bit i mem j :
  slot_at (__set_bit i mem) j = slot_at mem j.
Proof. reflexivity. Qed.

Lemma slot_at_clear_bit i mem j :
  slot_at (__clear_bit i mem) j = slot_at mem j.
Proof. reflexivity. Qed.

Lemma slot_at_list_del i mem j :
  slot_at (list_del i mem) j = slot_at mem j.
Proof. reflexivity. Qed.

Lemma slot_at_set_area a x mem j :
  slot_at (set_area a x mem) j = slot_at mem j.
Proof. reflexivity. Qed.

Lemma slot_at_list_add_free i a mem j :
  slot_at (list_add_free i a mem) j = slot_at mem j.
Proof. reflexivity. Qed.

Lemma slot_at_list_add_tail_free i a mem j :
  slot_at (list_add_tail_free i a mem) j = slot_at mem j.
Proof. reflexivity. Qed.

Lemma slot_at_list_add_other i a mem j :
  slot_at (list_add_other i a mem) j = slot_at mem j.
Proof. reflexivity. Qed.

Lemma slot_at_add_used a d mem j :
  slot_at (add_used a d mem) j = slot_at mem j.
Proof. reflexivity. Qed.

Lemma area_at_set_bit i mem b :
  area_at (__set_bit i mem) b = area_at mem b.
Proof. reflexivity. Qed.

Lemma area_at_clear_bit i mem b :
  area_at (__clear_bit i mem) b = area_at mem b.
Proof. reflexivity. Qed.

Lemma area_at_set_orig_addr i v mem b :
  area_at (set_orig_addr i v mem) b = area_at mem b.
Proof. reflexivity. Qed.

Lemma area_at_set_alloc_size i v mem b :
  area_at (set_alloc_size i v mem) b = area_at mem b.
Proof. reflexivity. Qed.

Create Rewrite HintDb pool.

#[local] Hint Rewrite
  test_bit_set_orig_addr
  test_bit_set_alloc_size
  test_bit_list_del
  test_bit_set_area
  test_bit_list_add_free
  test_bit_list_add_tail_free
  test_bit_list_add_other
  test_bit_add_used
  slot_at_set_bit
  slot_at_clear_bit
  slot_at_list_del
  slot_at_set_area
  slot_at_list_add_free
  slot_at_list_add_tail_free
  slot_at_list_add_other
  slot_at_add_used
  area_at_set_bit
  area_at_clear_bit
  area_at_set_orig_addr
  area_at_set_alloc_size
  test_bit_set_bit test_bit_clear_bit slot_at_set_orig_addr
  slot_at_set_alloc_size area_at_list_del : pool.

(** ** Shape preservation *)

Lemma same_shape_refl mem : same_shape mem mem.
Proof. by repeat split. Qed.

Lemma same_shape_trans m1 m2 m3 :
  same_shape m1 m2 -> same_shape m2 m3 -> same_shape m1 m3.
Proof. unfold same_shape. intros (?&?&?&?&?&?&?) (?&?&?&?&?&?&?). split_and!; congruence. Qed.

Lemma same_shape_set_bitmap mem i b :
  same_shape mem (set_bitmap mem (zinsert (bitmap mem) i b)).
Proof. unfold same_shape. simpl. rewrite length_zinsert. by split_and!. Qed.

Lemma same_shape_set_slots mem i x :
  same_shape mem (set_slots mem (zinsert (slots mem) i x)).
Proof. unfold same_shape. simpl. rewrite length_zinsert. by split_and!. Qed.

Lemma same_shape_set_area mem a x : same_shape mem (set_area a x mem).
Proof. unfold same_shape. simpl. rewrite length_zinsert. by split_and!. Qed.

Lemma same_shape_list_del mem i : same_shape mem (list_del i mem).
Proof. unfold same_shape. simpl. rewrite length_fmap. by split_and!. Qed.

Lemma same_shape_foldl {B} (f : io_tlb_mem -> B -> io_tlb_mem) l :
  (forall m x, same_shape m (f m x)) ->
  forall mem, same_shape mem (foldl f mem l).
Proof.
  intros Hf. induction l as [|x l IH]; intros mem; simpl.
  - apply same_shape_refl.
  - eapply same_shape_trans; [apply Hf | apply IH].
Qed.

Lemma same_shape_claim_slot s A off mem i :
  same_shape mem (claim_slot s A off mem i).
Proof.
  unfold claim_slot.
  eapply same_shape_trans; [apply same_shape_set_bitmap|].
  eapply same_shape_trans; [apply same_shape_set_slots|].
  apply same_shape_list_del.
Qed.

Lemma same_shape_release_slot a mem i :
  same_shape mem (release_slot a mem i).
Proof.
  unfold release_slot.
  eapply same_shape_trans; [apply same_shape_set_bitmap|].
  eapply same_shape_trans; [apply same_shape_set_slots|].
  eapply same_shape_trans; [apply same_shape_set_slots|].
  apply same_shape_set_area.
Qed.

Lemma same_shape_reclaim_slot a mem i :
  same_shape mem (reclaim_slot a mem i).
Proof.
  unfold reclaim_slot.
  eapply same_shape_trans; [apply same_shape_set_bitmap|].
  eapply same_shape_trans; [apply same_shape_set_slots|].
  eapply same_shape_trans; [apply same_shape_set_slots|].
  eapply same_shape_trans; [apply same_shape_list_del|].
  eapply same_shape_trans; [apply same_shape_set_area|].
  apply same_shape_set_area.
Qed.

Lemma same_shape_claimed dev mem a o A s :
  same_shape mem (claimed dev mem a o A s).
Proof.
  unfold claimed.
  eapply same_shape_trans; [|apply same_shape_set_area].
  apply same_shape_foldl. intros. apply same_shape_claim_slot.
Qed.

(** ** The loop after [found:] *)

Lemma test_bit_out mem j :
  ~ (0 <= j < Z.of_nat (length (bitmap mem))) -> test_bit mem j = false.
Proof.
  intros. destruct (test_bit mem j) eqn:E; [|done].
  apply test_bit_true_range in E. lia.
Qed.

Lemma claim_loop_test_bit s A off l : forall mem j,
  test_bit (foldl (claim_slot s A off) mem l) j =
  if decide (j ∈ l) then false else test_bit mem j.
Proof.
  induction l as [|x l IH]; intros mem j; simpl; [done|].
  - rewrite IH. unfold claim_slot. autorewrite with pool.
    repeat case_decide; try done; try (exfalso; set_solver).
    all: assert (j = x) as -> by set_solver.
    all: first [apply test_bit_out | symmetry; apply test_bit_out]; tauto.
Qed.

Lemma claim_loop_orig_addr s A off l : forall mem j,
  orig_addr (slot_at (foldl (claim_slot s A off) mem l) j) =
  orig_addr (slot_at mem j).
Proof.
  induction l as [|x l IH]; intros mem j; simpl; [done|].
  rewrite IH. unfold claim_slot. autorewrite with pool.
  case_decide as H; [|done]. by destruct H as [-> _].
Qed.

Lemma claim_loop_alloc_size s A off l : forall mem j,
  alloc_size (slot_at (foldl (claim_slot s A off) mem l) j) =
  if decide (j ∈ l /\ 0 <= j < Z.of_nat (length (slots mem)))
  then u64 (A - u32 (off + u32 (Z.shiftl (j - s) IO_TLB_SHIFT)))
  else alloc_size (slot_at mem j).
Proof.
  induction l as [|x l IH]; intros mem j; simpl; [done|].
  - rewrite IH.
    destruct (same_shape_claim_slot s A off mem x) as (_&_&_&_&_&->&_).
    unfold claim_slot. autorewrite with pool.
    repeat case_decide; simpl; try done; try (exfalso; set_solver).
    by destruct H0 as [-> _].
Qed.

Lemma filter_all (P : Z -> Prop) `{!forall x, Decision (P x)} (l : list Z) :
  (forall x, x ∈ l -> P x) -> filter P l = l.
Proof.
  induction l as [|y l IH]; intros HP; [done|].
  rewrite filter_cons_True by (apply HP; left).
  f_equal. apply IH. intros x Hx. apply HP. by right.
Qed.

Lemma unlink_all_nil l : unlink_all [] l = l.
Proof. apply filter_all. intros x _. apply not_elem_of_nil. Qed.

Lemma unlink_unlink_all x l L :
  unlink_all l (unlink x L) = unlink_all (x :: l) L.
Proof.
  unfold unlink_all, unlink. rewrite list_filter_filter.
  apply list_filter_iff. intros y. set_solver.
Qed.

Lemma claim_loop_area s A off l : forall mem b,
  area_at (foldl (claim_slot s A off) mem l) b =
  area_unlink_all l (area_at mem b).
Proof.
  induction l as [|x l IH]; intros mem b; simpl.
  - unfold area_unlink_all. rewrite !unlink_all_nil.
    by destruct (area_at mem b).
  - rewrite IH. unfold claim_slot. autorewrite with pool.
    unfold area_unlink_all, area_unlink. simpl.
    by rewrite !unlink_unlink_all.
Qed.

Lemma area_at_add_used a d mem b :
  area_at (add_used a d mem) b =
  if decide (a = b /\ 0 <= a < Z.of_nat (length (areas mem)))
  then Area (u64 (used (area_at mem a) + d)) (free_slots (area_at mem a))
            (free_slots_from_other_cpu (area_at mem a))
  else area_at mem b.
Proof. apply area_at_set_area. Qed.

Lemma area_at_list_add_free i a mem b :
  area_at (list_add_free i a mem) b =
  if decide (a = b /\ 0 <= a < Z.of_nat (length (areas mem)))
  then Area (used (area_at mem a)) (i :: free_slots (area_at mem a))
            (free_slots_from_other_cpu (area_at mem a))
  else area_at mem b.
Proof. apply area_at_set_area. Qed.

Lemma area_at_list_add_tail_free i a mem b :
  area_at (list_add_tail_free i a mem) b =
  if decide (a = b /\ 0 <= a < Z.of_nat (length (areas mem)))
  then Area (used (area_at mem a)) (free_slots (area_at mem a) ++ [i])
            (free_slots_from_other_cpu (area_at mem a))
  else area_at mem b.
Proof. apply area_at_set_area. Qed.

Lemma area_at_list_add_other i a mem b :
  area_at (list_add_other i a mem) b =
  if decide (a = b /\ 0 <= a < Z.of_nat (length (areas mem)))
  then Area (used (area_at mem a)) (free_slots (area_at mem a))
            (i :: free_slots_from_other_cpu (area_at mem a))
  else area_at mem b.
Proof. apply area_at_set_area. Qed.

#[local] Hint Rewrite area_at_add_used area_at_list_add_free
  area_at_list_add_tail_free area_at_list_add_other : pool.

(** ** Counting *)

Lemma length_unlink_all run L :
  NoDup L -> NoDup run -> (forall j, j ∈ run -> j ∈ L) ->
  (length (unlink_all run L) + length run = length L)%nat.
Proof.
  intros HL Hrun Hsub.
  pose proof (filter_app_complement (fun x => x ∉ run) L) as HP.
  apply Permutation_length in HP. rewrite length_app in HP.
  assert (filter (fun x => ~ (x ∉ run)) L ≡ₚ run) as Hperm.
  { apply NoDup_Permutation; [by apply NoDup_filter | done |].
    intros x. rewrite list_elem_of_filter. split.
    - intros [Hx _]. by apply dec_stable.
    - intros Hx. split; [tauto | by apply Hsub]. }
  apply Permutation_length in Hperm. unfold unlink_all. lia.
Qed.

Lemma NoDup_range_length (l : list Z) lo n :
  NoDup l -> (forall j, j ∈ l -> lo <= j < lo + n) ->
  Z.of_nat (length l) <= Z.max 0 n.
Proof.
  intros Hl Hin.
  assert (l ⊆+ seqZ lo n) as Hsub.
  { apply NoDup_submseteq; [done|]. intros x Hx. apply elem_of_seqZ. auto. }
  apply submseteq_length in Hsub. rewrite length_seqZ in Hsub. lia.
Qed.

Lemma in_area_inj mem a b j :
  0 < area_nslabs mem -> in_area mem a j -> in_area mem b j -> a = b.
Proof. unfold in_area. intros. nia. Qed.

Lemma in_area_div mem a j :
  0 < area_nslabs mem -> (in_area mem a j <-> a = j / area_nslabs mem).
Proof.
  unfold in_area. intros Hpos. split.
  - intros H. apply Z.div_unique with (r := j - a * area_nslabs mem); lia.
  - intros ->.
    pose proof (Z.div_mod j (area_nslabs mem) ltac:(lia)).
    pose proof (Z.mod_pos_bound j (area_nslabs mem) ltac:(lia)). lia.
Qed.

Lemma run_in_area mem a s n j :
  0 < area_nslabs mem -> (IO_TLB_SEGSIZE | area_nslabs mem) ->
  in_area mem a s -> io_tlb_offset s + n <= IO_TLB_SEGSIZE ->
  s <= j < s + n -> in_area mem a j.
Proof.
  rewrite io_tlb_offset_mod. unfold in_area, IO_TLB_SEGSIZE.
  intros Hpos [k Hk] [Hlo Hhi] Hseg Hj.
  pose proof (Z.div_mod s 128 ltac:(lia)).
  pose proof (Z.mod_pos_bound s 128 ltac:(lia)).
  rewrite Hk in *. split; [lia|].
  assert (s / 128 < (a + 1) * k) by nia. nia.
Qed.

(** ** The state after a successful search *)

Lemma claimed_test_bit dev mem a o A s j :
  test_bit (claimed dev mem a o A s) j =
  if decide (s <= j < s + nslots_of A) then false else test_bit mem j.
Proof.
  unfold claimed. rewrite test_bit_add_used, claim_loop_test_bit.
  repeat case_decide; try done; exfalso;
    match goal with H : _ |- _ => apply elem_of_seqZ in H; tauto
                  | H : ~ _ |- _ => apply H, elem_of_seqZ; tauto end.
Qed.

Lemma claimed_orig_addr dev mem a o A s j :
  orig_addr (slot_at (claimed dev mem a o A s) j) = orig_addr (slot_at mem j).
Proof. unfold claimed. by rewrite slot_at_add_used, claim_loop_orig_addr. Qed.

Lemma claimed_alloc_size dev mem a o A s j :
  s <= j < s + nslots_of A -> 0 <= j < Z.of_nat (length (slots mem)) ->
  alloc_size (slot_at (claimed dev mem a o A s) j) =
  u64 (A - u32 (swiotlb_align_offset dev o
                + u32 (Z.shiftl (j - s) IO_TLB_SHIFT))).
Proof.
  intros Hj Hr. unfold claimed.
  rewrite slot_at_add_used, claim_loop_alloc_size.
  rewrite decide_True; [done|]. split; [|done]. by apply elem_of_seqZ.
Qed.

Lemma claimed_alloc_size_other dev mem a o A s j :
  ~ (s <= j < s + nslots_of A) ->
  alloc_size (slot_at (claimed dev mem a o A s) j) = alloc_size (slot_at mem j).
Proof.
  intros Hj. unfold claimed.
  rewrite slot_at_add_used, claim_loop_alloc_size.
  rewrite decide_False; [done|]. intros [Hin _].
  by apply elem_of_seqZ in Hin.
Qed.

Lemma claimed_area dev mem a o A s b :
  area_at (claimed dev mem a o A s) b =
  let run := seqZ s (nslots_of A) in
  if decide (a = b /\ 0 <= a < Z.of_nat (length (areas mem)))
  then Area (u64 (used (area_at mem a) + nslots_of A))
            (unlink_all run (free_slots (area_at mem a)))
            (unlink_all run (free_slots_from_other_cpu (area_at mem a)))
  else area_unlink_all run (area_at mem b).
Proof.
  unfold claimed. rewrite area_at_add_used.
  match goal with |- context [length (areas (foldl ?f ?m ?l))] =>
    destruct (same_shape_foldl f l
                (fun m x => same_shape_claim_slot _ _ _ m x) m)
      as (_&_&_&_&_&_&->) end.
  rewrite !claim_loop_area. by case_decide.
Qed.

Lemma nslots_of_nonneg A : 0 <= nslots_of A.
Proof. unfold nslots_of. apply u32_range. Qed.

(** What a passed candidate says about the pool. *)
Lemma candidate_run dev mem a o A m s :
  pool_inv mem -> 0 <= a < nareas mem ->
  s ∈ free_slots (area_at mem a) ->
  candidate_ok dev mem o A m s ->
  (forall j, s <= j < s + nslots_of A ->
     test_bit mem j = true /\ in_area mem a j /\
     j ∈ free_slots (area_at mem a)) /\
  0 <= s /\ s + nslots_of A <= nslabs mem /\
  nslots_of A + used (area_at mem a) <= area_nslabs mem.
Proof.
  intros Hinv Ha Hs (_ & _ & _ & Hseg & _ & Hbits).
  pose proof (nslots_of_nonneg A) as Hn.
  pose proof (proj1 (inv_free_iff mem Hinv a s Ha) Hs) as [Hsa Hsb].
  assert (forall j, s <= j < s + nslots_of A ->
     test_bit mem j = true /\ in_area mem a j /\
     j ∈ free_slots (area_at mem a)) as Hrun.
  { intros j Hj.
    assert (test_bit mem j = true) by by eapply find_next_zero_bit_full.
    assert (in_area mem a j)
      by (eapply run_in_area; eauto using inv_area_nslabs, inv_seg).
    split_and!; try done. by apply (inv_free_iff mem Hinv a j Ha). }
  split; [done|].
  pose proof (test_bit_true_range _ _ Hsb) as Hsr.
  split; [lia|].
  assert (Z.of_nat (length (seqZ s (nslots_of A)))
          <= Z.of_nat (length (free_slots (area_at mem a)))) as Hlen.
  { apply inj_le, submseteq_length, NoDup_submseteq; [apply NoDup_seqZ|].
    intros x Hx%elem_of_seqZ. by apply Hrun. }
  rewrite length_seqZ in Hlen.
  pose proof (inv_used mem Hinv a Ha) as [? ?].
  split; [|lia].
  destruct (decide (nslots_of A = 0)) as [->|]; [|].
  - rewrite <- (inv_bitmap_len mem Hinv). lia.
  - destruct (Hrun (s + nslots_of A - 1) ltac:(lia)) as (Hb & _ & _).
    apply test_bit_true_range in Hb.
    rewrite <- (inv_bitmap_len mem Hinv). lia.
Qed.

Lemma pool_inv_claimed dev mem a o A m s :
  pool_inv mem -> 0 <= a < nareas mem ->
  s ∈ free_slots (area_at mem a) ->
  candidate_ok dev mem o A m s ->
  pool_inv (claimed dev mem a o A s).
Proof.
  intros Hinv Ha Hs Hok.
  destruct (candidate_run dev mem a o A m s Hinv Ha Hs Hok)
    as (Hrun & Hs0 & Hsn & Hcap).
  pose proof (nslots_of_nonneg A) as Hn.
  destruct (same_shape_claimed dev mem a o A s)
    as (Hst & Hns & Hna & Han & Hbl & Hsl & Hal).
  pose proof (inv_areas_len mem Hinv) as Hlen.
  assert (forall b, 0 <= b < nareas mem ->
    free_slots (area_at (claimed dev mem a o A s) b) =
      unlink_all (seqZ s (nslots_of A)) (free_slots (area_at mem b)) /\
    free_slots_from_other_cpu (area_at (claimed dev mem a o A s) b) =
      unlink_all (seqZ s (nslots_of A))
        (free_slots_from_other_cpu (area_at mem b)) /\
    used (area_at (claimed dev mem a o A s) b) =
      if decide (a = b) then used (area_at mem a) + nslots_of A
      else used (area_at mem b)) as Hview.
  { intros b Hb. rewrite claimed_area. cbv zeta.
    pose proof (inv_used mem Hinv a Ha) as [? ?].
    repeat case_decide; simpl; try (exfalso; lia); subst;
      split_and!; try done.
    apply u64_small. pose proof (inv_small mem Hinv).
    pose proof (inv_nslabs mem Hinv). nia. }
  constructor; rewrite ?Hns, ?Hna, ?Han, ?Hbl, ?Hsl, ?Hal;
    try apply Hinv.
  - intros b Hb. destruct (Hview b Hb) as (-> & _ & _).
    apply NoDup_filter. by apply Hinv.
  - intros b i Hb. destruct (Hview b Hb) as (-> & _ & _).
    unfold unlink_all. rewrite list_elem_of_filter, elem_of_seqZ.
    rewrite claimed_test_bit, (inv_free_iff mem Hinv b i Hb).
    unfold in_area. rewrite Han. case_decide; [|tauto].
    split; [tauto | intros [_ ?]; done].
  - intros b Hb. destruct (Hview b Hb) as (_ & -> & _).
    apply NoDup_filter. by apply Hinv.
  - intros b i Hb. destruct (Hview b Hb) as (_ & -> & _).
    unfold unlink_all. rewrite list_elem_of_filter.
    intros [_ Hi]. apply (inv_other_in mem Hinv b i Hb) in Hi as [? ?].
    unfold in_area. rewrite Han. split; [done|].
    rewrite claimed_test_bit. by case_decide.
  - intros b Hb. destruct (Hview b Hb) as (-> & _ & ->).
    pose proof (inv_used mem Hinv b Hb) as [? Hu].
    case_decide as Hab.
    + subst b.
      pose proof (length_unlink_all (seqZ s (nslots_of A))
        (free_slots (area_at mem a)) (inv_free_nodup mem Hinv a Ha)
        (NoDup_seqZ _ _)) as HL.
      rewrite length_seqZ in HL.
      specialize (HL ltac:(intros j Hj%elem_of_seqZ; by apply Hrun)).
      lia.
    + unfold unlink_all.
      rewrite (filter_all (fun x => x ∉ seqZ s (nslots_of A))); [lia|].
      intros x Hx Hx'%elem_of_seqZ.
      apply (inv_free_iff mem Hinv b x Hb) in Hx as [Hx _].
      destruct (Hrun x Hx') as (_ & Hxa & _).
      apply Hab. eapply in_area_inj; eauto using inv_area_nslabs.
  - intros i. rewrite claimed_test_bit, claimed_orig_addr.
    case_decide; [done|]. apply Hinv.
Qed.

Lemma pool_inv_in_area_range mem a i :
  pool_inv mem -> 0 <= a < nareas mem -> in_area mem a i ->
  0 <= i < nslabs mem.
Proof.
  intros Hinv Ha [Hlo Hhi].
  pose proof (inv_nslabs mem Hinv). pose proof (inv_area_nslabs mem Hinv).
  nia.
Qed.

Lemma pool_inv_free_range mem a i :
  pool_inv mem -> 0 <= a < nareas mem ->
  i ∈ free_slots (area_at mem a) -> 0 <= i < nslabs mem.
Proof.
  intros Hinv Ha Hi. apply (inv_free_iff mem Hinv a i Ha) in Hi as [Hi _].
  by eapply pool_inv_in_area_range.
Qed.

(** Under the invariant one search either changes nothing and reports -1,
    or claims a run that starts at the reported index. *)
Lemma swiotlb_do_find_slots_inv dev mem a o A m mem' index :
  pool_inv mem -> - 2 ^ 31 <= a < 2 ^ 31 ->
  swiotlb_do_find_slots dev mem a o A m = Ok (mem', index) ->
  0 <= a < nareas mem /\ nslots_of A <> 0 /\
  ((mem' = mem /\ index = -1) \/
   (0 <= index /\ index ∈ free_slots (area_at mem a) /\
    candidate_ok dev mem o A m index /\
    mem' = claimed dev mem a o A index)).
Proof.
  intros Hinv Ha H.
  apply swiotlb_do_find_slots_Ok in H as (Hn & Hbug & H).
  assert (0 <= a < nareas mem) as Ha'.
  { pose proof (inv_small mem Hinv). pose proof (inv_nslabs mem Hinv).
    pose proof (inv_area_nslabs mem Hinv). pose proof (inv_nareas mem Hinv).
    assert (nareas mem <= nslabs mem) by nia.
    unfold u32 in Hbug.
    destruct (decide (0 <= a)).
    - rewrite Z.mod_small in Hbug by lia. lia.
    - replace a with (a + 2 ^ 32 + (-1) * 2 ^ 32) in Hbug by lia.
      rewrite Z.mod_add, Z.mod_small in Hbug by lia. lia. }
  split; [done|]. split; [done|].
  destruct H as [H | (s & Hs & Hok & _ & -> & ->)]; [by left | right].
  pose proof (pool_inv_free_range mem a s Hinv Ha' Hs).
  pose proof (inv_small mem Hinv).
  rewrite s32_small by lia. split_and!; try done; lia.
Qed.

Lemma pool_inv_do_find_slots dev mem a o A m mem' index :
  pool_inv mem -> - 2 ^ 31 <= a < 2 ^ 31 ->
  swiotlb_do_find_slots dev mem a o A m = Ok (mem', index) ->
  pool_inv mem' /\ same_shape mem mem'.
Proof.
  intros Hinv Ha H.
  apply swiotlb_do_find_slots_inv in H as (Ha' & _ & H); [|done..].
  destruct H as [[-> _] | (_ & Hs & Hok & ->)].
  - split; [done | apply same_shape_refl].
  - split; [by eapply pool_inv_claimed | apply same_shape_claimed].
Qed.

(** ** Reclamation of the units released by other processors *)

Lemma test_bit_reclaim_slot a mem x j :
  test_bit (reclaim_slot a mem x) j =
  if decide (x = j /\ 0 <= x < Z.of_nat (length (bitmap mem)))
  then true else test_bit mem j.
Proof. unfold reclaim_slot. by autorewrite with pool. Qed.

Lemma slot_at_reclaim_slot a mem x j :
  slot_at (reclaim_slot a mem x) j =
  if decide (x = j /\ 0 <= x < Z.of_nat (length (slots mem)))
  then free_slot else slot_at mem j.
Proof.
  unfold reclaim_slot. autorewrite with pool. simpl.
  rewrite length_zinsert.
  repeat case_decide; try done; exfalso; tauto.
Qed.

Lemma area_at_reclaim_slot a mem x b :
  area_at (reclaim_slot a mem x) b =
  if decide (a = b /\ 0 <= a < Z.of_nat (length (areas mem)))
  then Area (u64 (used (area_at mem a) + -1))
            (x :: unlink x (free_slots (area_at mem a)))
            (unlink x (free_slots_from_other_cpu (area_at mem a)))
  else area_unlink x (area_at mem b).
Proof.
  unfold reclaim_slot. autorewrite with pool. simpl.
  rewrite !length_zinsert, !length_fmap.
  repeat case_decide; try done; exfalso; tauto.
Qed.

Lemma unlink_not_in x l : x ∉ l -> unlink x l = l.
Proof.
  intros Hx. apply filter_all. intros y Hy ->. done.
Qed.

Lemma elem_of_unlink x l y : y ∈ unlink x l <-> y <> x /\ y ∈ l.
Proof. unfold unlink. by rewrite list_elem_of_filter. Qed.

Lemma pool_inv_reclaim_slot a mem x :
  pool_inv mem -> 0 <= a < nareas mem ->
  x ∈ free_slots_from_other_cpu (area_at mem a) ->
  pool_inv (reclaim_slot a mem x).
Proof.
  intros Hinv Ha Hx.
  destruct (same_shape_reclaim_slot a mem x)
    as (Hst & Hns & Hna & Han & Hbl & Hsl & Hal).
  pose proof (inv_areas_len mem Hinv) as Hlen.
  pose proof (inv_bitmap_len mem Hinv) as Hblen.
  pose proof (inv_slots_len mem Hinv) as Hslen.
  pose proof (inv_area_nslabs mem Hinv) as Hpos.
  destruct (inv_other_in mem Hinv a x Ha Hx) as [Hxa Hxb].
  pose proof (pool_inv_in_area_range mem a x Hinv Ha Hxa) as Hxr.
  assert (forall b, 0 <= b < nareas mem -> x ∉ free_slots (area_at mem b))
    as Hnotfree.
  { intros b Hb Hin. apply (inv_free_iff mem Hinv b x Hb) in Hin as [_ Hin].
    congruence. }
  assert (forall b, 0 <= b < nareas mem -> b <> a ->
            x ∉ free_slots_from_other_cpu (area_at mem b)) as Hnotother.
  { intros b Hb Hne Hin.
    apply (inv_other_in mem Hinv b x Hb) in Hin as [Hin _].
    apply Hne. by eapply in_area_inj. }
  assert (Z.of_nat (length (free_slots (area_at mem a))) < area_nslabs mem)
    as Hroom.
  { pose proof (NoDup_range_length (x :: free_slots (area_at mem a))
                  (a * area_nslabs mem) (area_nslabs mem)) as HL.
    simpl in HL. rewrite Z.max_r in HL by lia.
    assert (Z.of_nat (S (length (free_slots (area_at mem a))))
            <= area_nslabs mem); [|lia].
    apply HL.
    - apply NoDup_cons. split; [by apply Hnotfree | by apply Hinv].
    - intros j [->|Hj]%elem_of_cons; [unfold in_area in Hxa; lia|].
      apply (inv_free_iff mem Hinv a j Ha) in Hj as [Hj _].
      unfold in_area in Hj. lia. }
  pose proof (inv_used mem Hinv a Ha) as [Hu0 Hu1].
  pose proof (inv_small mem Hinv) as Hsmall.
  pose proof (inv_nslabs mem Hinv) as Hnsl.
  assert (area_nslabs mem <= nslabs mem) by nia.
  constructor; rewrite ?Hns, ?Hna, ?Han, ?Hbl, ?Hsl, ?Hal;
    try apply Hinv.
  - intros b Hb. rewrite area_at_reclaim_slot.
    case_decide as Hd; simpl.
    + apply NoDup_cons. split.
      * rewrite elem_of_unlink. tauto.
      * apply NoDup_filter. by apply Hinv.
    + apply NoDup_filter. by apply Hinv.
  - intros b i Hb. rewrite area_at_reclaim_slot, test_bit_reclaim_slot.
    unfold in_area. rewrite Han. fold (in_area mem b i).
    case_decide as Hd; simpl.
    + destruct Hd as [<- _].
      rewrite elem_of_cons, elem_of_unlink, (inv_free_iff mem Hinv a i Ha).
      case_decide as Hd2.
      * destruct Hd2 as [<- _]. tauto.
      * split; [intros [->|?]; [exfalso; apply Hd2; split; [done | lia]|tauto]|].
        destruct (decide (i = x)); [by left | right; tauto].
    + rewrite elem_of_unlink, (inv_free_iff mem Hinv b i Hb).
      case_decide as Hd2.
      * destruct Hd2 as [<- _]. split; [tauto|].
        intros [Hia _]. exfalso. apply Hd. split; [|lia].
        by eapply in_area_inj.
      * split; [tauto|]. intros [? ?]. split_and!; try done.
        intros ->. congruence.
  - intros b Hb. rewrite area_at_reclaim_slot.
    case_decide; simpl; apply NoDup_filter; by apply Hinv.
  - intros b i Hb. rewrite area_at_reclaim_slot, test_bit_reclaim_slot.
    unfold in_area. rewrite Han. fold (in_area mem b i).
    case_decide as Hd; simpl.
    + destruct Hd as [<- _]. rewrite elem_of_unlink. intros [Hne Hi].
      apply (inv_other_in mem Hinv a i Ha) in Hi as [? ?].
      split; [done|]. case_decide as Hd2; [|done].
      by destruct Hd2 as [-> _].
    + rewrite elem_of_unlink. intros [Hne Hi].
      apply (inv_other_in mem Hinv b i Hb) in Hi as [? ?].
      split; [done|]. case_decide as Hd2; [|done].
      by destruct Hd2 as [-> _].
  - intros b Hb. rewrite area_at_reclaim_slot.
    case_decide as Hd; simpl.
    + destruct Hd as [<- _].
      rewrite unlink_not_in by by apply Hnotfree.
      rewrite u64_small by lia. lia.
    + rewrite unlink_not_in by by apply Hnotfree.
      by apply Hinv.
  - intros i. rewrite test_bit_reclaim_slot, slot_at_reclaim_slot.
    repeat case_decide; try done.
    + exfalso. lia.
    + apply Hinv.
Qed.

Lemma pool_inv_reclaim_loop a l : forall mem,
  pool_inv mem -> 0 <= a < nareas mem -> NoDup l ->
  (forall x, x ∈ l -> x ∈ free_slots_from_other_cpu (area_at mem a)) ->
  pool_inv (foldl (reclaim_slot a) mem l) /\
  same_shape mem (foldl (reclaim_slot a) mem l).
Proof.
  induction l as [|x l IH]; intros mem Hinv Ha Hnd Hin; simpl.
  - split; [done | apply same_shape_refl].
  - apply NoDup_cons in Hnd as [Hx Hnd].
    pose proof (same_shape_reclaim_slot a mem x) as Hsh.
    destruct (IH (reclaim_slot a mem x)) as [Hinv' Hsh'].
    + apply pool_inv_reclaim_slot; [done..|]. apply Hin. by left.
    + destruct Hsh as (_&_&->&_). done.
    + done.
    + intros y Hy. rewrite area_at_reclaim_slot.
      rewrite decide_True
        by (split; [done | rewrite (inv_areas_len mem Hinv); lia]).
      simpl. apply elem_of_unlink. split; [by intros ->|].
      apply Hin. by right.
    + split; [done | by eapply same_shape_trans].
Qed.

(** ** Every search goes through [swiotlb_do_find_slots] *)

Lemma area_index_range mem cpu :
  0 < nareas mem < 2 ^ 31 ->
  0 <= s32 (Z.land cpu (u32 (nareas mem - 1))) < nareas mem.
Proof.
  intros Hn. rewrite u32_small by lia.
  pose proof (land_upper_bound cpu (nareas mem - 1) ltac:(lia)).
  rewrite s32_small; lia.
Qed.

Lemma pool_inv_nareas_small mem : pool_inv mem -> 0 < nareas mem < 2 ^ 31.
Proof.
  intros Hinv. pose proof (inv_small mem Hinv).
  pose proof (inv_nslabs mem Hinv). pose proof (inv_area_nslabs mem Hinv).
  pose proof (inv_nareas mem Hinv). nia.
Qed.

Lemma find_slots_loop_inv dev o A m fuel : forall mem start i mem' index,
  pool_inv mem -> 0 <= i < nareas mem ->
  find_slots_loop fuel dev mem start i o A m = Ok (mem', index) ->
  exists a, 0 <= a < nareas mem /\
    swiotlb_do_find_slots dev mem a o A m = Ok (mem', index).
Proof.
  induction fuel as [|fuel IH]; intros mem start i mem' index Hinv Hi;
    simpl; [done|].
  pose proof (pool_inv_nareas_small mem Hinv) as Hna.
  destruct (swiotlb_do_find_slots dev mem i o A m) as [[m1 idx1]| |] eqn:Hfind;
    simpl; [|done..].
  destruct (swiotlb_do_find_slots_inv dev mem i o A m m1 idx1 Hinv
              ltac:(lia) Hfind) as (_ & _ & Hcase).
  destruct (Z.leb_spec 0 idx1).
  { intros [= <- <-]. eauto. }
  destruct Hcase as [[-> ->] | (? & _)]; [|lia].
  destruct (Z.eqb_spec (if nareas mem <=? i + 1 then 0 else i + 1) start).
  { intros [= <- <-]. eauto. }
  intros Hrec. eapply IH in Hrec; [done..|].
  destruct (Z.leb_spec (nareas mem) (i + 1)); lia.
Qed.

Lemma swiotlb_find_slots_inv plat dev mem cpu o A m mem' index :
  pool_inv mem ->
  swiotlb_find_slots plat dev mem cpu o A m = Ok (mem', index) ->
  exists mem0 a,
    pool_inv mem0 /\ same_shape mem mem0 /\ 0 <= a < nareas mem0 /\
    swiotlb_do_find_slots dev mem0 a o A m = Ok (mem', index).
Proof.
  intros Hinv. unfold swiotlb_find_slots.
  pose proof (pool_inv_nareas_small mem Hinv) as Hna.
  pose proof (area_index_range mem cpu Hna) as Ha.
  destruct (swiotlb_lockless_mode plat).
  - unfold swiotlb_find_slots_lockless.
    set (a := s32 (Z.land cpu (u32 (nareas mem - 1)))) in *.
    destruct (swiotlb_do_find_slots dev mem a o A m) as [[m1 idx1]| |]
      eqn:Hfind; simpl; [|done..].
    destruct (swiotlb_do_find_slots_inv dev mem a o A m m1 idx1 Hinv
                ltac:(lia) Hfind) as (_ & _ & Hcase).
    destruct (Z.leb_spec 0 idx1).
    { intros [= <- <-]. exists mem, a.
      split; [done|]. split; [apply same_shape_refl|]. split; [lia | done]. }
    destruct Hcase as [[-> ->] | (? & _)]; [|lia].
    intros Hsecond.
    destruct (pool_inv_reclaim_loop a
                (free_slots_from_other_cpu (area_at mem a)) mem Hinv Ha)
      as [Hinv' Hsh]; [by apply Hinv | done |].
    eexists _, a.
    split; [exact Hinv'|]. split; [exact Hsh|]. split; [|exact Hsecond].
    destruct Hsh as (_&_&->&_); lia.
  - intros Hloop. apply find_slots_loop_inv in Hloop as (a & Ha' & Hfind);
      [|done..].
    exists mem, a.
    split; [done|]. split; [apply same_shape_refl|]. split; [lia | done].
Qed.

Lemma pool_inv_find_slots plat dev mem cpu o A m mem' index :
  pool_inv mem ->
  swiotlb_find_slots plat dev mem cpu o A m = Ok (mem', index) ->
  pool_inv mem' /\ same_shape mem mem'.
Proof.
  intros Hinv H.
  apply swiotlb_find_slots_inv in H as (mem0 & a & Hinv0 & Hsh & Ha & H);
    [|done].
  pose proof (pool_inv_nareas_small mem0 Hinv0).
  apply pool_inv_do_find_slots in H as [? ?]; [|done|lia].
  split; [done | by eapply same_shape_trans].
Qed.

(** ** Mapping *)

Lemma save_orig_addrs_frame index o n mem :
  bitmap (save_orig_addrs index o n mem) = bitmap mem /\
  areas (save_orig_addrs index o n mem) = areas mem /\
  same_shape mem (save_orig_addrs index o n mem).
Proof.
  unfold save_orig_addrs. generalize (seqZ 0 n). intros l. revert mem.
  induction l as [|x l IH]; intros mem; simpl.
  - split_and!; try done; apply same_shape_refl.
  - destruct (IH (set_orig_addr (index + x) (slot_addr o x) mem))
      as (-> & -> & Hsh).
    split_and!; try done;
    eapply same_shape_trans; [apply same_shape_set_slots | exact Hsh].
Qed.

Lemma save_orig_addrs_slot index o n mem j :
  slot_at (save_orig_addrs index o n mem) j =
  if decide (index <= j < index + n /\
             0 <= j < Z.of_nat (length (slots mem)))
  then Slot (slot_addr o (j - index)) (alloc_size (slot_at mem j))
  else slot_at mem j.
Proof.
  unfold save_orig_addrs.
  assert (forall l mem,
    slot_at (foldl (fun mem i =>
               set_orig_addr (index + i) (slot_addr o i) mem) mem l) j =
    if decide (j - index ∈ l /\ 0 <= j < Z.of_nat (length (slots mem)))
    then Slot (slot_addr o (j - index)) (alloc_size (slot_at mem j))
    else slot_at mem j) as Hgen.
  { induction l as [|x l IH]; intros mem'; simpl.
    - first [done | rewrite decide_False; [done|]; intros [H _];
                      by apply elem_of_nil in H].
    - rewrite IH. simpl. rewrite length_zinsert.
      rewrite !slot_at_set_orig_addr.
      repeat case_decide; simpl; try done; try (exfalso; set_solver by lia).
      all: match goal with H : _ + _ = _ /\ _ |- _ =>
             destruct H as [<- _] end.
      all: repeat f_equal; lia. }
  rewrite Hgen. apply decide_ext. rewrite elem_of_seqZ. lia.
Qed.

Lemma pool_inv_slots_update mem mem2 :
  pool_inv mem -> same_shape mem mem2 ->
  bitmap mem2 = bitmap mem -> areas mem2 = areas mem ->
  (forall i, test_bit mem i = true ->
     orig_addr (slot_at mem2 i) = orig_addr (slot_at mem i)) ->
  pool_inv mem2.
Proof.
  intros Hinv (Hst & Hns & Hna & Han & Hbl & Hsl & Hal) Hb Ha Hs.
  assert (forall i, test_bit mem2 i = test_bit mem i) as Htb
    by (intros; unfold test_bit; by rewrite Hb).
  assert (forall a, area_at mem2 a = area_at mem a) as Har
    by (intros; unfold area_at; by rewrite Ha).
  constructor; unfold in_area;
    rewrite ?Hns, ?Hna, ?Han, ?Hbl, ?Hsl, ?Hal; try apply Hinv.
  - intros a. rewrite Har. apply Hinv.
  - intros a i. rewrite Har, Htb. apply Hinv.
  - intros a. rewrite Har. apply Hinv.
  - intros a i. rewrite Har, Htb. apply Hinv.
  - intros a. rewrite Har. apply Hinv.
  - intros i. rewrite Htb. intros Hi. rewrite Hs by done. by apply Hinv.
Qed.

Lemma swiotlb_tbl_map_single_cases plat dev mem cpu o ms A m dir attrs
    mem' tlb_addr diags copies :
  pool_inv mem ->
  swiotlb_tbl_map_single plat dev (Some mem) cpu o ms A m dir attrs
    = Ok (Some mem', tlb_addr, diags, copies) ->
  (tlb_addr = DMA_MAPPING_ERROR /\ copies = [] /\
   pool_inv mem' /\ same_shape mem mem') \/
  map_success plat dev mem o ms A m mem' tlb_addr diags copies.
Proof.
  intros Hinv. unfold swiotlb_tbl_map_single. cbv zeta.
  destruct (Z.eqb_spec (nslabs mem) 0).
  { intros [= <- <- _ <-]. left. split_and!; try done; apply same_shape_refl. }
  destruct (Z.ltb_spec A ms).
  { intros [= <- <- _ <-]. left. split_and!; try done; apply same_shape_refl. }
  destruct (swiotlb_find_slots _ _ _ _ _ _ _) as [[m1 index]| |] eqn:Hfind;
    cbn [rbind]; [|done..].
  destruct (Z.eqb_spec index (-1)).
  { intros [= <- <- _ <-]. left.
    apply pool_inv_find_slots in Hfind as [? ?]; done. }
  destruct (Z.leb_spec (2 ^ 32) (nr_slots (u64 (A + swiotlb_align_offset dev o))));
    [done|].
  destruct (swiotlb_bounce _ _ _ _ _ _) as [[d1 c1]| |] eqn:Hb; cbn [rbind];
    [|done..].
  intros [= <- <- <- <-]. right.
  apply swiotlb_find_slots_inv in Hfind
    as (mem0 & a & Hinv0 & Hsh & Ha & Hfind); [|done].
  pose proof (pool_inv_nareas_small mem0 Hinv0).
  apply swiotlb_do_find_slots_inv in Hfind as (_ & Hn0 & Hcase);
    [|done|lia].
  destruct Hcase as [[_ ?] | (Hidx & Hin & Hok & ->)]; [done|].
  assert (nslots_of (u64 (A + swiotlb_align_offset dev o))
          = nr_slots (u64 (A + swiotlb_align_offset dev o))) as Hnn.
  { unfold nslots_of. apply u32_small. split; [|done].
    unfold nr_slots. apply Z.div_pos; [apply u64_range | by consts]. }
  exists mem0, a, index, d1. split_and!; try done; try lia.
  - pose proof (nslots_of_nonneg (u64 (A + swiotlb_align_offset dev o))). lia.
  - destruct (save_orig_addrs_frame index o
      (nr_slots (u64 (A + swiotlb_align_offset dev o)))
      (claimed dev mem0 a o (u64 (A + swiotlb_align_offset dev o)) index))
      as (_ & _ & (-> & _)).
    destruct (same_shape_claimed dev mem0 a o
      (u64 (A + swiotlb_align_offset dev o)) index) as (-> & _).
    destruct Hsh as (-> & _). done.
Qed.

Lemma swiotlb_tbl_map_single_success plat dev mem cpu o ms A m dir attrs
    mem' tlb_addr diags copies :
  pool_inv mem ->
  swiotlb_tbl_map_single plat dev (Some mem) cpu o ms A m dir attrs
    = Ok (Some mem', tlb_addr, diags, copies) ->
  tlb_addr <> DMA_MAPPING_ERROR ->
  map_success plat dev mem o ms A m mem' tlb_addr diags copies.
Proof.
  intros Hinv H Hne.
  apply swiotlb_tbl_map_single_cases in H as [(? & _) | H]; done.
Qed.

Lemma map_success_pool_inv plat dev mem o ms A m mem' tlb_addr diags copies :
  map_success plat dev mem o ms A m mem' tlb_addr diags copies ->
  pool_inv mem' /\ same_shape mem mem'.
Proof.
  intros (mem0 & a & index & d1 & Hinv0 & Hsh & Ha & _ & _ & Hnn & _ & _
          & Hin & Hok & -> & _).
  set (total := u64 (A + swiotlb_align_offset dev o)) in *.
  pose proof (pool_inv_claimed dev mem0 a o total m index Hinv0 Ha Hin Hok)
    as Hinv1.
  destruct (save_orig_addrs_frame index o (nr_slots total)
              (claimed dev mem0 a o total index)) as (Hb & Har & Hsh2).
  split.
  - eapply pool_inv_slots_update; [exact Hinv1 | done..|].
    intros i Hi. rewrite save_orig_addrs_slot.
    case_decide as Hd; [|done]. exfalso.
    rewrite claimed_test_bit, Hnn in Hi.
    rewrite decide_True in Hi; [done | tauto].
  - eapply same_shape_trans; [exact Hsh|].
    eapply same_shape_trans; [apply same_shape_claimed | exact Hsh2].
Qed.

Lemma pool_inv_map_single plat dev mem cpu o ms A m dir attrs
    mem' tlb_addr diags copies :
  pool_inv mem ->
  swiotlb_tbl_map_single plat dev (Some mem) cpu o ms A m dir attrs
    = Ok (Some mem', tlb_addr, diags, copies) ->
  pool_inv mem' /\ same_shape mem mem'.
Proof.
  intros Hinv H.
  apply swiotlb_tbl_map_single_cases in H; [|done].
  destruct H as [(_ & _ & ? & ?) | H]; [done|].
  by eapply map_success_pool_inv.
Qed.

Lemma pool_inv_alloc plat dev mem cpu size mem' page :
  pool_inv mem ->
  swiotlb_alloc plat dev (Some mem) cpu size = Ok (Some mem', page) ->
  pool_inv mem' /\ same_shape mem mem'.
Proof.
  intros Hinv. unfold swiotlb_alloc.
  destruct (swiotlb_find_slots _ _ _ _ _ _ _) as [[m1 index]| |] eqn:Hfind;
    simpl; [|done..].
  apply pool_inv_find_slots in Hfind; [|done].
  destruct (index =? -1); by intros [= <- _].
Qed.

(** ** Release *)

Lemma test_bit_release_slot a mem x j :
  test_bit (release_slot a mem x) j =
  if decide (x = j /\ 0 <= x < Z.of_nat (length (bitmap mem)))
  then true else test_bit mem j.
Proof. unfold release_slot. by autorewrite with pool. Qed.

Lemma slot_at_release_slot a mem x j :
  slot_at (release_slot a mem x) j =
  if decide (x = j /\ 0 <= x < Z.of_nat (length (slots mem)))
  then free_slot else slot_at mem j.
Proof.
  unfold release_slot. autorewrite with pool. simpl.
  rewrite length_zinsert.
  repeat case_decide; try done; exfalso; tauto.
Qed.

Lemma area_at_release_slot a mem x b :
  area_at (release_slot a mem x) b =
  if decide (a = b /\ 0 <= a < Z.of_nat (length (areas mem)))
  then Area (used (area_at mem a)) (x :: free_slots (area_at mem a))
            (free_slots_from_other_cpu (area_at mem a))
  else area_at mem b.
Proof. unfold release_slot. by autorewrite with pool. Qed.

Lemma release_loop_test_bit a l : forall mem j,
  test_bit (foldl (release_slot a) mem l) j =
  if decide (j ∈ l /\ 0 <= j < Z.of_nat (length (bitmap mem)))
  then true else test_bit mem j.
Proof.
  induction l as [|x l IH]; intros mem j; simpl; [done|].
  rewrite IH, test_bit_release_slot.
  destruct (same_shape_release_slot a mem x) as (_&_&_&_&->&_).
  repeat case_decide; try done; exfalso; set_solver by lia.
Qed.

Lemma release_loop_slot_at a l : forall mem j,
  slot_at (foldl (release_slot a) mem l) j =
  if decide (j ∈ l /\ 0 <= j < Z.of_nat (length (slots mem)))
  then free_slot else slot_at mem j.
Proof.
  induction l as [|x l IH]; intros mem j; simpl; [done|].
  rewrite IH, slot_at_release_slot.
  destruct (same_shape_release_slot a mem x) as (_&_&_&_&_&->&_).
  repeat case_decide; try done; exfalso; set_solver by lia.
Qed.

Lemma release_loop_area a l : forall mem b,
  area_at (foldl (release_slot a) mem l) b =
  if decide (a = b /\ 0 <= a < Z.of_nat (length (areas mem)))
  then Area (used (area_at mem a)) (reverse l ++ free_slots (area_at mem a))
            (free_slots_from_other_cpu (area_at mem a))
  else area_at mem b.
Proof.
  induction l as [|x l IH]; intros mem b; simpl.
  - case_decide as Hd; [|done]. destruct Hd as [<- _].
    by destruct (area_at mem a).
  - rewrite IH, !area_at_release_slot.
    destruct (same_shape_release_slot a mem x) as (_&_&_&_&_&_&->).
    repeat case_decide; try done; try (exfalso; tauto); try (exfalso; lia).
    all: cbn [used free_slots free_slots_from_other_cpu].
    all: by rewrite reverse_cons, <- app_assoc.
Qed.

Lemma other_loop_frame a l : forall mem,
  bitmap (foldl (fun mem i => list_add_other i a mem) mem l) = bitmap mem /\
  slots (foldl (fun mem i => list_add_other i a mem) mem l) = slots mem /\
  same_shape mem (foldl (fun mem i => list_add_other i a mem) mem l).
Proof.
  induction l as [|x l IH]; intros mem; simpl.
  - split_and!; try done; apply same_shape_refl.
  - destruct (IH (list_add_other x a mem)) as (-> & -> & Hsh).
    split_and!; try done.
    eapply same_shape_trans; [apply same_shape_set_area | exact Hsh].
Qed.

Lemma other_loop_area a l : forall mem b,
  area_at (foldl (fun mem i => list_add_other i a mem) mem l) b =
  if decide (a = b /\ 0 <= a < Z.of_nat (length (areas mem)))
  then Area (used (area_at mem a)) (free_slots (area_at mem a))
            (reverse l ++ free_slots_from_other_cpu (area_at mem a))
  else area_at mem b.
Proof.
  induction l as [|x l IH]; intros mem b; simpl.
  - case_decide as Hd; [|done]. destruct Hd as [<- _].
    by destruct (area_at mem a).
  - rewrite IH, !area_at_list_add_other.
    destruct (same_shape_set_area mem a
      (Area (used (area_at mem a)) (free_slots (area_at mem a))
            (x :: free_slots_from_other_cpu (area_at mem a))))
      as (_&_&_&_&_&_&Hl).
    unfold list_add_other. rewrite Hl.
    repeat case_decide; try done; try (exfalso; tauto); try (exfalso; lia).
    all: cbn [used free_slots free_slots_from_other_cpu].
    all: by rewrite reverse_cons, <- app_assoc.
Qed.

(** What a legitimate release knows about its run. *)
Lemma release_ok_facts dev mem tlb_addr :
  pool_inv mem -> release_ok dev mem tlb_addr ->
  (nareas mem <=? u32 (release_aindex dev mem tlb_addr)) = false ->
  let index := release_index dev mem tlb_addr in
  let nslots := release_nslots dev mem tlb_addr in
  let a := release_aindex dev mem tlb_addr in
  0 <= a < nareas mem /\
  (forall j, index <= j < index + nslots ->
     in_area mem a j /\ 0 <= j < nslabs mem /\ test_bit mem j = false /\
     j ∉ free_slots_from_other_cpu (area_at mem a) /\
     forall b, 0 <= b < nareas mem -> j ∉ free_slots (area_at mem b)) /\
  nslots + Z.of_nat (length (free_slots (area_at mem a)))
    <= area_nslabs mem.
Proof.
  intros Hinv (Hidx & Hn & Harea & Hpool & Hrun) Hbug. cbv zeta.
  set (index := release_index dev mem tlb_addr) in *.
  set (nslots := release_nslots dev mem tlb_addr) in *.
  pose proof (inv_small mem Hinv) as Hsmall.
  pose proof (inv_nslabs mem Hinv) as Hnsl.
  pose proof (inv_area_nslabs mem Hinv) as Hpos.
  pose proof (inv_nareas mem Hinv) as Hna.
  assert (release_aindex dev mem tlb_addr = index / area_nslabs mem) as Ha.
  { unfold release_aindex. fold index. rewrite u64_small by lia.
    apply s32_small. split; [apply Z.div_pos; lia|].
    apply Z.div_lt_upper_bound; nia. }
  rewrite Ha in *.
  set (a := index / area_nslabs mem) in *.
  assert (in_area mem a index) as Hia by by apply in_area_div.
  assert (0 <= a < nareas mem) as Har.
  { split; [apply Z.div_pos; lia|].
    destruct (Z.leb_spec (nareas mem) (u32 a)) as [|Hlt]; [done|].
    rewrite u32_small in Hlt; [done|].
    split; [apply Z.div_pos; lia | apply Z.div_lt_upper_bound; nia]. }
  assert (forall j, index <= j < index + nslots -> in_area mem a j) as Hja.
  { intros j Hj. unfold in_area in *. lia. }
  split; [done|]. split.
  - intros j Hj. destruct (Hrun j Hj) as [Hb Ho].
    split_and!; try done; try lia; [by apply Hja|].
    intros b Hb' Hin.
    apply (inv_free_iff mem Hinv b j Hb') in Hin as [_ Hin]. congruence.
  - pose proof (NoDup_range_length
      (seqZ index nslots ++ free_slots (area_at mem a))
      (a * area_nslabs mem) (area_nslabs mem)) as HL.
    rewrite length_app, length_seqZ, Z.max_r in HL by lia.
    assert (Z.of_nat (Z.to_nat nslots + length (free_slots (area_at mem a)))
            <= area_nslabs mem); [|lia].
    apply HL.
    + apply NoDup_app. split; [apply NoDup_seqZ|].
      split; [|by apply Hinv].
      intros j Hj%elem_of_seqZ Hin.
      apply (inv_free_iff mem Hinv a j Har) in Hin as [_ Hin].
      destruct (Hrun j Hj). congruence.
    + intros j [Hj%elem_of_seqZ | Hj]%elem_of_app.
      * apply Hja in Hj. unfold in_area in Hj. lia.
      * apply (inv_free_iff mem Hinv a j Har) in Hj as [Hj _].
        unfold in_area in Hj. lia.
Qed.

Lemma swiotlb_release_slots_unfold plat dev mem cpu tlb_addr :
  swiotlb_release_slots plat dev mem cpu tlb_addr =
  let index := release_index dev mem tlb_addr in
  let nslots := release_nslots dev mem tlb_addr in
  let aindex := release_aindex dev mem tlb_addr in
  let ncpu := s32 (Z.land cpu (u32 (nareas mem - 1))) in
  if nareas mem <=? u32 aindex then Bug
  else if swiotlb_lockless_mode plat && negb (aindex =? ncpu)
  then Ok (foldl (fun mem i => list_add_other i aindex mem) mem
                 (reverse (seqZ index nslots)))
  else Ok (add_used aindex (- nslots)
             (foldl (release_slot aindex) mem (reverse (seqZ index nslots)))).
Proof.
  unfold swiotlb_release_slots, release_aindex, release_nslots,
    release_index.
  reflexivity.
Qed.

Lemma pool_inv_release_cross dev mem tlb_addr :
  pool_inv mem -> release_ok dev mem tlb_addr ->
  (nareas mem <=? u32 (release_aindex dev mem tlb_addr)) = false ->
  pool_inv
    (foldl (fun m0 i =>
              list_add_other i (release_aindex dev mem tlb_addr) m0) mem
       (reverse (seqZ (release_index dev mem tlb_addr)
                      (release_nslots dev mem tlb_addr)))).
Proof.
  intros Hinv Hok Hbug.
  destruct (release_ok_facts dev mem tlb_addr Hinv Hok Hbug)
    as (Ha & Hrun & _).
  set (index := release_index dev mem tlb_addr) in *.
  set (nslots := release_nslots dev mem tlb_addr) in *.
  set (a := release_aindex dev mem tlb_addr) in *.
  set (l := reverse (seqZ index nslots)).
  destruct (other_loop_frame a l mem)
    as (Hb & Hs & (Hst & Hns & Hna & Han & Hbl & Hsl & Hal)).
  fold l.
  set (mem' := foldl (fun mem i => list_add_other i a mem) mem l) in *.
  assert (forall i, test_bit mem' i = test_bit mem i) as Htb
    by (intros; unfold test_bit; by rewrite Hb).
  assert (forall i, slot_at mem' i = slot_at mem i) as Hsa
    by (intros; unfold slot_at; by rewrite Hs).
  pose proof (inv_areas_len mem Hinv) as Hlen.
  assert (forall b, 0 <= b < nareas mem ->
    free_slots (area_at mem' b) = free_slots (area_at mem b) /\
    used (area_at mem' b) = used (area_at mem b) /\
    free_slots_from_other_cpu (area_at mem' b) =
      if decide (a = b)
      then seqZ index nslots ++ free_slots_from_other_cpu (area_at mem a)
      else free_slots_from_other_cpu (area_at mem b)) as Hview.
  { intros b Hb'. unfold mem'. rewrite other_loop_area.
    unfold l. rewrite reverse_involutive.
    repeat case_decide; cbn [used free_slots free_slots_from_other_cpu];
      subst; try done; exfalso; lia. }
  constructor; unfold in_area;
    rewrite ?Hns, ?Hna, ?Han, ?Hbl, ?Hsl, ?Hal; try apply Hinv.
  - intros b Hb'. destruct (Hview b Hb') as (-> & _). by apply Hinv.
  - intros b i Hb'. destruct (Hview b Hb') as (-> & _).
    rewrite Htb. by apply Hinv.
  - intros b Hb'. destruct (Hview b Hb') as (_ & _ & ->).
    case_decide; [|by apply Hinv]. subst b.
    apply NoDup_app. split; [apply NoDup_seqZ|]. split; [|by apply Hinv].
    intros j Hj%elem_of_seqZ. by apply Hrun.
  - intros b i Hb'. destruct (Hview b Hb') as (_ & _ & ->).
    rewrite Htb. case_decide; [|by apply Hinv]. subst b.
    intros [Hi%elem_of_seqZ | Hi]%elem_of_app; [|by apply Hinv].
    destruct (Hrun i Hi) as (? & _ & ? & _). done.
  - intros b Hb'. destruct (Hview b Hb') as (-> & -> & _). by apply Hinv.
  - intros i. rewrite Htb, Hsa. apply Hinv.
Qed.

Lemma pool_inv_release_own dev mem tlb_addr :
  pool_inv mem -> release_ok dev mem tlb_addr ->
  (nareas mem <=? u32 (release_aindex dev mem tlb_addr)) = false ->
  pool_inv
    (add_used (release_aindex dev mem tlb_addr)
       (- release_nslots dev mem tlb_addr)
       (foldl (release_slot (release_aindex dev mem tlb_addr)) mem
          (reverse (seqZ (release_index dev mem tlb_addr)
                         (release_nslots dev mem tlb_addr))))).
Proof.
  intros Hinv Hok Hbug.
  destruct (release_ok_facts dev mem tlb_addr Hinv Hok Hbug)
    as (Ha & Hrun & Hroom).
  destruct Hok as (Hidx & Hn & _).
  set (index := release_index dev mem tlb_addr) in *.
  set (nslots := release_nslots dev mem tlb_addr) in *.
  set (a := release_aindex dev mem tlb_addr) in *.
  set (l := reverse (seqZ index nslots)).
  pose proof (same_shape_foldl (release_slot a) l
                (same_shape_release_slot a) mem) as Hsh1.
  set (mem1 := foldl (release_slot a) mem l) in *.
  pose proof (same_shape_trans _ _ _ Hsh1
                (same_shape_set_area mem1 a _ : same_shape mem1
                   (add_used a (- nslots) mem1)))
    as (Hst & Hns & Hna & Han & Hbl & Hsl & Hal).
  set (mem' := add_used a (- nslots) mem1) in *.
  pose proof (inv_areas_len mem Hinv) as Hlen.
  pose proof (inv_bitmap_len mem Hinv) as Hblen.
  pose proof (inv_slots_len mem Hinv) as Hslen.
  pose proof (inv_used mem Hinv a Ha) as [Hu0 Hu1].
  pose proof (inv_small mem Hinv) as Hsmall.
  pose proof (inv_nslabs mem Hinv) as Hnsl.
  pose proof (inv_area_nslabs mem Hinv) as Hpos.
  assert (area_nslabs mem <= nslabs mem) by nia.
  assert (forall i, test_bit mem' i =
            if decide (index <= i < index + nslots) then true
            else test_bit mem i) as Htb.
  { intros i. unfold mem', mem1. rewrite test_bit_add_used.
    rewrite release_loop_test_bit. unfold l.
    repeat case_decide; try done; exfalso.
    - destruct H0 as [H0%elem_of_reverse%elem_of_seqZ _]. lia.
    - apply H0. rewrite elem_of_reverse, elem_of_seqZ.
      split; [done|]. destruct (Hrun i H1) as (_ & ? & _). lia. }
  assert (forall i, orig_addr (slot_at mem' i) =
            if decide (index <= i < index + nslots) then INVALID_PHYS_ADDR
            else orig_addr (slot_at mem i)) as Hsa.
  { intros i. unfold mem', mem1. rewrite slot_at_add_used.
    rewrite release_loop_slot_at. unfold l.
    repeat case_decide; try done; exfalso.
    - destruct H0 as [H0%elem_of_reverse%elem_of_seqZ _]. lia.
    - apply H0. rewrite elem_of_reverse, elem_of_seqZ.
      split; [done|]. destruct (Hrun i H1) as (_ & ? & _). lia. }
  assert (forall b, 0 <= b < nareas mem ->
    free_slots_from_other_cpu (area_at mem' b) =
      free_slots_from_other_cpu (area_at mem b) /\
    free_slots (area_at mem' b) =
      (if decide (a = b) then seqZ index nslots ++ free_slots (area_at mem a)
       else free_slots (area_at mem b)) /\
    used (area_at mem' b) =
      if decide (a = b) then used (area_at mem a) - nslots
      else used (area_at mem b)) as Hview.
  { intros b Hb'. unfold mem'. rewrite area_at_add_used.
    destruct Hsh1 as (_&_&_&_&_&_&->).
    unfold mem1. rewrite !release_loop_area.
    unfold l. rewrite reverse_involutive.
    repeat case_decide; cbn [used free_slots free_slots_from_other_cpu];
      subst; try done; try (exfalso; lia).
    split_and!; try done. rewrite u64_small; lia. }
  constructor; unfold in_area;
    rewrite ?Hns, ?Hna, ?Han, ?Hbl, ?Hsl, ?Hal; try apply Hinv.
  - intros b Hb'. destruct (Hview b Hb') as (_ & -> & _).
    case_decide; [|by apply Hinv]. subst b.
    apply NoDup_app. split; [apply NoDup_seqZ|]. split; [|by apply Hinv].
    intros j Hj%elem_of_seqZ. destruct (Hrun j Hj) as (_ & _ & _ & _ & Hf).
    by apply Hf.
  - intros b i Hb'. destruct (Hview b Hb') as (_ & -> & _).
    rewrite Htb. fold (in_area mem b i).
    case_decide as Hab.
    + subst b. rewrite elem_of_app, elem_of_seqZ.
      rewrite (inv_free_iff mem Hinv a i Ha).
      case_decide as Hi.
      * destruct (Hrun i Hi) as (? & _). tauto.
      * tauto.
    + rewrite (inv_free_iff mem Hinv b i Hb').
      case_decide as Hi; [|done].
      destruct (Hrun i Hi) as (Hia & _ & Hbit & _).
      split; [intros [_ ?]; congruence|].
      intros [Hib _]. exfalso. apply Hab. by eapply in_area_inj.
  - intros b Hb'. destruct (Hview b Hb') as (-> & _). by apply Hinv.
  - intros b i Hb'. destruct (Hview b Hb') as (-> & _).
    rewrite Htb. fold (in_area mem b i). intros Hi.
    destruct (inv_other_in mem Hinv b i Hb' Hi) as [Hib Hbit].
    split; [done|]. case_decide as Hr; [|done]. exfalso.
    destruct (Hrun i Hr) as (Hia & _ & _ & Hno & _).
    assert (a = b) by by eapply in_area_inj. by subst b.
  - intros b Hb'. destruct (Hview b Hb') as (_ & -> & ->).
    case_decide.
    + subst b. rewrite length_app, length_seqZ. lia.
    + by apply Hinv.
  - intros i. rewrite Htb, Hsa. case_decide; [done|]. apply Hinv.
Qed.

Lemma pool_inv_release_slots plat dev mem cpu tlb_addr mem' :
  pool_inv mem -> release_ok dev mem tlb_addr ->
  swiotlb_release_slots plat dev mem cpu tlb_addr = Ok mem' ->
  pool_inv mem'.
Proof.
  intros Hinv Hok. rewrite swiotlb_release_slots_unfold. cbv zeta.
  destruct (nareas mem <=? u32 (release_aindex dev mem tlb_addr)) eqn:Hbug;
    [done|].
  pose proof (pool_inv_release_cross dev mem tlb_addr Hinv Hok Hbug) as Hc.
  pose proof (pool_inv_release_own dev mem tlb_addr Hinv Hok Hbug) as Ho.
  match goal with |- (if ?c then _ else _) = _ -> _ => destruct c end;
    intros Heq%Ok_inj; subst mem'; [exact Hc | exact Ho].
Qed.

(** ** Initialisation *)

Lemma same_shape_init_slot mem i : same_shape mem (init_slot mem i).
Proof.
  unfold init_slot.
  eapply same_shape_trans; [apply same_shape_set_bitmap|].
  eapply same_shape_trans; [apply same_shape_set_slots|].
  eapply same_shape_trans; [apply same_shape_set_slots|].
  apply same_shape_set_area.
Qed.

Lemma test_bit_init_slot mem i j :
  test_bit (init_slot mem i) j =
  if decide (i = j /\ 0 <= i < Z.of_nat (length (bitmap mem)))
  then true else test_bit mem j.
Proof. unfold init_slot. by autorewrite with pool. Qed.

Lemma slot_at_init_slot mem i j :
  slot_at (init_slot mem i) j =
  if decide (i = j /\ 0 <= i < Z.of_nat (length (slots mem)))
  then free_slot else slot_at mem j.
Proof.
  unfold init_slot. autorewrite with pool. cbn [slots set_slots __set_bit
    set_bitmap set_orig_addr]. rewrite length_zinsert.
  repeat case_decide; try done; exfalso; tauto.
Qed.

Lemma area_at_init_slot mem i b :
  area_at (init_slot mem i) b =
  if decide (s32 (i / area_nslabs mem) = b /\
             0 <= s32 (i / area_nslabs mem) < Z.of_nat (length (areas mem)))
  then Area (used (area_at mem (s32 (i / area_nslabs mem))))
            (free_slots (area_at mem (s32 (i / area_nslabs mem))) ++ [i])
            (free_slots_from_other_cpu
               (area_at mem (s32 (i / area_nslabs mem))))
  else area_at mem b.
Proof. unfold init_slot. by autorewrite with pool. Qed.

Lemma init_inv_step k mem :
  0 < nareas mem -> 0 < area_nslabs mem ->
  nslabs mem = nareas mem * area_nslabs mem -> nslabs mem < 2 ^ 31 ->
  Z.of_nat (length (bitmap mem)) = nslabs mem ->
  Z.of_nat (length (slots mem)) = nslabs mem ->
  Z.of_nat (length (areas mem)) = nareas mem ->
  0 <= k < nslabs mem ->
  init_inv k mem -> init_inv (k + 1) (init_slot mem k).
Proof.
  intros Hna Han Hns Hsmall Hbl Hsl Hal Hk (Hbits & Hslots & Hareas).
  destruct (same_shape_init_slot mem k) as (_ & _ & Hna' & Han' & _).
  assert (s32 (k / area_nslabs mem) = k / area_nslabs mem) as Hs32.
  { apply s32_small. split; [apply Z.div_pos; lia|].
    apply Z.div_lt_upper_bound; nia. }
  assert (0 <= k / area_nslabs mem < nareas mem) as Ha.
  { split; [apply Z.div_pos; lia|]. apply Z.div_lt_upper_bound; nia. }
  assert (in_area mem (k / area_nslabs mem) k) as Hka
    by by apply in_area_div.
  split_and!.
  - intros j. rewrite test_bit_init_slot, Hbits.
    case_decide as Hd.
    + destruct Hd as [<- _]. symmetry. apply bool_decide_eq_true. lia.
    + apply bool_decide_ext. split; [lia|]. intros Hj.
      destruct (decide (k = j)); [|lia]. exfalso. apply Hd. lia.
  - intros j Hj. rewrite slot_at_init_slot.
    case_decide; [done|]. apply Hslots.
    destruct (decide (k = j)); [|lia]. exfalso. subst. lia.
  - intros a. rewrite Hna'. intros Ha'.
    destruct (Hareas a Ha') as (Hnd & Hiff & Hoth & Hus).
    rewrite area_at_init_slot, Hs32. unfold in_area. rewrite Han'.
    fold (in_area mem a).
    case_decide as Hd; cbn [used free_slots free_slots_from_other_cpu].
    + destruct Hd as [<- _]. split_and!; try done.
      * apply NoDup_app. split; [done|]. split; [|apply NoDup_singleton].
        intros x Hx%Hiff ->%list_elem_of_singleton. lia.
      * intros i. rewrite elem_of_app, list_elem_of_singleton, Hiff.
        split; [intros [[? ?]| ->]; [split; [done | lia] | split; [done|lia]]|].
        intros [? ?]. destruct (decide (i = k)); [by right | left].
        split; [done | lia].
    + split_and!; try done. intros i. rewrite Hiff.
      split; [intros [? ?]; split; [done | lia]|].
      intros [Hia ?]. split; [done|].
      destruct (decide (i = k)); [|lia]. subst i. exfalso. apply Hd.
      split; [by eapply in_area_inj | lia].
Qed.

Lemma init_loop n : forall mem,
  0 < nareas mem -> 0 < area_nslabs mem ->
  nslabs mem = nareas mem * area_nslabs mem -> nslabs mem < 2 ^ 31 ->
  Z.of_nat (length (bitmap mem)) = nslabs mem ->
  Z.of_nat (length (slots mem)) = nslabs mem ->
  Z.of_nat (length (areas mem)) = nareas mem ->
  Z.of_nat n <= nslabs mem ->
  init_inv 0 mem ->
  init_inv (Z.of_nat n) (foldl init_slot mem (seqZ 0 (Z.of_nat n))) /\
  same_shape mem (foldl init_slot mem (seqZ 0 (Z.of_nat n))).
Proof.
  induction n as [|n IH]; intros mem Hna Han Hns Hsmall Hbl Hsl Hal Hn H0.
  - simpl. split; [done | apply same_shape_refl].
  - rewrite seqZ_S, foldl_app. cbn [foldl]. rewrite Z.add_0_l.
    destruct (IH mem) as [Hinv Hsh]; try done; [lia|].
    set (m1 := foldl init_slot mem (seqZ 0 (Z.of_nat n))) in *.
    pose proof Hsh as (Hst' & Hns' & Hna' & Han' & Hbl' & Hsl' & Hal').
    split.
    + replace (Z.of_nat (S n)) with (Z.of_nat n + 1) by lia.
      apply init_inv_step; rewrite ?Hns', ?Hna', ?Han', ?Hbl', ?Hsl', ?Hal';
        try done; lia.
    + eapply same_shape_trans; [exact Hsh | apply same_shape_init_slot].
Qed.

Lemma zlookup_replicate {A} (x : A) n i :
  0 <= i < Z.of_nat n -> zlookup (replicate n x) i = Some x.
Proof.
  intros. unfold zlookup. rewrite decide_True by lia.
  apply lookup_replicate_2. lia.
Qed.

Lemma pool_inv_init st ns na :
  geometry_ok ns na ->
  pool_inv (swiotlb_init_io_tlb_mem st ns na).
Proof.
  intros (Hna & Hns & Hsmall & [k Hk]).
  unfold swiotlb_init_io_tlb_mem. cbv zeta.
  set (mem0 := Mem st ns na (ns / na) _ _ _).
  assert (ns / na = k * IO_TLB_SEGSIZE) as Han.
  { rewrite Hk. replace (k * (IO_TLB_SEGSIZE * na))
      with (k * IO_TLB_SEGSIZE * na) by lia.
    apply Z.div_mul. lia. }
  assert (0 < k) by (unfold IO_TLB_SEGSIZE in *; nia).
  destruct (init_loop (Z.to_nat ns) mem0) as [Hinv Hsh];
    cbn [nareas area_nslabs nslabs bitmap slots areas mem0];
    rewrite ?length_replicate, ?Han; unfold IO_TLB_SEGSIZE in *;
    try lia; try nia.
  { split_and!.
    - intros j. unfold test_bit. cbn [bitmap mem0].
      rewrite bool_decide_eq_false_2 by lia.
      destruct (decide (0 <= j < Z.of_nat (Z.to_nat ns))).
      + by rewrite zlookup_replicate.
      + destruct (zlookup _ j) eqn:E; [|done].
        apply zlookup_Some_range in E. rewrite length_replicate in E. lia.
    - intros; lia.
    - intros a Ha. unfold area_at. cbn [areas nareas mem0] in *.
      rewrite zlookup_replicate by lia. cbn.
      split_and!; try done; [apply NoDup_nil_2|].
      intros i. split; [by intros ?%elem_of_nil | lia]. }
  rewrite Z2Nat.id in Hinv, Hsh by lia.
  set (mem := foldl init_slot mem0 (seqZ 0 ns)) in *.
  destruct Hsh as (Hst' & Hns' & Hna' & Han' & Hbl' & Hsl' & Hal').
  cbn [start nslabs nareas area_nslabs bitmap slots areas mem0] in *.
  rewrite length_replicate in *.
  destruct Hinv as (Hbits & Hslots & Hareas).
  assert (forall j, test_bit mem j = true -> 0 <= j < ns) as Hbr.
  { intros j. rewrite Hbits. by intros ?%bool_decide_eq_true. }
  constructor; rewrite ?Hns', ?Hna', ?Han', ?Hbl', ?Hsl', ?Hal', ?Han;
    rewrite ?length_replicate;
    unfold IO_TLB_SEGSIZE; try lia; try nia.
  - by exists k.
  - intros a Ha. rewrite Hna' in Hareas. by apply Hareas.
  - intros a i Ha. rewrite Hna' in Hareas.
    destruct (Hareas a Ha) as (_ & -> & _).
    rewrite Hbits, bool_decide_eq_true. unfold in_area. rewrite Han', Han.
    unfold IO_TLB_SEGSIZE. split; [tauto|]. intros [? ?]. split; [done|].
    nia.
  - intros a Ha. rewrite Hna' in Hareas.
    destruct (Hareas a Ha) as (_ & _ & -> & _). apply NoDup_nil_2.
  - intros a i Ha. rewrite Hna' in Hareas.
    destruct (Hareas a Ha) as (_ & _ & -> & _). by intros ?%elem_of_nil.
  - intros a Ha. rewrite Hna' in Hareas.
    destruct (Hareas a Ha) as (Hnd & Hiff & _ & ->).
    split; [done|].
    assert (free_slots (area_at mem a) ≡ₚ seqZ (a * (k * 128)) (k * 128))
      as Hperm.
    { apply NoDup_Permutation; [done | apply NoDup_seqZ|].
      intros i. rewrite Hiff, elem_of_seqZ. unfold in_area.
      rewrite Han', Han. unfold IO_TLB_SEGSIZE. split; [lia|].
      intros ?. split; [lia | nia]. }
    apply Permutation_length in Hperm. rewrite length_seqZ in Hperm. lia.
  - intros i Hi. apply Hslots. by apply Hbr.
Qed.

(** ** Unmapping goes through the release, whatever was synced *)

Lemma swiotlb_tbl_unmap_single_release plat dev mem cpu tlb_addr ms dir attrs
    mem' diags copies :
  swiotlb_tbl_unmap_single plat dev mem cpu tlb_addr ms dir attrs
    = Ok (mem', diags, copies) ->
  swiotlb_release_slots plat dev mem cpu tlb_addr = Ok mem'.
Proof.
  unfold swiotlb_tbl_unmap_single. cbv zeta.
  match goal with |- rbind ?b _ = _ -> _ =>
    destruct b as [[d c]| |]; cbn [rbind]; [|done..] end.
  destruct (swiotlb_release_slots plat dev mem cpu tlb_addr) as [m1| |];
    cbn [rbind]; [|done..].
  intros H%Ok_inj. congruence.
Qed.

Lemma swiotlb_free_release plat dev mem cpu page size mem' b :
  swiotlb_free plat dev (Some mem) cpu page size = Ok (Some mem', b) ->
  (b = false /\ mem' = mem) \/
  (b = true /\
   swiotlb_release_slots plat dev mem cpu (Z.shiftl page PAGE_SHIFT)
     = Ok mem').
Proof.
  unfold swiotlb_free. cbv zeta.
  destruct (is_swiotlb_buffer _ _).
  - destruct (swiotlb_release_slots _ _ _ _ _) as [m1| |]; cbn [rbind];
      [|done..].
    intros H%Ok_inj. right. split; congruence.
  - intros H%Ok_inj. left. split; congruence.
Qed.

(** ** Every reachable state is well formed *)

Lemma reachable_pool_inv plat mem : reachable plat mem -> pool_inv mem.
Proof.
  induction 1 as
    [st ns na Hgeo
    |mem dev cpu o ms A m dir attrs mem' tlb diags copies _ IH Hmap
    |mem dev cpu size mem' page _ IH Halloc
    |mem dev cpu tlb ms dir attrs mem' diags copies _ IH Hok Hunmap
    |mem dev cpu page size mem' b _ IH Hok Hfree].
  - by apply pool_inv_init.
  - by apply pool_inv_map_single in Hmap as [? _].
  - by apply pool_inv_alloc in Halloc as [? _].
  - apply swiotlb_tbl_unmap_single_release in Hunmap.
    by eapply pool_inv_release_slots.
  - apply swiotlb_free_release in Hfree as [[_ ->] | [_ Hrel]]; [done|].
    by eapply pool_inv_release_slots.
Qed.

(** ** Checking a release by computation *)

Lemma release_okb_correct dev mem tlb_addr :
  release_okb dev mem tlb_addr = true -> release_ok dev mem tlb_addr.
Proof.
  unfold release_okb, release_ok. cbv zeta.
  rewrite !andb_true_iff, forallb_forall.
  intros ((((H1%Z.leb_le & H2%Z.leb_le) & H3%Z.leb_le) & H4%Z.leb_le) & H5).
  split_and!; try done.
  intros i Hi.
  specialize (H5 i). rewrite <- list_elem_of_In, elem_of_seqZ in H5.
  specialize (H5 Hi). apply andb_true_iff in H5 as [Hb Ho].
  apply negb_true_iff in Hb, Ho. split; [done|].
  intros Hin. apply list_elem_of_In in Hin.
  assert (existsb (Z.eqb i)
            (free_slots_from_other_cpu
               (area_at mem (release_aindex dev mem tlb_addr))) = true);
    [|congruence].
  apply existsb_exists. exists i. split; [done | apply Z.eqb_refl].
Qed.

Lemma geometry_ok_128_1 : geometry_ok 128 1.
Proof. unfold geometry_ok, IO_TLB_SEGSIZE. split_and!; try lia. by exists 1. Qed.

Lemma geometry_ok_256_2 : geometry_ok 256 2.
Proof. unfold geometry_ok, IO_TLB_SEGSIZE. split_and!; try lia. by exists 1. Qed.

(** * The claims *)

(** ** C1: conservation *)

(** C1, as stated, fails: in lockless mode a unit released by a processor
    that does not own the area is queued on [free_slots_from_other_cpu]
    while it is still counted in [used], so the three-term sum exceeds the
    area size until the owner reclaims.  Here processor 0 maps one unit of
    a 2 x 128 pool and processor 1 unmaps it: 1 + 127 + 1 = 129. *)
Lemma C1_counterexample :
  ~ (forall plat mem a,
       reachable plat mem -> 0 <= a < nareas mem ->
       used (area_at mem a)
       + Z.of_nat (length (free_slots (area_at mem a)))
       + Z.of_nat (length (free_slots_from_other_cpu (area_at mem a)))
       = area_nslabs mem).
Proof.
  intros H.
  eassert (reachable lockless_plat _) as Hr1.
  { eapply (reach_map lockless_plat pool_2x128 plain_dev 0 4096 100 100 0
              DMA_TO_DEVICE 0);
      [apply reach_init, geometry_ok_256_2 | vm_compute; reflexivity]. }
  eassert (reachable lockless_plat _) as Hr2.
  { eapply (reach_unmap lockless_plat _ plain_dev 1 (2 ^ 20) 100
              DMA_TO_DEVICE 0); [exact Hr1 | |vm_compute; reflexivity].
    apply release_okb_correct. vm_compute. reflexivity. }
  specialize (H _ _ 0 Hr2). vm_compute in H.
  assert (129 = 128) as Habs; [|discriminate Habs].
  apply H. split; [discriminate | reflexivity].
Qed.

(** C1, amended: on a pool initialised with a whole number of segments in
    every area (the number of units a multiple of [IO_TLB_SEGSIZE] times
    the number of areas), at every point of every sequence of mappings,
    allocations and legitimate releases (cross-processor releases and
    reclamation included), every area's used count plus the length of its
    free list equals the area's unit count; the units waiting on
    [free_slots_from_other_cpu] are still counted as used. *)
Theorem C1_conservation plat mem a :
  reachable plat mem -> 0 <= a < nareas mem ->
  used (area_at mem a) + Z.of_nat (length (free_slots (area_at mem a)))
    = area_nslabs mem /\
  Z.of_nat (length (free_slots_from_other_cpu (area_at mem a)))
    <= used (area_at mem a).
Proof.
  intros Hinv%reachable_pool_inv Ha.
  destruct (inv_used mem Hinv a Ha) as [Hu0 Hu].
  split; [done|].
  pose proof (inv_area_nslabs mem Hinv) as Hpos.
  pose proof (NoDup_range_length
    (free_slots_from_other_cpu (area_at mem a) ++ free_slots (area_at mem a))
    (a * area_nslabs mem) (area_nslabs mem)) as HL.
  rewrite length_app, Z.max_r in HL by lia.
  assert (Z.of_nat (length (free_slots_from_other_cpu (area_at mem a))
                    + length (free_slots (area_at mem a)))
          <= area_nslabs mem); [|lia].
  apply HL.
  - apply NoDup_app. split; [by apply Hinv|]. split; [|by apply Hinv].
    intros x Hx Hx'.
    apply (inv_other_in mem Hinv a x Ha) in Hx as [_ Hx].
    apply (inv_free_iff mem Hinv a x Ha) in Hx' as [_ Hx']. congruence.
  - intros j [Hj|Hj]%elem_of_app.
    + apply (inv_other_in mem Hinv a j Ha) in Hj as [Hj _].
      unfold in_area in Hj. lia.
    + apply (inv_free_iff mem Hinv a j Ha) in Hj as [Hj _].
      unfold in_area in Hj. lia.
Qed.

(** The count depends on the areas holding whole segments.  On a pool of
    512 units in 8 areas, which the fallback of [swiotlb_init_remap] can
    leave, a run may start in one area and end in the next: with units
    0..61 taken, a two-unit run that must start on an odd unit is placed
    at 63..64; both units are charged to area 0, and unit 64 leaves the
    free list of area 1. *)
Lemma small_areas_break_conservation :
  exists mem1 page mem2,
    swiotlb_alloc locked_plat plain_dev
      (Some (swiotlb_init_io_tlb_mem (2 ^ 20) 512 8)) 0 (62 * 2 ^ 11)
      = Ok (Some mem1, page) /\
    swiotlb_find_slots locked_plat nvme_dev mem1 0 (2 ^ 11) 3000 0
      = Ok (mem2, 63) /\
    area_nslabs mem2 = 64 /\
    used (area_at mem2 0)
      + Z.of_nat (length (free_slots (area_at mem2 0))) = 65 /\
    used (area_at mem2 1)
      + Z.of_nat (length (free_slots (area_at mem2 1))) = 63.
Proof.
  eexists _, _, _.
  split; [vm_compute; reflexivity|].
  split; [vm_compute; reflexivity|].
  vm_compute. done.
Qed.

Lemma C1_conservation_witness :
  exists mem,
    reachable lockless_plat mem /\ 0 <= 0 < nareas mem /\
    used (area_at mem 0) = 1 /\
    free_slots_from_other_cpu (area_at mem 0) = [0] /\
    (used (area_at mem 0)
     + Z.of_nat (length (free_slots (area_at mem 0))) = area_nslabs mem /\
     Z.of_nat (length (free_slots_from_other_cpu (area_at mem 0)))
       <= used (area_at mem 0)).
Proof.
  eassert (reachable lockless_plat _) as Hr1.
  { eapply (reach_map lockless_plat pool_2x128 plain_dev 0 4096 100 100 0
              DMA_TO_DEVICE 0);
      [apply reach_init, geometry_ok_256_2 | vm_compute; reflexivity]. }
  eassert (reachable lockless_plat _) as Hr2.
  { eapply (reach_unmap lockless_plat _ plain_dev 1 (2 ^ 20) 100
              DMA_TO_DEVICE 0); [exact Hr1 | |vm_compute; reflexivity].
    apply release_okb_correct. vm_compute. reflexivity. }
  match type of Hr2 with reachable _ ?m =>
    assert (0 <= 0 < nareas m) as Ha
      by (vm_compute; split; [discriminate | reflexivity]);
    exists m; split; [exact Hr2|]; split; [exact Ha|];
    split; [vm_compute; reflexivity|];
    split; [vm_compute; reflexivity|];
    exact (C1_conservation lockless_plat m 0 Hr2 Ha)
  end.
Defined.

(** ** C2: bitmap and metadata *)

(** C2, as stated, fails: [swiotlb_alloc] claims units without ever
    writing their [orig_addr], so a unit it hands out is marked used while
    it still carries the free sentinel. *)
Lemma C2_counterexample :
  ~ (forall plat mem i,
       reachable plat mem -> 0 <= i < nslabs mem ->
       (test_bit mem i = true <->
        orig_addr (slot_at mem i) = INVALID_PHYS_ADDR)).
Proof.
  intros H.
  eassert (reachable locked_plat _) as Hr.
  { eapply (reach_alloc locked_plat pool_1x128 plain_dev 0 100);
      [apply reach_init, geometry_ok_128_1 | vm_compute; reflexivity]. }
  specialize (H _ _ 0 Hr). vm_compute in H.
  assert (false = true) as Habs; [|discriminate Habs].
  apply H; [split; [discriminate | reflexivity] | reflexivity].
Qed.

(** C2, amended: at every point, a unit whose bit is set (free) carries the
    free sentinel in [orig_addr]; and when [swiotlb_tbl_map_single]
    succeeds, every unit of the run it returns has its bit clear and holds
    the original address advanced by the unit's offset in the run.  (Units
    handed out by [swiotlb_alloc] keep the sentinel while they are used.) *)
Theorem C2_bitmap_metadata plat dev mem cpu o ms A m dir attrs
    mem' tlb_addr diags copies :
  reachable plat mem ->
  swiotlb_tbl_map_single plat dev (Some mem) cpu o ms A m dir attrs
    = Ok (Some mem', tlb_addr, diags, copies) ->
  (forall i, test_bit mem i = true ->
             orig_addr (slot_at mem i) = INVALID_PHYS_ADDR) /\
  (forall i, test_bit mem' i = true ->
             orig_addr (slot_at mem' i) = INVALID_PHYS_ADDR) /\
  (tlb_addr <> DMA_MAPPING_ERROR ->
   exists index,
     tlb_addr = u64 (slot_addr (start mem) index
                     + swiotlb_align_offset dev o) /\
     forall k, 0 <= k < nr_slots (u64 (A + swiotlb_align_offset dev o)) ->
       test_bit mem' (index + k) = false /\
       orig_addr (slot_at mem' (index + k)) = slot_addr o k).
Proof.
  intros Hinv%reachable_pool_inv Hmap.
  split; [apply Hinv|].
  split; [by apply pool_inv_map_single in Hmap as [Hinv' _]; [apply Hinv'|]|].
  intros Hne.
  apply swiotlb_tbl_map_single_success in Hmap; [|done..].
  destruct Hmap as (mem0 & a & index & d1 & Hinv0 & Hsh & Ha & _ & _ & Hnn
                    & _ & Hidx & Hin & Hok & -> & -> & _).
  exists index. split; [done|]. intros k Hk.
  set (total := u64 (A + swiotlb_align_offset dev o)) in *.
  destruct (candidate_run dev mem0 a o total m index Hinv0 Ha Hin Hok)
    as (_ & _ & Hend & _).
  destruct (save_orig_addrs_frame index o (nr_slots total)
              (claimed dev mem0 a o total index)) as (Hb & _ & _).
  split.
  - unfold test_bit. rewrite Hb. fold (test_bit (claimed dev mem0 a o total index) (index + k)).
    rewrite claimed_test_bit, Hnn. rewrite decide_True; [done | lia].
  - rewrite save_orig_addrs_slot.
    destruct (same_shape_claimed dev mem0 a o total index)
      as (_&_&_&_&_&->&_).
    pose proof (inv_slots_len mem0 Hinv0).
    rewrite decide_True by lia. cbn [orig_addr].
    f_equal. lia.
Qed.

Lemma C2_bitmap_metadata_witness :
  exists mem' tlb_addr,
    reachable locked_plat pool_1x128 /\
    swiotlb_tbl_map_single locked_plat plain_dev (Some pool_1x128) 0
      4096 100 100 0 DMA_TO_DEVICE 0
      = Ok (Some mem', tlb_addr,
            [], [Copy DMA_TO_DEVICE 0 4096 100]) /\
    tlb_addr <> DMA_MAPPING_ERROR /\
    (forall i, test_bit mem' i = true ->
               orig_addr (slot_at mem' i) = INVALID_PHYS_ADDR).
Proof.
  assert (reachable locked_plat pool_1x128) as Hr
    by apply reach_init, geometry_ok_128_1.
  eexists _, _.
  eassert (swiotlb_tbl_map_single locked_plat plain_dev (Some pool_1x128) 0
      4096 100 100 0 DMA_TO_DEVICE 0 = Ok (Some _, _, _, _)) as Hmap
    by (vm_compute; reflexivity).
  split; [exact Hr|]. split; [exact Hmap|].
  split; [vm_compute; discriminate|].
  exact (proj1 (proj2 (C2_bitmap_metadata _ _ _ _ _ _ _ _ _ _ _ _ _ _
                         Hr Hmap))).
Defined.

(** ** C5: segment containment *)

Lemma s32_mod_seg x : s32 x mod IO_TLB_SEGSIZE = x mod IO_TLB_SEGSIZE.
Proof.
  unfold s32, IO_TLB_SEGSIZE. cbv zeta.
  pose proof (Z.div_mod x (2 ^ 32) ltac:(lia)) as Hx.
  destruct (Z.ltb_spec (x mod 2 ^ 32) (2 ^ 31)).
  - replace x with (x mod 2 ^ 32 + (x / 2 ^ 32 * 2 ^ 25) * 128) at 2 by lia.
    by rewrite Z.mod_add by lia.
  - replace x with ((x mod 2 ^ 32 - 2 ^ 32)
                    + (x / 2 ^ 32 * 2 ^ 25 + 2 ^ 25) * 128) at 2 by lia.
    by rewrite Z.mod_add by lia.
Qed.

(** C5: every successful search returns a start whose offset inside its
    segment plus the number of units taken does not exceed the segment
    size. *)
Theorem C5_segment_non_crossing dev mem area_index orig_addr alloc_size
    alloc_align_mask mem' index :
  swiotlb_do_find_slots dev mem area_index orig_addr alloc_size
    alloc_align_mask = Ok (mem', index) ->
  0 <= index ->
  index mod IO_TLB_SEGSIZE + nslots_of alloc_size <= IO_TLB_SEGSIZE.
Proof.
  intros H Hidx.
  apply swiotlb_do_find_slots_Ok in H as (_ & _ & [[_ ->] | H]); [lia|].
  destruct H as (s & _ & (_ & _ & _ & Hseg & _) & _ & -> & _).
  rewrite s32_mod_seg, <- io_tlb_offset_mod. exact Hseg.
Qed.

Lemma C5_segment_non_crossing_witness :
  exists mem',
    swiotlb_do_find_slots plain_dev pool_1x128 0 0 (3 * 2 ^ 11) 0
      = Ok (mem', 0) /\
    0 <= 0 /\
    0 mod IO_TLB_SEGSIZE + nslots_of (3 * 2 ^ 11) <= IO_TLB_SEGSIZE.
Proof.
  eexists.
  eassert (swiotlb_do_find_slots plain_dev pool_1x128 0 0 (3 * 2 ^ 11) 0
           = Ok (_, 0)) as H by (vm_compute; reflexivity).
  split; [exact H|]. split; [lia|].
  exact (C5_segment_non_crossing _ _ _ _ _ _ _ _ H ltac:(lia)).
Defined.

(** ** C10: rejection before the search *)

(** C10: with no pool, with an empty pool, or with a mapping size above the
    allocation size, the call returns [DMA_MAPPING_ERROR] with the pool it
    was given, copies nothing, and emits only the diagnostic of the check
    that failed (never the one that follows a failed search). *)
Theorem C10_pre_search_rejection plat dev omem cpu o ms A m dir attrs :
  omem = None \/ (exists mem, omem = Some mem /\ nslabs mem = 0) \/ A < ms ->
  exists diags,
    swiotlb_tbl_map_single plat dev omem cpu o ms A m dir attrs
      = Ok (omem, DMA_MAPPING_ERROR, diags, []) /\
    WarnBufferFull ∉ diags.
Proof.
  intros H. unfold swiotlb_tbl_map_single. cbv zeta.
  destruct omem as [mem|].
  - destruct (Z.eqb_spec (nslabs mem) 0) as [Hz|Hz].
    + eexists. split; [reflexivity|]. set_solver.
    + destruct (Z.ltb_spec A ms) as [Hlt|Hge].
      * eexists. split; [reflexivity|].
        destruct (cc_mem_encrypt plat); set_solver.
      * exfalso. destruct H as [H | [(mem1 & [= <-] & H) | H]]; [done|lia..].
  - eexists. split; [reflexivity|]. set_solver.
Qed.

Lemma C10_pre_search_rejection_witness :
  (Some pool_1x128 = None \/
   (exists mem, Some pool_1x128 = Some mem /\ nslabs mem = 0) \/ 10 < 20) /\
  exists diags,
    swiotlb_tbl_map_single locked_plat plain_dev (Some pool_1x128) 0 4096
      20 10 0 DMA_TO_DEVICE 0
      = Ok (Some pool_1x128, DMA_MAPPING_ERROR, diags, []) /\
    WarnBufferFull ∉ diags.
Proof.
  assert (Some pool_1x128 = None \/
   (exists mem, Some pool_1x128 = Some mem /\ nslabs mem = 0) \/ 10 < 20)
    as H by (right; right; lia).
  split; [exact H|].
  exact (C10_pre_search_rejection locked_plat plain_dev (Some pool_1x128) 0
           4096 20 10 0 DMA_TO_DEVICE 0 H).
Defined.

(** ** The bounce copy *)

Lemma bounce_highmem_spec fuel : forall dir pfn voff offset size,
  0 <= offset < PAGE_SIZE -> (size <> 0 -> (Z.to_nat size < fuel)%nat) ->
  exists copies,
    bounce_highmem fuel dir pfn voff offset size = Ok copies /\
    copied_bytes copies = size /\
    Forall (fun c => copy_dir c = dir) copies.
Proof.
  induction fuel as [|fuel IH]; intros dir pfn voff offset size Hoff Hfuel;
    cbn [bounce_highmem];
    (destruct (Z.eqb_spec size 0) as [->|Hnz]; [exists []; by split_and!|]);
    [specialize (Hfuel Hnz); lia|].
  specialize (Hfuel Hnz).
  set (sz := Z.min (PAGE_SIZE - offset) size).
  destruct (IH dir (pfn + 1) (voff + sz) 0 (size - sz)) as (rest & -> & Hb & Hd).
  - unfold PAGE_SIZE, PAGE_SHIFT. lia.
  - unfold sz, PAGE_SIZE, PAGE_SHIFT in *. lia.
  - cbn [rbind]. eexists. split; [reflexivity|]. split.
    + cbn [copied_bytes foldr copy_len]. fold (copied_bytes rest). lia.
    + by constructor.
Qed.

Lemma bounce_copy_spec plat dir pfn voff o size :
  exists copies,
    bounce_copy plat dir pfn voff o size = Ok copies /\
    copied_bytes copies = size /\
    Forall (fun c => copy_dir c =
                     match dir with
                     | DMA_TO_DEVICE => DMA_TO_DEVICE
                     | _ => DMA_FROM_DEVICE
                     end) copies /\
    (PageHighMem plat pfn = false ->
     copies = [Copy match dir with
                    | DMA_TO_DEVICE => DMA_TO_DEVICE
                    | _ => DMA_FROM_DEVICE
                    end voff o size]).
Proof.
  unfold bounce_copy. cbv zeta.
  destruct (PageHighMem plat pfn).
  - edestruct bounce_highmem_spec as (copies & -> & Hb & Hd);
      [| |exists copies; split_and!; done].
    + pose proof (land_upper_bound o (PAGE_SIZE - 1)).
      unfold PAGE_SIZE, PAGE_SHIFT in *. lia.
    + lia.
  - eexists. split; [reflexivity|]. split_and!; try done.
    + cbn. lia.
    + by repeat constructor.
Qed.

Lemma swiotlb_bounce_total plat dev mem tlb_addr size dir :
  exists r, swiotlb_bounce plat dev mem tlb_addr size dir = Ok r.
Proof.
  unfold swiotlb_bounce. cbv zeta.
  destruct (_ =? INVALID_PHYS_ADDR); [by eexists|].
  destruct (_ <? swiotlb_align_offset _ _); [by eexists|].
  match goal with |- context [if ?c then Ok ([WarnOverflowOffset], []) else _]
    => destruct c; [by eexists|] end.
  match goal with |- context [bounce_copy ?p ?d ?f ?v ?o ?s] =>
    destruct (bounce_copy_spec p d f v o s) as (copies & -> & _) end.
  cbn [rbind]. by eexists.
Qed.

(** ** C6: overflow on sync *)




(** ** C9: the extent of a release *)

(** C9: which units an unmap frees is decided by the bounce address and
    the metadata alone: the run starts at the slot derived from the
    address and spans [nr_slots (alloc_size + offset)] units, with
    [alloc_size] read from the first slot and [offset] the device
    alignment offset of the address.  The mapping size, the direction and
    the attributes of the unmap change the sync, never the pool that
    results.  On the owner's path the bits of exactly that run are set; on
    the cross-processor path of lockless mode exactly that run is queued
    on [free_slots_from_other_cpu] and the bitmap is left alone. *)
Theorem C9_release_extent plat dev mem cpu tlb_addr ms dir attrs
    mem' diags copies :
  swiotlb_tbl_unmap_single plat dev mem cpu tlb_addr ms dir attrs
    = Ok (mem', diags, copies) ->
  let offset := swiotlb_align_offset dev tlb_addr in
  let index :=
    s32 (Z.shiftr (u64 (tlb_addr - offset - start mem)) IO_TLB_SHIFT) in
  let nslots :=
    s32 (nr_slots (u64 (alloc_size (slot_at mem index) + offset))) in
  let aindex := s32 (u64 index / area_nslabs mem) in
  let ncpu := s32 (Z.land cpu (u32 (nareas mem - 1))) in
  (forall ms' dir' attrs', exists diags' copies',
     swiotlb_tbl_unmap_single plat dev mem cpu tlb_addr ms' dir' attrs'
       = Ok (mem', diags', copies')) /\
  if swiotlb_lockless_mode plat && negb (aindex =? ncpu)
  then
    bitmap mem' = bitmap mem /\ slots mem' = slots mem /\
    forall b,
      area_at mem' b =
      if decide (aindex = b /\ 0 <= aindex < Z.of_nat (length (areas mem)))
      then Area (used (area_at mem aindex)) (free_slots (area_at mem aindex))
                (seqZ index nslots
                 ++ free_slots_from_other_cpu (area_at mem aindex))
      else area_at mem b
  else
    forall j,
      test_bit mem' j =
      if decide (index <= j < index + nslots /\
                 0 <= j < Z.of_nat (length (bitmap mem)))
      then true else test_bit mem j.
Proof.
  intros Hunmap. cbv zeta.
  apply swiotlb_tbl_unmap_single_release in Hunmap as Hrel.
  split.
  { intros ms' dir' attrs'. unfold swiotlb_tbl_unmap_single. cbv zeta.
    rewrite Hrel.
    destruct (_ && _).
    - destruct (swiotlb_bounce_total plat dev mem tlb_addr ms'
                  DMA_FROM_DEVICE) as ([d c] & ->).
      cbn [rbind]. by eexists _, _.
    - cbn [rbind]. by eexists _, _. }
  rewrite swiotlb_release_slots_unfold in Hrel.
  unfold release_aindex, release_nslots, release_index in Hrel.
  cbv zeta in Hrel.
  set (offset := swiotlb_align_offset dev tlb_addr) in *.
  set (index := s32 (Z.shiftr (u64 (tlb_addr - offset - start mem))
                       IO_TLB_SHIFT)) in *.
  set (nslots := s32 (nr_slots (u64 (alloc_size (slot_at mem index)
                                     + offset)))) in *.
  set (aindex := s32 (u64 index / area_nslabs mem)) in *.
  destruct (nareas mem <=? u32 aindex); [done|].
  destruct (swiotlb_lockless_mode plat && _); apply Ok_inj in Hrel;
    subst mem'.
  - destruct (other_loop_frame aindex (reverse (seqZ index nslots)) mem)
      as (Hb & Hs & _).
    split; [exact Hb|]. split; [exact Hs|].
    intros b. rewrite other_loop_area, reverse_involutive. done.
  - intros j. rewrite test_bit_add_used, release_loop_test_bit.
    apply decide_ext. rewrite elem_of_reverse, elem_of_seqZ. done.
Qed.

Lemma C9_release_extent_witness :
  exists mem',
    swiotlb_tbl_unmap_single locked_plat plain_dev mapped_1x128 0 (2 ^ 20)
      100 DMA_TO_DEVICE 0 = Ok (mem', [], []) /\
    forall ms' dir' attrs', exists diags' copies',
      swiotlb_tbl_unmap_single locked_plat plain_dev mapped_1x128 0 (2 ^ 20)
        ms' dir' attrs' = Ok (mem', diags', copies').
Proof.
  eexists.
  eassert (swiotlb_tbl_unmap_single locked_plat plain_dev mapped_1x128 0
             (2 ^ 20) 100 DMA_TO_DEVICE 0 = Ok (_, [], [])) as H
    by (vm_compute; reflexivity).
  split; [exact H|].
  exact (proj1 (C9_release_extent _ _ _ _ _ _ _ _ _ _ _ H)).
Defined.

(** ** C7: the reserved size recorded in each unit *)


Lemma shiftl_shift k : Z.shiftl k IO_TLB_SHIFT = k * IO_TLB_SIZE.
Proof. unfold IO_TLB_SIZE, IO_TLB_SHIFT. by rewrite Z.shiftl_mul_pow2. Qed.

Lemma io_tlb_offset_nonneg val : 0 <= io_tlb_offset val.
Proof.
  unfold io_tlb_offset, IO_TLB_SEGSIZE.
  pose proof (land_upper_bound val (128 - 1)). lia.
Qed.



(** ** What a successful mapping leaves behind *)

Lemma candidate_placement dev mem0 mem o A m index :
  candidate_ok dev mem0 o A m index -> start mem0 = start mem ->
  placement_ok dev mem o A m index.
Proof.
  unfold candidate_ok, placement_ok, tbl_dma_addr_of. cbv zeta.
  intros (? & ? & ? & ? & ? & _) <-. by split_and!.
Qed.

Lemma map_success_view plat dev mem o ms A m mem' tlb_addr diags copies :
  map_success plat dev mem o ms A m mem' tlb_addr diags copies ->
  pool_addr_ok mem -> 0 <= o < 2 ^ 64 -> 0 <= A ->
  A + IO_TLB_SIZE <= 2 ^ 64 ->
  let offset := swiotlb_align_offset dev o in
  let n := nr_slots (A + offset) in
  exists index d1,
    0 <= index /\ index + n <= nslabs mem /\ 0 < n /\
    tlb_addr = start mem + index * IO_TLB_SIZE + offset /\
    pool_inv mem' /\ same_shape mem mem' /\
    index mod IO_TLB_SEGSIZE + n <= IO_TLB_SEGSIZE /\
    (forall k, 0 <= k < n ->
       test_bit mem' (index + k) = false /\
       orig_addr (slot_at mem' (index + k)) = u64 (o + k * IO_TLB_SIZE) /\
       forall b, index + k ∉ free_slots_from_other_cpu (area_at mem' b)) /\
    alloc_size (slot_at mem' index) = A /\
    placement_ok dev mem o (A + offset) m index /\
    swiotlb_bounce plat dev mem' tlb_addr ms DMA_TO_DEVICE = Ok (d1, copies) /\
    diags = (if cc_mem_encrypt plat then [WarnMemEncrypt] else []) ++ d1.
Proof.
  intros Hsucc (Hst0 & Hal & Hend) Ho HA HAw. cbv zeta.
  pose proof (map_success_pool_inv _ _ _ _ _ _ _ _ _ _ _ Hsucc)
    as [Hinv' Hsh'].
  destruct Hsucc as (mem0 & a & index & d1 & Hinv0 & Hsh & Ha & _ & _ & Hnn
                     & Hn & Hidx & Hin & Hok & Hmem' & Htlb & Hb & Hd).
  pose proof (swiotlb_align_offset_range dev o) as Hoff.
  set (offset := swiotlb_align_offset dev o) in *.
  assert (u64 (A + offset) = A + offset) as Htot
    by (apply u64_small; unfold IO_TLB_SIZE, IO_TLB_SHIFT in *; lia).
  rewrite Htot in *.
  set (n := nr_slots (A + offset)) in *.
  destruct (candidate_run dev mem0 a o (A + offset) m index Hinv0 Ha Hin Hok)
    as (_ & _ & Hend0 & _).
  rewrite Hnn in Hend0.
  pose proof Hsh as (Hst1 & Hns1 & _).
  pose proof Hok as (_ & _ & _ & Hseg & _). rewrite Hnn in Hseg.
  rewrite io_tlb_offset_mod in Hseg.
  exists index, d1.
  assert (slot_addr (start mem) index = start mem + index * IO_TLB_SIZE)
    as Hsa.
  { unfold slot_addr. rewrite shiftl_shift. apply u64_small.
    unfold IO_TLB_SIZE, IO_TLB_SHIFT in *. nia. }
  pose proof (inv_slots_len mem0 Hinv0) as Hsl0.
  destruct (save_orig_addrs_frame index o n
              (claimed dev mem0 a o (A + offset) index)) as (Hbm & Har & _).
  destruct (same_shape_claimed dev mem0 a o (A + offset) index)
    as (_&_&_&_&_&Hslc&_).
  split_and!; try done; try lia.
  - rewrite Htlb, Hsa. apply u64_small.
    unfold IO_TLB_SIZE, IO_TLB_SHIFT in *. nia.
  - intros k Hk. rewrite Hmem'. split_and!.
    + unfold test_bit. rewrite Hbm.
      fold (test_bit (claimed dev mem0 a o (A + offset) index) (index + k)).
      rewrite claimed_test_bit, Hnn. rewrite decide_True; [done | lia].
    + rewrite save_orig_addrs_slot, Hslc.
      rewrite decide_True by lia. cbn [orig_addr].
      replace (index + k - index) with k by lia.
      unfold slot_addr. by rewrite shiftl_shift.
    + intros b. unfold area_at. rewrite Har.
      fold (area_at (claimed dev mem0 a o (A + offset) index) b).
      rewrite claimed_area. cbv zeta.
      case_decide; cbn [free_slots_from_other_cpu area_unlink_all];
        unfold unlink_all; rewrite list_elem_of_filter, elem_of_seqZ, Hnn;
        intros [Hnot _]; apply Hnot; lia.
  - rewrite Hmem', save_orig_addrs_slot, Hslc.
    rewrite decide_True by lia. cbn [alloc_size].
    rewrite claimed_alloc_size by lia.
    replace (index - index) with 0 by lia.
    change (Z.shiftl 0 IO_TLB_SHIFT) with 0.
    rewrite (u32_small 0) by lia. rewrite Z.add_0_r.
    rewrite u32_small by (unfold IO_TLB_SIZE, IO_TLB_SHIFT in *; lia).
    rewrite u64_small; unfold IO_TLB_SIZE, IO_TLB_SHIFT in *; lia.
  - by eapply candidate_placement.
Qed.

Lemma unit_index_of_addr st index offset :
  0 <= index < 2 ^ 31 -> 0 <= offset < IO_TLB_SIZE ->
  0 <= st -> st + index * IO_TLB_SIZE + offset < 2 ^ 64 ->
  s32 (Z.shiftr (u64 (st + index * IO_TLB_SIZE + offset - st)) IO_TLB_SHIFT)
  = index.
Proof.
  intros Hi Ho Hst Hw. unfold IO_TLB_SIZE, IO_TLB_SHIFT in *.
  rewrite u64_small by lia. rewrite Z.shiftr_div_pow2 by lia.
  replace (st + index * 2 ^ 11 + offset - st) with (offset + index * 2 ^ 11)
    by lia.
  rewrite Z.div_add by lia. rewrite Z.div_small by lia.
  rewrite s32_small; lia.
Qed.

Lemma unit_offset_of_addr st index offset :
  0 <= offset < IO_TLB_SIZE -> st mod IO_TLB_SIZE = 0 ->
  Z.land (st + index * IO_TLB_SIZE + offset) (IO_TLB_SIZE - 1) = offset.
Proof.
  intros Ho Hst. unfold IO_TLB_SIZE, IO_TLB_SHIFT in *.
  rewrite land_low_mod by lia.
  pose proof (Z.div_mod st (2 ^ 11) ltac:(lia)) as Hdm.
  replace (st + index * 2 ^ 11 + offset)
    with (offset + (st / 2 ^ 11 + index) * 2 ^ 11) by lia.
  rewrite Z.mod_add by lia. apply Z.mod_small. lia.
Qed.

(** ** C8: the bounce at mapping time *)



(** ** C3: the device's segment boundary *)

(** C3: the code misses the boundary it checks for.  For a device with a
    64KiB boundary [get_max_slots] gives 32 units, and the walk calls
    [iommu_is_span_boundary] on every candidate; but the limit handed to
    it has been raised to [IO_TLB_SEGSIZE] by the [max_t] that is meant to
    keep runs inside one segment, so the test is made against 256KiB.
    After 31 units are taken from a pool at bus address 0x100000, a
    3000-byte request is placed at unit 31: its two units span
    0x10F800..0x1107FF, across the 64KiB multiple 0x110000. *)
Theorem C3_boundary_crossed :
  exists mem1 page mem2,
    swiotlb_alloc locked_plat seg64k_dev (Some pool_1x128) 0 (31 * 2 ^ 11)
      = Ok (Some mem1, page) /\
    swiotlb_find_slots locked_plat seg64k_dev mem1 0 0 3000 0
      = Ok (mem2, 31) /\
    get_max_slots (dma_get_seg_boundary seg64k_dev) = 32 /\
    max_slots_of seg64k_dev = IO_TLB_SEGSIZE /\
    iommu_is_span_boundary 31 (nslots_of 3000)
      (nr_slots (tbl_dma_addr_of seg64k_dev mem1))
      (get_max_slots (dma_get_seg_boundary seg64k_dev)) = true /\
    ~ bus_range_ok seg64k_dev mem1 31 (nslots_of 3000).
Proof.
  eexists _, _, _.
  split; [vm_compute; reflexivity|].
  split; [vm_compute; reflexivity|].
  split; [vm_compute; reflexivity|].
  split; [vm_compute; reflexivity|].
  split; [vm_compute; reflexivity|].
  intros H. vm_compute in H. discriminate H.
Qed.

Lemma boundary_arith b index n ms :
  0 < ms -> 1 <= n -> (b mod ms + index) mod ms + n <= ms ->
  (2048 * (b + index)) / (2048 * ms)
  = (2048 * (b + index) + n * 2048 - 1) / (2048 * ms).
Proof.
  intros Hms Hn Hfit. rewrite Z.add_mod_idemp_l in Hfit by lia.
  set (t := b + index) in *.
  rewrite Z.div_mul_cancel_l by lia.
  replace (2048 * t + n * 2048 - 1) with (2047 + (t + n - 1) * 2048) by lia.
  rewrite <- Z.div_div by lia.
  rewrite Z.div_add by lia. rewrite (Z.div_small 2047 2048) by lia.
  rewrite Z.add_0_l.
  pose proof (Z.div_mod t ms ltac:(lia)).
  pose proof (Z.mod_pos_bound t ms ltac:(lia)).
  apply Z.div_unique with (r := t mod ms + n - 1); [left; lia | lia].
Qed.

Lemma pow2_split k : 11 <= k -> 2 ^ k = 2048 * 2 ^ (k - 11).
Proof.
  intros. replace k with (11 + (k - 11)) at 1 by lia.
  rewrite Z.pow_add_r by lia. done.
Qed.

Lemma placement_boundary dev mem o A m index k :
  placement_ok dev mem o A m index ->
  dma_get_seg_boundary dev = Z.ones k -> 18 <= k < 64 ->
  0 <= phys_to_dma_unencrypted dev (start mem) < 2 ^ 64 ->
  phys_to_dma_unencrypted dev (start mem) mod IO_TLB_SIZE = 0 ->
  0 <= index < 2 ^ 31 -> 1 <= nslots_of A ->
  bus_range_ok dev mem index (nslots_of A).
Proof.
  intros (_ & _ & _ & _ & Hspan) Hbm Hk Hbus Hal Hidx Hn.
  unfold bus_range_ok. cbv zeta. rewrite Hbm, Z.ones_equiv.
  replace (Z.pred (2 ^ k) + 1) with (2 ^ k) by lia.
  set (bus := phys_to_dma_unencrypted dev (start mem)) in *.
  unfold IO_TLB_SIZE, IO_TLB_SHIFT in *.
  pose proof (Z.div_mod bus (2 ^ 11) ltac:(lia)) as Hb.
  rewrite Hal, Z.add_0_r in Hb. set (b := bus / 2 ^ 11) in *.
  set (ms := 2 ^ (k - 11)).
  assert (128 <= ms).
  { unfold ms. change 128 with (2 ^ 7). apply Z.pow_le_mono_r; lia. }
  assert (ms <= 2 ^ 52).
  { unfold ms. apply Z.pow_le_mono_r; lia. }
  assert (2 ^ k = 2048 * ms) as Hpk by (apply pow2_split; lia).
  assert (tbl_dma_addr_of dev mem = 2048 * (b mod ms)) as Htbl.
  { unfold tbl_dma_addr_of. fold bus. rewrite Hbm, Z.land_ones by lia.
    rewrite Hb, Hpk. change (2 ^ 11) with 2048.
    rewrite Z.mul_mod_distr_l by lia. done. }
  pose proof (Z.mod_pos_bound b ms ltac:(lia)) as Hbm'.
  assert (nr_slots (tbl_dma_addr_of dev mem) = b mod ms) as Hnr.
  { rewrite Htbl, nr_slots_ceil by (unfold IO_TLB_SIZE, IO_TLB_SHIFT; lia).
    unfold IO_TLB_SIZE, IO_TLB_SHIFT.
    replace (2048 * (b mod ms) + 2 ^ 11 - 1)
      with (2047 + (b mod ms) * 2 ^ 11) by lia.
    rewrite Z.div_add by lia. by rewrite Z.div_small by lia. }
  assert (max_slots_of dev = ms) as Hmax.
  { unfold max_slots_of, get_max_slots. rewrite Hbm, Z.ones_equiv.
    assert (2 ^ k < 2 ^ 64) by (apply Z.pow_lt_mono_r; lia).
    destruct (Z.eqb_spec (Z.pred (2 ^ k)) (2 ^ 64 - 1)); [lia|].
    replace (Z.pred (2 ^ k) + 1) with (2 ^ k) by lia.
    rewrite (u64_small (2 ^ k)) by lia.
    rewrite nr_slots_ceil by (unfold IO_TLB_SIZE, IO_TLB_SHIFT; lia).
    unfold IO_TLB_SIZE, IO_TLB_SHIFT, IO_TLB_SEGSIZE. rewrite Hpk.
    replace (2048 * ms + 2 ^ 11 - 1) with (2047 + ms * 2 ^ 11) by lia.
    rewrite Z.div_add by lia. rewrite Z.div_small by lia. lia. }
  rewrite Hnr, Hmax in Hspan. unfold iommu_is_span_boundary in Hspan.
  cbv zeta in Hspan. apply Z.ltb_ge in Hspan.
  rewrite u64_small in Hspan by lia.
  assert (forall x, Z.land x (ms - 1) = x mod ms) as Hland
    by (intros; unfold ms; apply land_low_mod; lia).
  rewrite Hland in Hspan.
  rewrite Hb, Hpk. change (2 ^ 11) with 2048.
  replace (2048 * b + index * 2048) with (2048 * (b + index)) by lia.
  apply boundary_arith; [lia | done | done].
Qed.

(** ** C4: the device's minimum alignment *)

(** C4, as stated, fails: the search compares the original address with
    the slot's bus address taken relative to the boundary-masked bus base
    of the pool, not with the physical bounce address it returns.  For a
    device whose boundary mask (0xfff) is narrower than its alignment mask
    (0x1fff) and a pool based at 0x101000, an original address 0x2000 is
    bounced to 0x101000: bit 12 differs. *)
Lemma C4_counterexample :
  ~ (forall plat dev mem cpu o ms A m dir attrs mem' tlb_addr diags copies,
       reachable plat mem -> o <> 0 -> dma_get_min_align_mask dev <> 0 ->
       swiotlb_tbl_map_single plat dev (Some mem) cpu o ms A m dir attrs
         = Ok (Some mem', tlb_addr, diags, copies) ->
       tlb_addr <> DMA_MAPPING_ERROR ->
       Z.land tlb_addr (dma_get_min_align_mask dev)
       = Z.land o (dma_get_min_align_mask dev)).
Proof.
  intros H.
  eassert (swiotlb_tbl_map_single locked_plat odd_dev (Some pool_odd) 0
             (2 ^ 13) 100 100 0 DMA_TO_DEVICE 0
           = Ok (Some _, 2 ^ 20 + 2 ^ 12, _, _)) as Hmap
    by (vm_compute; reflexivity).
  pose proof (fun H1 H2 H3 =>
    H locked_plat odd_dev pool_odd 0 (2 ^ 13) 100 100 0 DMA_TO_DEVICE 0
      _ _ _ _ (reach_init _ _ _ _ geometry_ok_128_1) H1 H2 Hmap H3) as H'.
  specialize (H' ltac:(vm_compute; discriminate)
                 ltac:(vm_compute; discriminate)
                 ltac:(vm_compute; discriminate)).
  vm_compute in H'. discriminate H'.
Qed.

Lemma testbit_congr_mod x y w n :
  0 <= n < w -> x mod 2 ^ w = y mod 2 ^ w ->
  Z.testbit x n = Z.testbit y n.
Proof.
  intros Hn Heq.
  rewrite <- (Z.mod_pow2_bits_low x w n), <- (Z.mod_pow2_bits_low y w n)
    by lia.
  by rewrite Heq.
Qed.

Lemma testbit_above_unit H off n :
  H mod 2 ^ 11 = 0 -> 0 <= off < 2 ^ 11 -> 11 <= n ->
  Z.testbit (H + off) n = Z.testbit H n.
Proof.
  intros HH Hoff Hn.
  replace n with ((n - 11) + 11) by lia.
  rewrite <- !Z.div_pow2_bits by lia. f_equal.
  pose proof (Z.div_mod H (2 ^ 11) ltac:(lia)) as Hd.
  rewrite HH, Z.add_0_r in Hd.
  rewrite Hd at 1. rewrite Z.mul_comm, Z.add_comm.
  rewrite Z.div_add by lia. rewrite Z.div_small by lia. lia.
Qed.

Lemma testbit_mask_high mask w n :
  0 <= mask < 2 ^ w -> 0 <= w -> w <= n -> Z.testbit mask n = false.
Proof.
  intros Hm Hw Hn.
  rewrite <- (Z.mod_small mask (2 ^ w)) by lia.
  apply Z.mod_pow2_bits_high. lia.
Qed.

Lemma u64_mod_pow2 x w : 0 <= w <= 64 -> u64 x mod 2 ^ w = x mod 2 ^ w.
Proof.
  intros Hw. unfold u64.
  apply Z.mod_mod_divide.
  exists (2 ^ (64 - w)). rewrite <- Z.pow_add_r by lia. f_equal. lia.
Qed.

(** C4, amended: on a pool whose base is unit-aligned and whose
    boundary-masked bus base agrees with its physical base modulo a power
    of two that covers the device's minimum-alignment mask, the bounce
    address returned by a successful [swiotlb_tbl_map_single] for a
    non-zero original address agrees with that address on every bit of
    the mask. *)
Theorem C4_alignment_honored plat dev mem cpu o ms A m dir attrs
    mem' tlb_addr diags copies w :
  reachable plat mem -> pool_addr_ok mem ->
  0 < o < 2 ^ 64 -> 0 <= A -> A + IO_TLB_SIZE <= 2 ^ 64 ->
  0 <= w <= 64 -> 0 <= dma_get_min_align_mask dev < 2 ^ w ->
  tbl_dma_addr_of dev mem mod 2 ^ w = start mem mod 2 ^ w ->
  swiotlb_tbl_map_single plat dev (Some mem) cpu o ms A m dir attrs
    = Ok (Some mem', tlb_addr, diags, copies) ->
  tlb_addr <> DMA_MAPPING_ERROR ->
  Z.land tlb_addr (dma_get_min_align_mask dev)
  = Z.land o (dma_get_min_align_mask dev).
Proof.
  intros Hinv%reachable_pool_inv Haddr Ho HA HAw Hw Hmask Hagree Hmap Hne.
  apply swiotlb_tbl_map_single_success in Hmap; [|done..].
  destruct (map_success_view _ _ _ _ _ _ _ _ _ _ _ Hmap Haddr
              ltac:(lia) HA HAw)
    as (index & d1 & Hidx & Hend & Hn & -> & _ & _ & _ & _ & _ & Hpl & _).
  destruct Haddr as (Hst0 & Hal & Hwrap).
  destruct Hpl as (Halign & _). specialize (Halign ltac:(lia)).
  pose proof (swiotlb_align_offset_range dev o) as Hoff.
  set (mask := dma_get_min_align_mask dev) in *.
  unfold IO_TLB_SIZE, IO_TLB_SHIFT in *.
  assert ((start mem + index * 2 ^ 11) mod 2 ^ 11 = 0) as Hunit.
  { rewrite Z.mod_add by lia. done. }
  apply Z.bits_inj'. intros n Hn0. rewrite !Z.land_spec.
  destruct (Z.testbit mask n) eqn:Hbit; [|by rewrite !andb_false_r].
  rewrite !andb_true_r.
  assert (n < w) as Hnw.
  { destruct (decide (n < w)); [done|].
    rewrite (testbit_mask_high mask w n) in Hbit by lia. done. }
  destruct (decide (n < 11)) as [Hlow|Hhigh].
  - pose proof (unit_offset_of_addr (start mem) index
                  (swiotlb_align_offset dev o)) as Hlm.
    unfold IO_TLB_SIZE, IO_TLB_SHIFT in Hlm.
    rewrite land_low_mod in Hlm by lia. specialize (Hlm Hoff Hal).
    rewrite (testbit_congr_mod _ (swiotlb_align_offset dev o) 11 n)
      by (try lia; rewrite Hlm; symmetry; apply Z.mod_small; lia).
    unfold swiotlb_align_offset, IO_TLB_SIZE, IO_TLB_SHIFT.
    fold mask. rewrite !Z.land_spec, Hbit, andb_true_r.
    change (2 ^ 11 - 1) with (Z.ones 11).
    rewrite Z.ones_spec_low by lia. by rewrite andb_true_r.
  - rewrite testbit_above_unit by (try done; lia).
    assert (Z.testbit (slot_addr (tbl_dma_addr_of dev mem) index) n
            = Z.testbit o n) as Hslot.
    { apply (f_equal (fun x => Z.testbit x n)) in Halign.
      rewrite !Z.land_spec in Halign.
      assert (Z.testbit (iotlb_align_mask_of dev) n = true) as Hiam.
      { unfold iotlb_align_mask_of, IO_TLB_SIZE, IO_TLB_SHIFT. fold mask.
        rewrite Z.land_spec, Hbit, Z.lnot_spec by lia.
        change (2 ^ 11 - 1) with (Z.ones 11).
        rewrite Z.ones_spec_high by lia. done. }
      rewrite Hiam, !andb_true_r in Halign. done. }
    rewrite <- Hslot. apply (testbit_congr_mod _ _ w); [lia|].
    unfold slot_addr. rewrite u64_mod_pow2 by lia.
    rewrite shiftl_shift. unfold IO_TLB_SIZE, IO_TLB_SHIFT.
    rewrite <- (Z.add_mod_idemp_l (start mem)) by lia.
    rewrite <- (Z.add_mod_idemp_l (tbl_dma_addr_of dev mem)) by lia.
    by rewrite Hagree.
Qed.

Lemma C4_alignment_honored_witness :
  exists mem' tlb_addr diags copies,
    swiotlb_tbl_map_single locked_plat nvme_dev (Some pool_1x128) 0
      (2 ^ 13 + 2047) 2 2 0 DMA_TO_DEVICE 0
      = Ok (Some mem', tlb_addr, diags, copies) /\
    Z.land tlb_addr (dma_get_min_align_mask nvme_dev)
    = Z.land (2 ^ 13 + 2047) (dma_get_min_align_mask nvme_dev).
Proof.
  eexists _, _, _, _.
  eassert (swiotlb_tbl_map_single locked_plat nvme_dev (Some pool_1x128) 0
      (2 ^ 13 + 2047) 2 2 0 DMA_TO_DEVICE 0 = Ok (Some _, _, _, _)) as Hmap
    by (vm_compute; reflexivity).
  split; [exact Hmap|].
  assert (pool_addr_ok pool_1x128) as Haddr
    by (vm_compute; split_and!; [discriminate | reflexivity | reflexivity]).
  refine ((fun H3 H4 H5 H6 H7 H8 H10 =>
             C4_alignment_honored _ _ _ _ _ _ _ _ _ _ _ _ _ _ 12
               (reach_init _ _ _ _ geometry_ok_128_1) Haddr H3 H4 H5 H6 H7 H8
               Hmap H10) _ _ _ _ _ _ _).
  - vm_compute. split; reflexivity.
  - lia.
  - vm_compute. discriminate.
  - lia.
  - vm_compute. split; [discriminate | reflexivity].
  - vm_compute. reflexivity.
  - vm_compute. discriminate.
Defined.

(** * Further properties of the allocator *)

(** ** The walk takes the first candidate that passes *)

Lemma scan_free_slots_cons dev mem o A m x l :
  (scan_free_slots mem (tbl_dma_addr_of dev mem) (iotlb_align_mask_of dev)
     (max_slots_of dev) (nslots_of A) o A m (x :: l) = Some x /\
   candidate_ok dev mem o A m x) \/
  (scan_free_slots mem (tbl_dma_addr_of dev mem) (iotlb_align_mask_of dev)
     (max_slots_of dev) (nslots_of A) o A m (x :: l)
   = scan_free_slots mem (tbl_dma_addr_of dev mem) (iotlb_align_mask_of dev)
       (max_slots_of dev) (nslots_of A) o A m l /\
   ~ candidate_ok dev mem o A m x).
Proof.
  destruct (scan_free_slots _ _ _ _ _ _ _ _ (x :: l)) as [y|] eqn:Hs.
  - pose proof Hs as Hs'. simpl in Hs.
    destruct (negb (o =? 0) && _) eqn:E1.
    { right. split; [done|]. intros (H1 & _).
      apply andb_true_iff in E1 as [Ea Eb].
      apply negb_true_iff in Ea, Eb. apply Z.eqb_neq in Ea, Eb. auto. }
    destruct (negb (m =? 0) && _) eqn:E2.
    { right. split; [done|]. intros (_ & H2 & _).
      apply andb_true_iff in E2 as [Ea Eb].
      apply negb_true_iff in Ea, Eb. apply Z.eqb_neq in Ea, Eb. auto. }
    destruct ((PAGE_SIZE <=? A) && _) eqn:E3.
    { right. split; [done|]. intros (_ & _ & H3 & _).
      apply andb_true_iff in E3 as [Ea Eb].
      apply negb_true_iff in Eb. apply Z.eqb_neq in Eb.
      apply Z.leb_le in Ea. auto. }
    destruct (IO_TLB_SEGSIZE <? _) eqn:E4.
    { right. split; [done|]. intros (_ & _ & _ & H4 & _).
      apply Z.ltb_lt in E4. lia. }
    destruct (iommu_is_span_boundary _ _ _ _) eqn:E5; simpl in Hs.
    { right. split; [done|]. intros (_ & _ & _ & _ & H5 & _). congruence. }
    destruct (find_next_zero_bit _ _ _ =? _) eqn:E6.
    + left. injection Hs as <-. split; [done|].
      by apply (scan_free_slots_Some dev mem o A m (x :: l)).
    + right. split; [done|]. intros (_ & _ & _ & _ & _ & H6).
      apply Z.eqb_neq in E6. auto.
  - right. simpl in Hs.
    destruct (negb (o =? 0) && _) eqn:E1.
    { split; [done|]. intros (H1 & _).
      apply andb_true_iff in E1 as [Ea Eb].
      apply negb_true_iff in Ea, Eb. apply Z.eqb_neq in Ea, Eb. auto. }
    destruct (negb (m =? 0) && _) eqn:E2.
    { split; [done|]. intros (_ & H2 & _).
      apply andb_true_iff in E2 as [Ea Eb].
      apply negb_true_iff in Ea, Eb. apply Z.eqb_neq in Ea, Eb. auto. }
    destruct ((PAGE_SIZE <=? A) && _) eqn:E3.
    { split; [done|]. intros (_ & _ & H3 & _).
      apply andb_true_iff in E3 as [Ea Eb].
      apply negb_true_iff in Eb. apply Z.eqb_neq in Eb.
      apply Z.leb_le in Ea. auto. }
    destruct (IO_TLB_SEGSIZE <? _) eqn:E4.
    { split; [done|]. intros (_ & _ & _ & H4 & _).
      apply Z.ltb_lt in E4. lia. }
    destruct (iommu_is_span_boundary _ _ _ _) eqn:E5; simpl in Hs.
    { split; [done|]. intros (_ & _ & _ & _ & H5 & _). congruence. }
    destruct (find_next_zero_bit _ _ _ =? _) eqn:E6; [done|].
    split; [done|]. intros (_ & _ & _ & _ & _ & H6).
    apply Z.eqb_neq in E6. auto.
Qed.

Lemma scan_free_slots_None dev mem o A m l :
  scan_free_slots mem (tbl_dma_addr_of dev mem) (iotlb_align_mask_of dev)
    (max_slots_of dev) (nslots_of A) o A m l = None ->
  forall x, x ∈ l -> ~ candidate_ok dev mem o A m x.
Proof.
  induction l as [|y l IH]; intros Hs x Hx; [by apply elem_of_nil in Hx|].
  destruct (scan_free_slots_cons dev mem o A m y l) as [[Hy _]|[Hy Hno]];
    [congruence|].
  rewrite Hy in Hs. apply elem_of_cons in Hx as [->|Hx]; auto.
Qed.

Lemma scan_free_slots_first dev mem o A m l idx :
  scan_free_slots mem (tbl_dma_addr_of dev mem) (iotlb_align_mask_of dev)
    (max_slots_of dev) (nslots_of A) o A m l = Some idx ->
  exists l1 l2, l = l1 ++ idx :: l2 /\
    forall x, x ∈ l1 -> ~ candidate_ok dev mem o A m x.
Proof.
  induction l as [|y l IH]; intros Hs; [done|].
  destruct (scan_free_slots_cons dev mem o A m y l) as [[Hy _]|[Hy Hno]].
  - rewrite Hy in Hs. injection Hs as <-. exists [], l. split; [done|].
    intros x Hx. by apply elem_of_nil in Hx.
  - rewrite Hy in Hs. destruct (IH Hs) as (l1 & l2 & -> & Hl1).
    exists (y :: l1), l2. split; [done|].
    intros x [->|Hx]%elem_of_cons; auto.
Qed.

(** X1: one search over one area is first-fit and complete.  On a
    well-formed pool [swiotlb_do_find_slots] either takes the first entry
    of the area's free list that passes every check of the walk, all the
    entries before it failing one, or returns -1 and leaves the pool as it
    was, which happens only when the area has fewer free units than the
    request needs or no entry of its free list passes. *)
Theorem X1_search_first_fit dev mem a o A m mem' index :
  pool_inv mem -> - 2 ^ 31 <= a < 2 ^ 31 ->
  swiotlb_do_find_slots dev mem a o A m = Ok (mem', index) ->
  (index = -1 /\ mem' = mem /\
   (area_nslabs mem - used (area_at mem a) < nslots_of A \/
    forall x, x ∈ free_slots (area_at mem a) ->
              ~ candidate_ok dev mem o A m x)) \/
  (0 <= index /\ mem' = claimed dev mem a o A index /\
   candidate_ok dev mem o A m index /\
   exists l1 l2,
     free_slots (area_at mem a) = l1 ++ index :: l2 /\
     forall x, x ∈ l1 -> ~ candidate_ok dev mem o A m x).
Proof.
  intros Hinv Ha Hfind.
  destruct (swiotlb_do_find_slots_inv _ _ _ _ _ _ _ _ Hinv Ha Hfind)
    as (Har & Hn & _).
  destruct (inv_used _ Hinv a Har) as [Hu0 Hu].
  assert (area_nslabs mem < 2 ^ 31) as Hsmall.
  { pose proof (inv_small _ Hinv). pose proof (inv_nslabs _ Hinv).
    pose proof (inv_nareas _ Hinv). pose proof (inv_area_nslabs _ Hinv).
    nia. }
  revert Hfind. unfold swiotlb_do_find_slots.
  fold (nslots_of A) (tbl_dma_addr_of dev mem)
    (iotlb_align_mask_of dev) (max_slots_of dev).
  destruct (Z.eqb_spec (nslots_of A) 0); [done|].
  destruct (Z.leb_spec (nareas mem) (u32 a)); [done|].
  rewrite u64_small by lia.
  destruct (Z.ltb_spec (area_nslabs mem - used (area_at mem a)) (nslots_of A)).
  { intros [= <- <-]. left. auto. }
  destruct (scan_free_slots _ _ _ _ _ _ _ _ _) as [s|] eqn:Hscan.
  - intros Heq%Ok_inj. injection Heq as <- <-.
    destruct (scan_free_slots_Some _ _ _ _ _ _ _ Hscan) as [Hin Hok].
    pose proof (pool_inv_free_range _ _ _ Hinv Har Hin) as Hr.
    pose proof (inv_small _ Hinv).
    rewrite s32_small by lia. right. split; [lia|]. split; [done|].
    split; [done|]. by apply scan_free_slots_first.
  - intros [= <- <-]. left. split; [done|]. split; [done|]. right.
    by apply scan_free_slots_None.
Qed.

Lemma X1_search_first_fit_witness :
  exists mem',
    swiotlb_do_find_slots plain_dev pool_1x128 0 0 5000 0 = Ok (mem', 0) /\
    exists l1 l2,
      free_slots (area_at pool_1x128 0) = l1 ++ 0 :: l2 /\
      forall x, x ∈ l1 -> ~ candidate_ok plain_dev pool_1x128 0 5000 0 x.
Proof.
  eexists. split; [vm_compute; reflexivity|].
  match goal with
  | |- context [free_slots ?l] => idtac
  end.
  destruct (X1_search_first_fit plain_dev pool_1x128 0 0 5000 0 _ 0
              (pool_inv_init _ _ _ geometry_ok_128_1) ltac:(lia)
              ltac:(vm_compute; reflexivity))
    as [(Hc & _)|(_ & _ & _ & Hl)]; [discriminate Hc | exact Hl].
Defined.

(** ** What a search starts from *)

Lemma reclaim_loop_test_bit a l : forall mem j,
  test_bit (foldl (reclaim_slot a) mem l) j = true ->
  test_bit mem j = true \/ j ∈ l.
Proof.
  induction l as [|x l IH]; intros mem j; simpl; [auto|].
  intros [H|H]%IH; [|right; by right].
  rewrite test_bit_reclaim_slot in H. case_decide as Hd; [|auto].
  destruct Hd as [-> _]. right. by left.
Qed.

(** A search in locked mode works on the pool as it is; in lockless mode
    it works either on the pool as it is or, the first attempt having
    failed, on the pool after reclamation. *)
Lemma swiotlb_find_slots_view plat dev mem cpu o A m mem' index :
  pool_inv mem ->
  swiotlb_find_slots plat dev mem cpu o A m = Ok (mem', index) ->
  exists mem0 a,
    pool_inv mem0 /\ same_shape mem mem0 /\ 0 <= a < nareas mem /\
    swiotlb_do_find_slots dev mem0 a o A m = Ok (mem', index) /\
    ((mem0 = mem /\
      (swiotlb_lockless_mode plat = true ->
       0 <= index /\ a = s32 (Z.land cpu (u32 (nareas mem - 1))))) \/
     (swiotlb_lockless_mode plat = true /\
      a = s32 (Z.land cpu (u32 (nareas mem - 1))) /\
      mem0 = foldl (reclaim_slot a) mem
               (free_slots_from_other_cpu (area_at mem a)))).
Proof.
  intros Hinv. unfold swiotlb_find_slots.
  pose proof (pool_inv_nareas_small mem Hinv) as Hna.
  pose proof (area_index_range mem cpu Hna) as Ha.
  destruct (swiotlb_lockless_mode plat).
  - unfold swiotlb_find_slots_lockless.
    set (a := s32 (Z.land cpu (u32 (nareas mem - 1)))) in *.
    destruct (swiotlb_do_find_slots dev mem a o A m) as [[m1 idx1]| |]
      eqn:Hfind; simpl; [|done..].
    destruct (swiotlb_do_find_slots_inv dev mem a o A m m1 idx1 Hinv
                ltac:(lia) Hfind) as (_ & _ & Hcase).
    destruct (Z.leb_spec 0 idx1).
    { intros [= <- <-]. exists mem, a.
      split; [done|]. split; [apply same_shape_refl|].
      split; [done|]. split; [done|]. left. auto. }
    destruct Hcase as [[-> ->] | (? & _)]; [|lia].
    intros Hsecond.
    destruct (pool_inv_reclaim_loop a
                (free_slots_from_other_cpu (area_at mem a)) mem Hinv Ha)
      as [Hinv' Hsh]; [by apply Hinv | done |].
    eexists _, a.
    split; [exact Hinv'|]. split; [exact Hsh|]. split; [done|].
    split; [exact Hsecond|]. right. auto.
  - intros Hloop. apply find_slots_loop_inv in Hloop as (a & Ha' & Hfind);
      [|done..].
    exists mem, a.
    split; [done|]. split; [apply same_shape_refl|].
    split; [done|]. split; [done|]. left. split; [done|]. done.
Qed.

(** X2: no unit is handed out twice.  Every unit of a run returned by
    [swiotlb_find_slots] on a well-formed pool was free before the call
    (its bit set) or, in lockless mode, was waiting in the searching
    processor's reclamation queue; it is marked used afterwards.  A unit
    that is in use and not queued is therefore never part of a new run. *)
Theorem X2_no_double_allocation plat dev mem cpu o A m mem' index j :
  pool_inv mem ->
  swiotlb_find_slots plat dev mem cpu o A m = Ok (mem', index) ->
  0 <= index -> index <= j < index + nslots_of A ->
  test_bit mem' j = false /\ 0 <= j < nslabs mem /\
  (test_bit mem j = true \/
   (swiotlb_lockless_mode plat = true /\
    j ∈ free_slots_from_other_cpu
          (area_at mem (s32 (Z.land cpu (u32 (nareas mem - 1))))))).
Proof.
  intros Hinv Hfind Hidx Hj.
  destruct (swiotlb_find_slots_view _ _ _ _ _ _ _ _ _ Hinv Hfind)
    as (mem0 & a & Hinv0 & Hsh & Ha & Hdo & Hfrom).
  pose proof (pool_inv_nareas_small mem Hinv) as Hna.
  assert (nareas mem0 = nareas mem) as Hna0 by (by destruct Hsh as (_&_&?&_)).
  assert (nslabs mem0 = nslabs mem) as Hns0 by (by destruct Hsh as (_&?&_)).
  destruct (swiotlb_do_find_slots_inv dev mem0 a o A m mem' index Hinv0
              ltac:(lia) Hdo) as (_ & _ & [[_ ->]|(_ & Hin & Hok & ->)]);
    [lia|].
  destruct (candidate_run dev mem0 a o A m index Hinv0 ltac:(lia) Hin Hok)
    as (Hrun & H0 & Hend & _).
  destruct (Hrun j Hj) as (Hbit & _ & _).
  split; [|split; [lia|]].
  - rewrite claimed_test_bit. by rewrite decide_True.
  - destruct Hfrom as [[-> _]|(Hl & -> & ->)]; [by left|].
    apply reclaim_loop_test_bit in Hbit as [?|?]; auto.
Qed.

Lemma X2_no_double_allocation_witness :
  exists mem',
    swiotlb_find_slots locked_plat plain_dev pool_1x128 0 0 5000 0
      = Ok (mem', 0) /\
    test_bit mem' 2 = false /\ test_bit pool_1x128 2 = true.
Proof.
  eexists. split; [vm_compute; reflexivity|].
  destruct (X2_no_double_allocation locked_plat plain_dev pool_1x128 0 0
              5000 0 _ 0 2 (pool_inv_init _ _ _ geometry_ok_128_1)
              ltac:(vm_compute; reflexivity) ltac:(lia)
              ltac:(vm_compute; split; [discriminate | reflexivity]))
    as (H1 & _ & [H2|[H2 _]]); [auto | discriminate H2].
Defined.

(** ** The area walk terminates *)

Lemma swiotlb_do_find_slots_total dev mem a o A m :
  pool_inv mem -> 0 <= a < nareas mem -> nslots_of A <> 0 ->
  exists mem' index,
    swiotlb_do_find_slots dev mem a o A m = Ok (mem', index).
Proof.
  intros Hinv Ha Hn. pose proof (pool_inv_nareas_small mem Hinv).
  unfold swiotlb_do_find_slots. fold (nslots_of A).
  destruct (Z.eqb_spec (nslots_of A) 0); [done|].
  rewrite u32_small by lia.
  destruct (Z.leb_spec (nareas mem) a); [lia|].
  destruct (_ <? _); [eauto|].
  destruct (scan_free_slots _ _ _ _ _ _ _ _ _); eauto.
Qed.

Lemma swiotlb_do_find_slots_zero dev mem a o A m :
  nslots_of A = 0 -> swiotlb_do_find_slots dev mem a o A m = Bug.
Proof.
  intros Hn. unfold swiotlb_do_find_slots. fold (nslots_of A).
  by rewrite Hn.
Qed.

Lemma find_slots_loop_total dev o A m fuel : forall mem st i,
  pool_inv mem -> 0 <= st < nareas mem -> 0 <= i < nareas mem ->
  nslots_of A <> 0 -> areas_left mem st i <= Z.of_nat fuel ->
  exists mem' index,
    find_slots_loop fuel dev mem st i o A m = Ok (mem', index).
Proof.
  induction fuel as [|fuel IH]; intros mem st i Hinv Hst Hi Hn Hleft.
  { unfold areas_left in Hleft. destruct (Z.ltb_spec i st); lia. }
  simpl.
  destruct (swiotlb_do_find_slots_total dev mem i o A m Hinv Hi Hn)
    as (m1 & idx1 & Hfind).
  rewrite Hfind. cbn [rbind].
  destruct (swiotlb_do_find_slots_inv dev mem i o A m m1 idx1 Hinv
              ltac:(pose proof (pool_inv_nareas_small mem Hinv); lia) Hfind)
    as (_ & _ & Hcase).
  destruct (Z.leb_spec 0 idx1); [eauto|].
  destruct Hcase as [[-> ->] | (? & _)]; [|lia].
  destruct (Z.eqb_spec (if nareas mem <=? i + 1 then 0 else i + 1) st);
    [eauto|].
  apply IH; try done.
  - destruct (Z.leb_spec (nareas mem) (i + 1)); lia.
  - unfold areas_left in *.
    destruct (Z.leb_spec (nareas mem) (i + 1));
      destruct (Z.ltb_spec i st); destruct (Z.ltb_spec 0 st);
      destruct (Z.ltb_spec (i + 1) st); lia.
Qed.

(** X4: the search always comes back.  On a well-formed pool
    [swiotlb_find_slots] returns for every request that needs at least one
    unit: the walk over the areas ends after at most one visit of each
    area.  A request that needs no unit trips the [BUG_ON(!nslots)] of
    [swiotlb_do_find_slots]. *)
Theorem X4_search_terminates plat dev mem cpu o A m :
  pool_inv mem ->
  if decide (nslots_of A = 0)
  then swiotlb_find_slots plat dev mem cpu o A m = Bug
  else exists mem' index,
         swiotlb_find_slots plat dev mem cpu o A m = Ok (mem', index) /\
         -1 <= index < nslabs mem.
Proof.
  intros Hinv.
  pose proof (pool_inv_nareas_small mem Hinv) as Hna.
  pose proof (area_index_range mem cpu Hna) as Ha.
  case_decide as Hn.
  - unfold swiotlb_find_slots, swiotlb_find_slots_lockless.
    destruct (swiotlb_lockless_mode plat).
    + by rewrite swiotlb_do_find_slots_zero.
    + cbn [find_slots_loop]. by rewrite swiotlb_do_find_slots_zero.
  - assert (exists mem' index,
              swiotlb_find_slots plat dev mem cpu o A m = Ok (mem', index))
      as (mem' & index & Hfind).
    { unfold swiotlb_find_slots.
      destruct (swiotlb_lockless_mode plat).
      - unfold swiotlb_find_slots_lockless.
        set (a := s32 (Z.land cpu (u32 (nareas mem - 1)))) in *.
        destruct (swiotlb_do_find_slots_total dev mem a o A m Hinv Ha Hn)
          as (m1 & idx1 & Hfind).
        rewrite Hfind. cbn [rbind].
        destruct (swiotlb_do_find_slots_inv dev mem a o A m m1 idx1 Hinv
                    ltac:(lia) Hfind) as (_ & _ & Hcase).
        destruct (Z.leb_spec 0 idx1); [eauto|].
        destruct Hcase as [[-> ->] | (? & _)]; [|lia].
        destruct (pool_inv_reclaim_loop a
                    (free_slots_from_other_cpu (area_at mem a)) mem Hinv Ha)
          as [Hinv' Hsh]; [by apply Hinv | done |].
        apply swiotlb_do_find_slots_total; [done| |done].
        destruct Hsh as (_&_&->&_). done.
      - apply find_slots_loop_total; try done.
        unfold areas_left. rewrite Z.ltb_irrefl. lia. }
    exists mem', index. split; [done|].
    destruct (swiotlb_find_slots_view _ _ _ _ _ _ _ _ _ Hinv Hfind)
      as (mem0 & a & Hinv0 & Hsh & Ha0 & Hdo & _).
    assert (nareas mem0 = nareas mem) as Hna0
      by (by destruct Hsh as (_&_&?&_)).
    assert (nslabs mem0 = nslabs mem) as Hns0 by (by destruct Hsh as (_&?&_)).
    destruct (swiotlb_do_find_slots_inv dev mem0 a o A m mem' index Hinv0
                ltac:(lia) Hdo) as (_ & _ & [[_ ->]|(? & Hin & _ & _)]).
    + pose proof (inv_nslabs _ Hinv). pose proof (inv_area_nslabs _ Hinv).
      nia.
    + apply pool_inv_free_range in Hin; [lia | done | lia].
Qed.

Lemma X4_search_terminates_witness :
  exists mem' index,
    swiotlb_find_slots locked_plat plain_dev pool_2x128 1 0 5000 0
      = Ok (mem', index) /\ -1 <= index < nslabs pool_2x128.
Proof.
  pose proof (X4_search_terminates locked_plat plain_dev pool_2x128 1 0
                5000 0 (pool_inv_init _ _ _ geometry_ok_256_2)) as H.
  rewrite decide_False in H by (vm_compute; discriminate).
  exact H.
Defined.

(** ** A mapping is a search, the saving of the addresses, and a bounce *)

Lemma swiotlb_tbl_map_single_find plat dev mem cpu o ms A m dir attrs
    mem' tlb_addr diags copies :
  swiotlb_tbl_map_single plat dev (Some mem) cpu o ms A m dir attrs
    = Ok (Some mem', tlb_addr, diags, copies) ->
  let offset := swiotlb_align_offset dev o in
  let total := u64 (A + offset) in
  (mem' = mem /\ tlb_addr = DMA_MAPPING_ERROR /\ copies = [] /\
   (nslabs mem = 0 \/ A < ms)) \/
  exists mem1 index,
    swiotlb_find_slots plat dev mem cpu o total m = Ok (mem1, index) /\
    ms <= A /\
    ((index = -1 /\ mem' = mem1 /\ tlb_addr = DMA_MAPPING_ERROR /\
      copies = []) \/
     (index <> -1 /\ nr_slots total < 2 ^ 32 /\
      mem' = save_orig_addrs index o (nr_slots total) mem1 /\
      tlb_addr = u64 (slot_addr (start mem') index + offset) /\
      exists d1,
        swiotlb_bounce plat dev mem' tlb_addr ms DMA_TO_DEVICE
          = Ok (d1, copies))).
Proof.
  unfold swiotlb_tbl_map_single. cbv zeta.
  destruct (Z.eqb_spec (nslabs mem) 0).
  { intros [= <- <- _ <-]. left. auto. }
  destruct (Z.ltb_spec A ms).
  { intros [= <- <- _ <-]. left. auto. }
  destruct (swiotlb_find_slots _ _ _ _ _ _ _) as [[m1 index]| |] eqn:Hfind;
    cbn [rbind]; [|done..].
  destruct (Z.eqb_spec index (-1)).
  { intros [= <- <- _ <-]. right. exists m1, index. split; [done|].
    split; [done|]. left. auto. }
  destruct (Z.leb_spec (2 ^ 32) (nr_slots (u64 (A + swiotlb_align_offset dev o))));
    [done|].
  destruct (swiotlb_bounce _ _ _ _ _ _) as [[d1 c1]| |] eqn:Hb; cbn [rbind];
    [|done..].
  intros [= <- <- <- <-]. right. exists m1, index. split; [done|].
  split; [done|]. right. split_and!; try done. by exists d1.
Qed.

(** What a successful mapping did, on a pool that does not wrap the
    address space: where the run is and which state it was taken from. *)
Lemma swiotlb_tbl_map_single_view plat dev mem cpu o ms A m dir attrs
    mem' tlb_addr diags copies :
  pool_inv mem -> pool_addr_ok mem -> 0 <= o < 2 ^ 64 -> 0 <= A ->
  A + IO_TLB_SIZE <= 2 ^ 64 ->
  swiotlb_tbl_map_single plat dev (Some mem) cpu o ms A m dir attrs
    = Ok (Some mem', tlb_addr, diags, copies) ->
  let offset := swiotlb_align_offset dev o in
  let n := nr_slots (A + offset) in
  (tlb_addr = DMA_MAPPING_ERROR /\ copies = [] /\
   (swiotlb_lockless_mode plat = false -> mem' = mem)) \/
  (tlb_addr <> DMA_MAPPING_ERROR /\
   exists mem0 a index,
     (mem0 = mem \/
      (swiotlb_lockless_mode plat = true /\
       a = s32 (Z.land cpu (u32 (nareas mem - 1))) /\
       mem0 = foldl (reclaim_slot a) mem
                (free_slots_from_other_cpu (area_at mem a)))) /\
     pool_inv mem0 /\ same_shape mem mem0 /\ 0 <= a < nareas mem /\
     index ∈ free_slots (area_at mem0 a) /\
     candidate_ok dev mem0 o (A + offset) m index /\
     nslots_of (A + offset) = n /\ 0 < n /\ ms <= A /\
     mem' = save_orig_addrs index o n (claimed dev mem0 a o (A + offset) index) /\
     tlb_addr = start mem + index * IO_TLB_SIZE + offset).
Proof.
  intros Hinv (Hst0 & Hal & Hend) Ho HA HAw Hmap. cbv zeta.
  pose proof (swiotlb_align_offset_range dev o) as Hoff.
  apply swiotlb_tbl_map_single_find in Hmap. cbv zeta in Hmap.
  set (offset := swiotlb_align_offset dev o) in *.
  assert (u64 (A + offset) = A + offset) as Htot
    by (apply u64_small; unfold IO_TLB_SIZE, IO_TLB_SHIFT in *; lia).
  rewrite Htot in Hmap.
  destruct Hmap as [(-> & -> & -> & _)|(mem1 & index & Hfind & Hms & Hcase)];
    [left; auto|].
  destruct (swiotlb_find_slots_view _ _ _ _ _ _ _ _ _ Hinv Hfind)
    as (mem0 & a & Hinv0 & Hsh & Ha & Hdo & Hfrom).
  pose proof (pool_inv_nareas_small mem Hinv) as Hna.
  assert (nareas mem0 = nareas mem) as Hna0 by (by destruct Hsh as (_&_&?&_)).
  assert (nslabs mem0 = nslabs mem) as Hns0 by (by destruct Hsh as (_&?&_)).
  destruct (swiotlb_do_find_slots_inv dev mem0 a o (A + offset) m mem1 index
              Hinv0 ltac:(lia) Hdo) as (_ & Hn0 & Hdo').
  destruct Hcase as [(-> & -> & -> & ->)|(Hne & Hn32 & -> & -> & d1 & Hb)].
  { left. split; [done|]. split; [done|]. intros Hl.
    destruct Hdo' as [[-> _]|(? & _)]; [|lia].
    destruct Hfrom as [[-> _]|(Hl' & _)]; [done | congruence]. }
  destruct Hdo' as [[_ ->]|(Hidx & Hin & Hok & ->)]; [done|].
  assert (nslots_of (A + offset) = nr_slots (A + offset)) as Hnn.
  { unfold nslots_of. apply u32_small. split; [|done].
    unfold nr_slots. apply Z.div_pos; [apply u64_range | by consts]. }
  destruct (candidate_run dev mem0 a o (A + offset) m index Hinv0
              ltac:(lia) Hin Hok) as (_ & _ & Hend0 & _).
  rewrite Hnn in Hend0.
  pose proof (nslots_of_nonneg (A + offset)) as Hnneg.
  destruct (save_orig_addrs_frame index o (nr_slots (A + offset))
              (claimed dev mem0 a o (A + offset) index))
    as (_ & _ & (Hst2 & _)).
  destruct (same_shape_claimed dev mem0 a o (A + offset) index)
    as (Hst3 & _).
  pose proof Hsh as (Hst1 & _).
  assert (u64 (slot_addr
                 (start (save_orig_addrs index o (nr_slots (A + offset))
                           (claimed dev mem0 a o (A + offset) index))) index
               + offset)
          = start mem + index * IO_TLB_SIZE + offset) as Htlb.
  { rewrite Hst2, Hst3, Hst1. unfold slot_addr. rewrite shiftl_shift.
    rewrite (u64_small (start mem + _))
      by (unfold IO_TLB_SIZE, IO_TLB_SHIFT in *; nia).
    apply u64_small. unfold IO_TLB_SIZE, IO_TLB_SHIFT in *. nia. }
  right. split.
  { rewrite Htlb. unfold DMA_MAPPING_ERROR, IO_TLB_SIZE, IO_TLB_SHIFT in *.
    nia. }
  exists mem0, a, index. split_and!; try done; try lia.
  destruct Hfrom as [[-> _]|?]; auto.
Qed.

Lemma pool_inv_1x128 : pool_inv pool_1x128.
Proof. apply pool_inv_init, geometry_ok_128_1. Qed.

Lemma pool_addr_ok_1x128 : pool_addr_ok pool_1x128.
Proof. vm_compute. split_and!; [discriminate | reflexivity | reflexivity]. Qed.

(** X3: a mapping that fails changes nothing.  On a well-formed pool in
    locked mode, when [swiotlb_tbl_map_single] returns the mapping-error
    value the pool is exactly as it was before the call and nothing has
    been copied. *)
Theorem X3_failed_map_unchanged plat dev mem cpu o ms A m dir attrs
    mem' diags copies :
  pool_inv mem -> pool_addr_ok mem -> 0 <= o < 2 ^ 64 -> 0 <= A ->
  A + IO_TLB_SIZE <= 2 ^ 64 ->
  swiotlb_lockless_mode plat = false ->
  swiotlb_tbl_map_single plat dev (Some mem) cpu o ms A m dir attrs
    = Ok (Some mem', DMA_MAPPING_ERROR, diags, copies) ->
  mem' = mem /\ copies = [].
Proof.
  intros Hinv Haddr Ho HA HAw Hl Hmap.
  destruct (swiotlb_tbl_map_single_view _ _ _ _ _ _ _ _ _ _ _ _ _ _
              Hinv Haddr Ho HA HAw Hmap) as [(_ & -> & Hm)|(Hne & _)];
    [auto | done].
Qed.

Lemma X3_failed_map_unchanged_witness :
  exists mem' diags copies,
    swiotlb_tbl_map_single locked_plat plain_dev (Some pool_1x128) 0
      4096 (2 ^ 20) (2 ^ 20) 0 DMA_TO_DEVICE 0
      = Ok (Some mem', DMA_MAPPING_ERROR, diags, copies) /\
    mem' = pool_1x128 /\ copies = [].
Proof.
  eassert (swiotlb_tbl_map_single locked_plat plain_dev (Some pool_1x128) 0
             4096 (2 ^ 20) (2 ^ 20) 0 DMA_TO_DEVICE 0
           = Ok (Some _, DMA_MAPPING_ERROR, _, _)) as Hmap
    by (vm_compute; reflexivity).
  assert (0 <= 4096 < 2 ^ 64) as H1 by lia.
  assert (0 <= 2 ^ 20) as H2 by lia.
  assert (2 ^ 20 + IO_TLB_SIZE <= 2 ^ 64) as H3
    by (vm_compute; discriminate).
  eexists _, _, _. split; [exact Hmap|].
  exact (X3_failed_map_unchanged _ _ _ _ _ _ _ _ _ _ _ _ _
           pool_inv_1x128 pool_addr_ok_1x128 H1 H2 H3
           (eq_refl : swiotlb_lockless_mode locked_plat = false) Hmap).
Defined.

(** ** Releasing what a mapping returned *)

Lemma test_bit_save_orig_addrs index o n mem j :
  test_bit (save_orig_addrs index o n mem) j = test_bit mem j.
Proof.
  unfold test_bit. by destruct (save_orig_addrs_frame index o n mem) as (-> & _).
Qed.

Lemma area_at_save_orig_addrs index o n mem b :
  area_at (save_orig_addrs index o n mem) b = area_at mem b.
Proof.
  unfold area_at.
  by destruct (save_orig_addrs_frame index o n mem) as (_ & -> & _).
Qed.

Lemma unlink_all_perm (run L : list Z) :
  NoDup L -> NoDup run -> (forall j, j ∈ run -> j ∈ L) ->
  run ++ unlink_all run L ≡ₚ L.
Proof.
  intros HL Hrun Hsub.
  pose proof (filter_app_complement (fun x => x ∉ run) L) as HP.
  assert (filter (fun x => ~ (x ∉ run)) L ≡ₚ run) as Hperm.
  { apply NoDup_Permutation; [by apply NoDup_filter | done |].
    intros x. rewrite list_elem_of_filter. split.
    - intros [Hx _]. by apply dec_stable.
    - intros Hx. split; [tauto | by apply Hsub]. }
  unfold unlink_all. rewrite <- Hperm at 1.
  by rewrite (Permutation_app_comm _ (filter _ L)).
Qed.

Lemma swiotlb_align_offset_idem dev st index o :
  st mod IO_TLB_SIZE = 0 ->
  swiotlb_align_offset dev
    (st + index * IO_TLB_SIZE + swiotlb_align_offset dev o)
  = swiotlb_align_offset dev o.
Proof.
  intros Hst. pose proof (swiotlb_align_offset_range dev o) as Hoff.
  unfold swiotlb_align_offset at 1.
  rewrite <- Z.land_assoc,
    (Z.land_comm (dma_get_min_align_mask dev)), Z.land_assoc.
  rewrite unit_offset_of_addr by done.
  unfold swiotlb_align_offset. apply Z.bits_inj'. intros k _.
  rewrite !Z.land_spec.
  by destruct (Z.testbit o k), (Z.testbit (dma_get_min_align_mask dev) k),
    (Z.testbit (IO_TLB_SIZE - 1) k).
Qed.

(** The run that [swiotlb_release_slots] derives from the address handed out
    for a run of [n] units at [index] whose first unit records [A]. *)
Lemma release_of_mapped dev mem index o A :
  pool_inv mem -> pool_addr_ok mem ->
  0 <= A -> A + IO_TLB_SIZE <= 2 ^ 64 ->
  0 <= index -> index < nslabs mem ->
  nr_slots (A + swiotlb_align_offset dev o) <= IO_TLB_SEGSIZE ->
  alloc_size (slot_at mem index) = A ->
  let tlb_addr :=
    start mem + index * IO_TLB_SIZE + swiotlb_align_offset dev o in
  release_index dev mem tlb_addr = index /\
  release_nslots dev mem tlb_addr
    = nr_slots (A + swiotlb_align_offset dev o) /\
  release_aindex dev mem tlb_addr = index / area_nslabs mem /\
  0 <= index / area_nslabs mem < nareas mem.
Proof.
  intros Hinv (Hst0 & Hal & Hend) HA HAw Hi0 Hi1 Hn HAs. cbv zeta.
  pose proof (swiotlb_align_offset_range dev o) as Hoff.
  pose proof (inv_small _ Hinv) as Hsmall.
  assert (release_index dev mem
            (start mem + index * IO_TLB_SIZE + swiotlb_align_offset dev o)
          = index) as Hri.
  { unfold release_index. rewrite swiotlb_align_offset_idem by done.
    replace (start mem + index * IO_TLB_SIZE + swiotlb_align_offset dev o
             - swiotlb_align_offset dev o - start mem)
      with (start mem + index * IO_TLB_SIZE + 0 - start mem) by lia.
    apply unit_index_of_addr; unfold IO_TLB_SIZE, IO_TLB_SHIFT in *; nia. }
  assert (0 <= index / area_nslabs mem < nareas mem) as Hai.
  { pose proof (inv_area_nslabs _ Hinv). pose proof (inv_nslabs _ Hinv).
    split; [apply Z.div_pos; lia|].
    apply Z.div_lt_upper_bound; lia. }
  split; [done|]. split; [|split; [|done]].
  - unfold release_nslots. rewrite Hri, HAs.
    rewrite swiotlb_align_offset_idem by done.
    rewrite u64_small by (unfold IO_TLB_SIZE, IO_TLB_SHIFT in *; lia).
    apply s32_small. split; [|unfold IO_TLB_SEGSIZE in *; lia].
    unfold nr_slots. apply Z.div_pos; [apply u64_range | by consts].
  - unfold release_aindex. rewrite Hri. rewrite u64_small by lia.
    apply s32_small. pose proof (pool_inv_nareas_small _ Hinv). lia.
Qed.

(** The pool right after a run has been claimed and its original
    addresses saved. *)
Lemma mapped_release_ok dev mem0 a o A m index k :
  pool_inv mem0 -> pool_addr_ok mem0 -> 0 <= a < nareas mem0 ->
  0 <= A -> A + IO_TLB_SIZE <= 2 ^ 64 ->
  index ∈ free_slots (area_at mem0 a) ->
  candidate_ok dev mem0 o (A + swiotlb_align_offset dev o) m index ->
  nslots_of (A + swiotlb_align_offset dev o)
    = nr_slots (A + swiotlb_align_offset dev o) ->
  0 < nr_slots (A + swiotlb_align_offset dev o) ->
  k <= nr_slots (A + swiotlb_align_offset dev o) ->
  let n := nr_slots (A + swiotlb_align_offset dev o) in
  let mem1 :=
    save_orig_addrs index o k
      (claimed dev mem0 a o (A + swiotlb_align_offset dev o) index) in
  let tlb_addr :=
    start mem0 + index * IO_TLB_SIZE + swiotlb_align_offset dev o in
  pool_inv mem1 /\ same_shape mem0 mem1 /\
  release_index dev mem1 tlb_addr = index /\
  release_nslots dev mem1 tlb_addr = n /\
  release_aindex dev mem1 tlb_addr = a /\
  release_ok dev mem1 tlb_addr.
Proof.
  intros Hinv0 Haddr Ha HA HAw Hin Hok Hnn Hn Hk. cbv zeta.
  pose proof (swiotlb_align_offset_range dev o) as Hoff.
  set (offset := swiotlb_align_offset dev o) in *.
  set (n := nr_slots (A + offset)) in *.
  set (c := claimed dev mem0 a o (A + offset) index).
  set (mem1 := save_orig_addrs index o k c).
  pose proof (pool_inv_claimed dev mem0 a o (A + offset) m index
                Hinv0 Ha Hin Hok) as Hinvc.
  destruct (save_orig_addrs_frame index o k c) as (Hb & Har & Hsh2).
  pose proof (same_shape_claimed dev mem0 a o (A + offset) index) as Hshc.
  fold c in Hshc.
  assert (same_shape mem0 mem1) as Hsh
    by (eapply same_shape_trans; [exact Hshc | exact Hsh2]).
  assert (pool_inv mem1) as Hinv1.
  { eapply pool_inv_slots_update; [exact Hinvc | done..|].
    intros i Hi. unfold mem1. rewrite save_orig_addrs_slot.
    case_decide as Hd; [|done]. exfalso. unfold c in Hi.
    rewrite claimed_test_bit, Hnn in Hi. fold n in Hi.
    rewrite decide_True in Hi; [done | lia]. }
  destruct (candidate_run dev mem0 a o (A + offset) m index Hinv0 Ha Hin Hok)
    as (Hrun & Hidx & Hend0 & Hused).
  rewrite Hnn in Hrun, Hend0, Hused. fold n in Hrun, Hend0, Hused.
  pose proof Hok as (_ & _ & _ & Hseg & _). rewrite Hnn in Hseg.
  fold n in Hseg.
  pose proof (io_tlb_offset_nonneg index) as Hio.
  pose proof Hsh as (Hst & Hns & Hna & Han & _ & _ & _).
  pose proof Hshc as (_ & _ & _ & _ & _ & Hslc & _).
  pose proof (inv_slots_len mem0 Hinv0) as Hsl0.
  assert (alloc_size (slot_at mem1 index) = A) as HAs.
  { assert (alloc_size (slot_at mem1 index) = alloc_size (slot_at c index))
      as ->.
    { unfold mem1. rewrite save_orig_addrs_slot.
      by case_decide. }
    unfold c. rewrite claimed_alloc_size by lia.
    replace (index - index) with 0 by lia.
    change (Z.shiftl 0 IO_TLB_SHIFT) with 0.
    rewrite (u32_small 0) by lia. rewrite Z.add_0_r.
    rewrite u32_small by (unfold IO_TLB_SIZE, IO_TLB_SHIFT in *; lia).
    rewrite u64_small; unfold IO_TLB_SIZE, IO_TLB_SHIFT in *; lia. }
  assert (pool_addr_ok mem1) as Haddr1.
  { destruct Haddr as (? & ? & ?). unfold pool_addr_ok.
    rewrite Hst, Hns. done. }
  destruct (release_of_mapped dev mem1 index o A Hinv1 Haddr1 HA HAw
              ltac:(lia) ltac:(lia) ltac:(fold offset; fold n; lia) HAs)
    as (Hri & Hrn & Hra & Hrange).
  cbv zeta in Hri, Hrn, Hra. rewrite Hst in Hri, Hrn, Hra.
  fold offset in Hri, Hrn, Hra. fold n in Hrn.
  assert (index / area_nslabs mem1 = a) as Haeq.
  { symmetry. rewrite Han.
    apply (in_area_div mem0); [by apply Hinv0|].
    apply (inv_free_iff mem0 Hinv0 a index Ha). done. }
  rewrite Haeq in Hra.
  split; [done|]. split; [done|]. split; [done|]. split; [done|].
  split; [done|].
  unfold release_ok. rewrite Hri, Hrn, Hra. cbv zeta.
  split; [lia|]. split; [lia|]. split; [|split; [lia|]].
  - destruct (Hrun (index + n - 1) ltac:(lia)) as (_ & Hia & _).
    unfold in_area in Hia. rewrite Han. lia.
  - intros i Hi. destruct (Hrun i Hi) as (Hbit & _ & _). split.
    + unfold mem1. rewrite test_bit_save_orig_addrs. unfold c.
      rewrite claimed_test_bit, Hnn. fold n. by rewrite decide_True.
    + unfold mem1. rewrite area_at_save_orig_addrs. unfold c.
      rewrite claimed_area. cbv zeta.
      rewrite decide_True
        by (split; [done | rewrite (inv_areas_len mem0 Hinv0); lia]).
      cbn [free_slots_from_other_cpu]. unfold unlink_all.
      rewrite list_elem_of_filter, elem_of_seqZ, Hnn. fold n.
      intros [Hnot _]. apply Hnot. lia.
Qed.

Lemma swiotlb_tbl_unmap_single_total plat dev mem cpu tlb_addr ms dir attrs
    mem' :
  swiotlb_release_slots plat dev mem cpu tlb_addr = Ok mem' ->
  exists diags copies,
    swiotlb_tbl_unmap_single plat dev mem cpu tlb_addr ms dir attrs
      = Ok (mem', diags, copies).
Proof.
  intros Hrel. unfold swiotlb_tbl_unmap_single. cbv zeta.
  destruct (swiotlb_bounce_total plat dev mem tlb_addr ms DMA_FROM_DEVICE)
    as ([d c] & Hb).
  destruct (_ && _).
  - rewrite Hb. cbn [rbind]. rewrite Hrel. cbn [rbind]. eauto.
  - cbn [rbind]. rewrite Hrel. cbn [rbind]. eauto.
Qed.

(** Releasing, in locked mode, the run that was just claimed puts the
    bookkeeping back. *)
Lemma claimed_release_restores plat dev mem a o A m index k cpu :
  pool_inv mem -> pool_addr_ok mem -> 0 <= a < nareas mem ->
  0 <= A -> A + IO_TLB_SIZE <= 2 ^ 64 ->
  index ∈ free_slots (area_at mem a) ->
  candidate_ok dev mem o (A + swiotlb_align_offset dev o) m index ->
  nslots_of (A + swiotlb_align_offset dev o)
    = nr_slots (A + swiotlb_align_offset dev o) ->
  0 < nr_slots (A + swiotlb_align_offset dev o) ->
  k <= nr_slots (A + swiotlb_align_offset dev o) ->
  swiotlb_lockless_mode plat = false ->
  let mem1 :=
    save_orig_addrs index o k
      (claimed dev mem a o (A + swiotlb_align_offset dev o) index) in
  let tlb_addr :=
    start mem + index * IO_TLB_SIZE + swiotlb_align_offset dev o in
  exists mem2,
    swiotlb_release_slots plat dev mem1 cpu tlb_addr = Ok mem2 /\
    (same_shape mem mem2 /\
     forall j, index <= j
               < index + nr_slots (A + swiotlb_align_offset dev o) ->
       slot_at mem2 j = free_slot) /\
    pool_inv mem2 /\
    (forall j, test_bit mem2 j = test_bit mem j) /\
    (forall j, orig_addr (slot_at mem2 j) = orig_addr (slot_at mem j)) /\
    (forall b, 0 <= b < nareas mem ->
       used (area_at mem2 b) = used (area_at mem b) /\
       free_slots (area_at mem2 b) ≡ₚ free_slots (area_at mem b)).
Proof.
  intros Hinv Haddr Ha HA HAw Hin Hok Hnn Hn Hk Hl.
  destruct (mapped_release_ok dev mem a o A m index k Hinv Haddr
              Ha HA HAw Hin Hok Hnn Hn Hk)
    as (Hinv1 & Hsh & Hri & Hrn & Hra & Hrel).
  cbv zeta in Hinv1, Hsh, Hri, Hrn, Hra, Hrel. cbv zeta.
  set (offset := swiotlb_align_offset dev o) in *.
  set (n := nr_slots (A + offset)) in *.
  set (tlb_addr := start mem + index * IO_TLB_SIZE + offset) in *.
  assert (exists mem1,
            mem1 = save_orig_addrs index o k
                     (claimed dev mem a o (A + offset) index))
    as (mem1 & Hmem1) by eauto.
  rewrite <- Hmem1 in *.
  pose proof Hsh as (Hst & Hns & Hna & Han & Hbl & Hsl & Hal).
  pose proof (pool_inv_nareas_small mem Hinv) as Hnas.
  destruct (candidate_run dev mem a o (A + offset) m index Hinv Ha Hin Hok)
    as (Hrun & Hidx & Hend0 & Hused).
  rewrite Hnn in Hrun, Hend0, Hused. fold n in Hrun, Hend0, Hused.
  set (mem2 := add_used a (- n)
                 (foldl (release_slot a) mem1 (reverse (seqZ index n)))).
  assert (swiotlb_release_slots plat dev mem1 cpu tlb_addr = Ok mem2)
    as Hrelease.
  { rewrite swiotlb_release_slots_unfold. cbv zeta.
    rewrite Hri, Hrn, Hra, Hl, Hna. rewrite u32_small by lia.
    destruct (Z.leb_spec (nareas mem) a); [lia|]. done. }
  exists mem2. split; [done|].
  split.
  { split.
    - eapply same_shape_trans; [exact Hsh|].
      unfold mem2, add_used.
      eapply same_shape_trans; [|apply same_shape_set_area].
      apply same_shape_foldl, same_shape_release_slot.
    - intros j Hj. unfold mem2.
      rewrite slot_at_add_used, release_loop_slot_at.
      rewrite decide_True; [done|].
      rewrite elem_of_reverse, elem_of_seqZ, Hsl.
      pose proof (inv_slots_len mem Hinv). lia. }
  split; [by eapply pool_inv_release_slots|].
  pose proof (inv_bitmap_len mem Hinv) as Hbl0.
  pose proof (inv_slots_len mem Hinv) as Hsl0.
  pose proof (inv_areas_len mem Hinv) as Hal0.
  assert (forall j, test_bit mem1 j =
            if decide (index <= j < index + n) then false
            else test_bit mem j) as Htb1.
  { intros j. rewrite Hmem1, test_bit_save_orig_addrs, claimed_test_bit.
    by rewrite Hnn. }
  assert (forall j, ~ (index <= j < index + n) ->
            orig_addr (slot_at mem1 j) = orig_addr (slot_at mem j)) as Hsl1.
  { intros j Hj. rewrite Hmem1, save_orig_addrs_slot.
    case_decide as Hd2; [|by rewrite claimed_orig_addr]. lia. }
  assert (forall b, area_at mem1 b =
            if decide (a = b)
            then Area (u64 (used (area_at mem a) + n))
                   (unlink_all (seqZ index n) (free_slots (area_at mem a)))
                   (unlink_all (seqZ index n)
                      (free_slots_from_other_cpu (area_at mem a)))
            else area_unlink_all (seqZ index n) (area_at mem b)) as Har1.
  { intros b. rewrite Hmem1, area_at_save_orig_addrs, claimed_area.
    cbv zeta. rewrite Hnn. fold n.
    case_decide as Hd; case_decide as Hd'; try done.
    - by destruct Hd.
    - exfalso. apply Hd. split; [done | lia]. }
  split_and!.
  - intros j. unfold mem2. rewrite test_bit_add_used, release_loop_test_bit.
    rewrite Htb1.
    case_decide as Hd.
    + destruct Hd as [Hd _]. apply elem_of_reverse, elem_of_seqZ in Hd.
      symmetry. by apply Hrun.
    + case_decide as Hd2; [|done]. exfalso. apply Hd.
      rewrite elem_of_reverse, elem_of_seqZ, Hbl. lia.
  - intros j. unfold mem2. rewrite slot_at_add_used, release_loop_slot_at.
    case_decide as Hd.
    + destruct Hd as [Hd _]. apply elem_of_reverse, elem_of_seqZ in Hd.
      symmetry. apply (inv_sentinel mem Hinv). by apply Hrun.
    + destruct (decide (index <= j < index + n)) as [Hj|Hj];
        [|by apply Hsl1].
      exfalso. apply Hd. rewrite elem_of_reverse, elem_of_seqZ, Hsl. lia.
  - intros b Hb. unfold mem2. rewrite area_at_add_used.
    rewrite !release_loop_area, reverse_involutive.
    destruct (same_shape_foldl (release_slot a) (reverse (seqZ index n))
                (same_shape_release_slot a) mem1)
      as (_ & _ & _ & _ & _ & _ & Hal2).
    rewrite Hal2, Hal. rewrite !Har1.
    rewrite (decide_True (P := a = a /\ _)) by lia.
    rewrite (decide_True (P := a = a)) by done.
    destruct (decide (a = b)) as [<-|Hab].
    + rewrite decide_True by lia. cbn [used free_slots]. split.
      * destruct (inv_used mem Hinv a Ha) as [Hu0 Hu].
        pose proof (inv_small mem Hinv). pose proof (inv_nslabs mem Hinv).
        pose proof (inv_area_nslabs mem Hinv).
        assert (area_nslabs mem < 2 ^ 31) by nia.
        rewrite (u64_small (used _ + n)) by lia.
        rewrite u64_small by lia. lia.
      * apply unlink_all_perm; [by apply Hinv | apply NoDup_seqZ |].
        intros j Hj%elem_of_seqZ. by apply Hrun.
    + repeat (rewrite decide_False by tauto).
      cbn [used free_slots area_unlink_all]. split; [done|].
      unfold unlink_all. rewrite filter_all; [done|].
      intros x Hx Hx'%elem_of_seqZ.
      apply (inv_free_iff mem Hinv b x Hb) in Hx as [Hx _].
      destruct (Hrun x Hx') as (_ & Hxa & _).
      apply Hab. eapply in_area_inj; [by apply Hinv | done..].
Qed.

(** X5: the release decodes what the mapping encoded.  On a well-formed
    pool that does not wrap the address space, in either mode, the address
    returned by a successful [swiotlb_tbl_map_single] is a legitimate
    argument of a release: from it [swiotlb_release_slots] derives a run
    that starts at the unit the mapping claimed, has as many units as the
    mapping claimed, lies inside one area of the pool, and whose units are
    all marked used and none queued for reclamation. *)
Theorem X5_release_decodes_mapping plat dev mem cpu o ms A m dir attrs
    mem1 tlb_addr diags copies :
  pool_inv mem -> pool_addr_ok mem -> 0 <= o < 2 ^ 64 -> 0 <= A ->
  A + IO_TLB_SIZE <= 2 ^ 64 ->
  swiotlb_tbl_map_single plat dev (Some mem) cpu o ms A m dir attrs
    = Ok (Some mem1, tlb_addr, diags, copies) ->
  tlb_addr <> DMA_MAPPING_ERROR ->
  tlb_addr = start mem + release_index dev mem1 tlb_addr * IO_TLB_SIZE
             + swiotlb_align_offset dev o /\
  release_nslots dev mem1 tlb_addr
    = nr_slots (A + swiotlb_align_offset dev o) /\
  0 <= release_aindex dev mem1 tlb_addr < nareas mem /\
  release_ok dev mem1 tlb_addr.
Proof.
  intros Hinv Haddr Ho HA HAw Hmap Hne.
  destruct (swiotlb_tbl_map_single_view _ _ _ _ _ _ _ _ _ _ _ _ _ _
              Hinv Haddr Ho HA HAw Hmap)
    as [(? & _)|(_ & mem0 & a & index & _ & Hinv0 & Hsh & Ha & Hin & Hok
                 & Hnn & Hn & _ & -> & ->)]; [done|].
  pose proof Hsh as (Hst & Hns & Hna & _).
  assert (pool_addr_ok mem0) as Haddr0.
  { destruct Haddr as (? & ? & ?). unfold pool_addr_ok.
    rewrite Hst, Hns. done. }
  destruct (mapped_release_ok dev mem0 a o A m index _ Hinv0 Haddr0
              ltac:(lia) HA HAw Hin Hok Hnn Hn (Z.le_refl _))
    as (_ & _ & Hri & Hrn & Hra & Hrel).
  cbv zeta in Hri, Hrn, Hra, Hrel. rewrite Hst in Hri, Hrn, Hra, Hrel.
  rewrite Hri, Hrn, Hra. done.
Qed.

Lemma X5_release_decodes_mapping_witness :
  exists mem1 tlb_addr diags copies,
    swiotlb_tbl_map_single locked_plat nvme_dev (Some pool_1x128) 0
      (2 ^ 13 + 2047) 2 2 0 DMA_TO_DEVICE 0
      = Ok (Some mem1, tlb_addr, diags, copies) /\
    release_nslots nvme_dev mem1 tlb_addr = 2 /\
    release_ok nvme_dev mem1 tlb_addr.
Proof.
  eexists _, _, _, _.
  eassert (swiotlb_tbl_map_single locked_plat nvme_dev (Some pool_1x128) 0
      (2 ^ 13 + 2047) 2 2 0 DMA_TO_DEVICE 0 = Ok (Some _, _, _, _)) as Hmap
    by (vm_compute; reflexivity).
  split; [exact Hmap|].
  destruct (fun H3 H4 H5 H7 =>
              X5_release_decodes_mapping _ _ _ _ _ _ _ _ _ _ _ _ _ _
                (pool_inv_init _ _ _ geometry_ok_128_1) pool_addr_ok_1x128
                H3 H4 H5 Hmap H7)
    as (_ & H2 & _ & H4).
  - vm_compute. split; [discriminate | reflexivity].
  - lia.
  - vm_compute. discriminate.
  - vm_compute. discriminate.
  - split; [exact H2 | exact H4].
Defined.

(** X6: mapping and unmapping is a round trip.  On a well-formed pool in
    locked mode, unmapping the address a successful mapping returned
    (from any processor, with any size, direction and attributes) always
    succeeds and puts the bookkeeping back: every bit of the bitmap, every
    saved original address and every area's used count are as before the
    mapping, and every area's free list holds the same units as before. *)
Theorem X6_map_unmap_round_trip plat dev mem cpu o ms A m dir attrs
    mem1 tlb_addr diags copies cpu' ms' dir' attrs' :
  pool_inv mem -> pool_addr_ok mem -> 0 <= o < 2 ^ 64 -> 0 <= A ->
  A + IO_TLB_SIZE <= 2 ^ 64 ->
  swiotlb_lockless_mode plat = false ->
  swiotlb_tbl_map_single plat dev (Some mem) cpu o ms A m dir attrs
    = Ok (Some mem1, tlb_addr, diags, copies) ->
  tlb_addr <> DMA_MAPPING_ERROR ->
  exists mem2 diags' copies',
    swiotlb_tbl_unmap_single plat dev mem1 cpu' tlb_addr ms' dir' attrs'
      = Ok (mem2, diags', copies') /\
    pool_inv mem2 /\
    (forall j, test_bit mem2 j = test_bit mem j) /\
    (forall j, orig_addr (slot_at mem2 j) = orig_addr (slot_at mem j)) /\
    (forall b, 0 <= b < nareas mem ->
       used (area_at mem2 b) = used (area_at mem b) /\
       free_slots (area_at mem2 b) ≡ₚ free_slots (area_at mem b)).
Proof.
  intros Hinv Haddr Ho HA HAw Hl Hmap Hne.
  destruct (swiotlb_tbl_map_single_view _ _ _ _ _ _ _ _ _ _ _ _ _ _
              Hinv Haddr Ho HA HAw Hmap)
    as [(? & _)|(_ & mem0 & a & index & Hfrom & _ & _ & Ha & Hin & Hok
                 & Hnn & Hn & _ & -> & ->)]; [done|].
  destruct Hfrom as [->|(Hl' & _)]; [|congruence].
  destruct (claimed_release_restores plat dev mem a o A m index _ cpu'
              Hinv Haddr Ha HA HAw Hin Hok Hnn Hn (Z.le_refl _) Hl)
    as (mem2 & Hrelease & _ & Hrest).
  destruct (swiotlb_tbl_unmap_single_total plat dev _ cpu' _ ms'
              dir' attrs' mem2 Hrelease) as (d2 & c2 & Hunmap).
  exists mem2, d2, c2. split; [exact Hunmap | exact Hrest].
Qed.


Lemma X6_map_unmap_round_trip_witness :
  exists mem1 tlb_addr diags copies mem2 diags' copies',
    swiotlb_tbl_map_single locked_plat plain_dev (Some pool_1x128) 0
      4096 100 100 0 DMA_TO_DEVICE 0
      = Ok (Some mem1, tlb_addr, diags, copies) /\
    swiotlb_tbl_unmap_single locked_plat plain_dev mem1 0 tlb_addr 100
      DMA_TO_DEVICE 0 = Ok (mem2, diags', copies') /\
    forall j, test_bit mem2 j = test_bit pool_1x128 j.
Proof.
  eexists _, _, _, _.
  eassert (swiotlb_tbl_map_single locked_plat plain_dev (Some pool_1x128) 0
      4096 100 100 0 DMA_TO_DEVICE 0 = Ok (Some _, _, _, _)) as Hmap
    by (vm_compute; reflexivity).
  destruct (fun H3 H4 H5 H6 H7 =>
              X6_map_unmap_round_trip _ _ _ _ _ _ _ _ _ _ _ _ _ _
                0 100 DMA_TO_DEVICE 0
                (pool_inv_init _ _ _ geometry_ok_128_1) pool_addr_ok_1x128
                H3 H4 H5 H6 Hmap H7)
    as (mem2 & d2 & c2 & Hunmap & _ & Hbits & _).
  - vm_compute. split; [discriminate | reflexivity].
  - lia.
  - vm_compute. discriminate.
  - reflexivity.
  - vm_compute. discriminate.
  - exists mem2, d2, c2. split; [exact Hmap|]. split; [exact Hunmap|].
    exact Hbits.
Defined.

(** ** Using an address after it has been unmapped *)

Lemma add_used_0 a mem :
  0 <= used (area_at mem a) < 2 ^ 64 ->
  0 <= a < Z.of_nat (length (areas mem)) ->
  add_used a 0 mem = mem.
Proof.
  intros Hu Ha. unfold add_used, set_area, set_areas. cbv zeta.
  rewrite Z.add_0_r, u64_small by done.
  unfold area_at, zinsert, zlookup in *.
  rewrite decide_True by lia.
  destruct (decide (0 <= a)); [|lia].
  destruct (areas mem !! Z.to_nat a) as [ar|] eqn:E.
  - destruct ar as [u f q]. simpl.
    rewrite list_insert_id by done. by destruct mem.
  - apply lookup_ge_None in E. lia.
Qed.

(** X19: a stale address is harmless.  On a well-formed pool in locked
    mode, once the address returned by a mapping has been unmapped, a
    sync through that address copies nothing and raises no diagnostic;
    and when the mapping had no alignment offset, unmapping the address a
    second time leaves the pool exactly as it is. *)
Theorem X19_stale_address_harmless plat dev mem cpu o ms A m dir attrs
    mem1 tlb_addr diags copies cpu1 ms1 dir1 attrs1 mem2 d2 c2 :
  pool_inv mem -> pool_addr_ok mem -> 0 <= o < 2 ^ 64 -> 0 <= A ->
  A + IO_TLB_SIZE <= 2 ^ 64 ->
  swiotlb_lockless_mode plat = false ->
  swiotlb_tbl_map_single plat dev (Some mem) cpu o ms A m dir attrs
    = Ok (Some mem1, tlb_addr, diags, copies) ->
  tlb_addr <> DMA_MAPPING_ERROR ->
  swiotlb_tbl_unmap_single plat dev mem1 cpu1 tlb_addr ms1 dir1 attrs1
    = Ok (mem2, d2, c2) ->
  (forall size way,
     swiotlb_bounce plat dev mem2 tlb_addr size way = Ok ([], [])) /\
  (swiotlb_align_offset dev o = 0 ->
   forall cpu2 ms2 dir2 attrs2,
     swiotlb_tbl_unmap_single plat dev mem2 cpu2 tlb_addr ms2 dir2 attrs2
       = Ok (mem2, [], [])).
Proof.
  intros Hinv Haddr Ho HA HAw Hl Hmap Hne Hunmap.
  destruct (swiotlb_tbl_map_single_view _ _ _ _ _ _ _ _ _ _ _ _ _ _
              Hinv Haddr Ho HA HAw Hmap)
    as [(? & _)|(_ & mem0 & a & index & Hfrom & _ & _ & Ha & Hin & Hok
                 & Hnn & Hn & _ & -> & ->)]; [done|].
  destruct Hfrom as [->|(Hl' & _)]; [|congruence].
  destruct (claimed_release_restores plat dev mem a o A m index _ cpu1
              Hinv Haddr Ha HA HAw Hin Hok Hnn Hn (Z.le_refl _) Hl)
    as (mem2' & Hrelease & (Hsh & Hfree) & Hinv2 & _).
  apply swiotlb_tbl_unmap_single_release in Hunmap.
  cbv zeta in Hrelease. rewrite Hrelease in Hunmap.
  apply Ok_inj in Hunmap. subst mem2'.
  pose proof Hsh as (Hst & Hns & Hna & Han & _ & _ & Hal).
  pose proof (swiotlb_align_offset_range dev o) as Hoff.
  set (offset := swiotlb_align_offset dev o) in *.
  set (n := nr_slots (A + offset)) in *.
  destruct (candidate_run dev mem a o (A + offset) m index Hinv Ha Hin Hok)
    as (_ & Hidx & Hend0 & _).
  rewrite Hnn in Hend0.
  destruct Haddr as (Hst0 & Halign & Hend).
  pose proof (inv_small mem Hinv) as Hsmall.
  assert (slot_at mem2 index = free_slot) as Hslot by (apply Hfree; lia).
  assert (forall size way,
            swiotlb_bounce plat dev mem2
              (start mem + index * IO_TLB_SIZE + offset) size way
            = Ok ([], [])) as Hbounce.
  { intros size way. unfold swiotlb_bounce. cbv zeta.
    rewrite Hst, unit_index_of_addr
      by (unfold IO_TLB_SIZE, IO_TLB_SHIFT in *; nia).
    rewrite Hslot. cbn [orig_addr free_slot].
    by rewrite Z.eqb_refl. }
  split; [done|].
  intros Hzero cpu2 ms2 dir2 attrs2.
  unfold swiotlb_tbl_unmap_single. cbv zeta.
  assert (swiotlb_release_slots plat dev mem2 cpu2
            (start mem + index * IO_TLB_SIZE + offset) = Ok mem2) as Hrel2.
  { rewrite swiotlb_release_slots_unfold. cbv zeta.
    assert (release_index dev mem2 (start mem + index * IO_TLB_SIZE + offset)
            = index) as Hri.
    { unfold release_index. unfold offset.
      rewrite swiotlb_align_offset_idem by done. fold offset.
      rewrite Hst.
      replace (start mem + index * IO_TLB_SIZE + offset - offset - start mem)
        with (start mem + index * IO_TLB_SIZE + 0 - start mem) by lia.
      apply unit_index_of_addr; unfold IO_TLB_SIZE, IO_TLB_SHIFT in *; nia. }
    assert (release_nslots dev mem2
              (start mem + index * IO_TLB_SIZE + offset) = 0) as Hrn.
    { unfold release_nslots. rewrite Hri, Hslot. unfold offset.
      rewrite swiotlb_align_offset_idem by done. fold offset.
      rewrite Hzero. reflexivity. }
    assert (release_aindex dev mem2
              (start mem + index * IO_TLB_SIZE + offset) = a) as Hra.
    { unfold release_aindex. rewrite Hri, Han.
      rewrite u64_small by lia.
      assert (a = index / area_nslabs mem) as <-.
      { apply (in_area_div mem); [by apply Hinv|].
        by apply (inv_free_iff mem Hinv a index Ha). }
      pose proof (pool_inv_nareas_small mem Hinv).
      apply s32_small. lia. }
    rewrite Hri, Hrn, Hra, Hl, Hna.
    pose proof (pool_inv_nareas_small mem Hinv).
    rewrite u32_small by lia.
    destruct (Z.leb_spec (nareas mem) a); [lia|].
    cbn [andb seqZ reverse foldl Z.opp]. f_equal.
    apply add_used_0.
    - destruct (inv_used mem2 Hinv2 a ltac:(lia)) as [Hu0 Hu].
      pose proof (inv_area_nslabs mem2 Hinv2).
      pose proof (inv_nslabs mem2 Hinv2). pose proof (inv_small mem2 Hinv2).
      pose proof (inv_nareas mem2 Hinv2). nia.
    - rewrite Hal, (inv_areas_len mem Hinv). lia. }
  destruct (_ && _).
  - rewrite Hbounce. cbn [rbind]. rewrite Hrel2. reflexivity.
  - cbn [rbind]. rewrite Hrel2. reflexivity.
Qed.

Lemma X19_stale_address_harmless_witness :
  exists mem1 tlb_addr mem2,
    swiotlb_tbl_map_single locked_plat plain_dev (Some pool_1x128) 0
      4096 100 100 0 DMA_BIDIRECTIONAL 0
      = Ok (Some mem1, tlb_addr, [], [Copy DMA_TO_DEVICE 0 4096 100]) /\
    swiotlb_tbl_unmap_single locked_plat plain_dev mem1 0 tlb_addr 100
      DMA_BIDIRECTIONAL 0
      = Ok (mem2, [], [Copy DMA_FROM_DEVICE 0 4096 100]) /\
    swiotlb_tbl_unmap_single locked_plat plain_dev mem2 0 tlb_addr 100
      DMA_BIDIRECTIONAL 0 = Ok (mem2, [], []).
Proof.
  eexists _, _, _.
  eassert (swiotlb_tbl_map_single locked_plat plain_dev (Some pool_1x128) 0
             4096 100 100 0 DMA_BIDIRECTIONAL 0 = Ok (Some _, _, _, _))
    as Hmap by (vm_compute; reflexivity).
  split; [exact Hmap|].
  match type of Hmap with
  | _ = Ok (Some ?m1, ?t, _, _) =>
    eassert (swiotlb_tbl_unmap_single locked_plat plain_dev m1 0 t 100
               DMA_BIDIRECTIONAL 0 = Ok (_, _, _)) as Hunmap
      by (vm_compute; reflexivity)
  end.
  split; [exact Hunmap|].
  assert (0 <= 4096 < 2 ^ 64) as H1 by lia.
  assert (0 <= 100) as H2 by lia.
  assert (100 + IO_TLB_SIZE <= 2 ^ 64) as H3 by (vm_compute; discriminate).
  destruct (X19_stale_address_harmless _ _ _ _ _ _ _ _ _ _ _ _ _ _ _ _ _ _
              _ _ _ pool_inv_1x128 pool_addr_ok_1x128 H1 H2 H3
              (eq_refl : swiotlb_lockless_mode locked_plat = false)
              Hmap ltac:(vm_compute; discriminate) Hunmap) as [_ Hagain].
  apply Hagain. reflexivity.
Defined.

(** ** Restricted pools: allocation and release of pages *)

Lemma swiotlb_alloc_find plat dev mem cpu size mem1 page :
  swiotlb_alloc plat dev (Some mem) cpu size = Ok (Some mem1, page) ->
  exists index,
    swiotlb_find_slots plat dev mem cpu 0 size 0 = Ok (mem1, index) /\
    ((index = -1 /\ page = None) \/
     (index <> -1 /\ page = Some (PFN_DOWN (slot_addr (start mem1) index)))).
Proof.
  unfold swiotlb_alloc.
  destruct (swiotlb_find_slots _ _ _ _ _ _ _) as [[m1 index]| |] eqn:Hfind;
    cbn [rbind]; [|done..].
  destruct (Z.eqb_spec index (-1)).
  - intros [= <- <-]. exists index. auto.
  - intros [= <- <-]. exists index. auto.
Qed.

Lemma swiotlb_align_offset_0 dev : swiotlb_align_offset dev 0 = 0.
Proof. reflexivity. Qed.

Lemma save_orig_addrs_0 index o mem : save_orig_addrs index o 0 mem = mem.
Proof. reflexivity. Qed.

Lemma page_of_unit st index :
  0 <= st + index * IO_TLB_SIZE < 2 ^ 64 ->
  (st + index * IO_TLB_SIZE) mod PAGE_SIZE = 0 ->
  Z.shiftl (PFN_DOWN (slot_addr st index)) PAGE_SHIFT
  = st + index * IO_TLB_SIZE.
Proof.
  intros Hr Hp. unfold PFN_DOWN, slot_addr. rewrite shiftl_shift.
  rewrite u64_small by done.
  unfold PAGE_SIZE, PAGE_SHIFT in *.
  rewrite Z.shiftr_div_pow2, Z.shiftl_mul_pow2 by lia.
  pose proof (Z.div_mod (st + index * IO_TLB_SIZE) (2 ^ 12) ltac:(lia)).
  lia.
Qed.

(** X11: allocating and freeing pages of a restricted pool is a round
    trip.  On a well-formed pool in locked mode whose base is page-aligned
    on the bus as it is in memory, a successful [swiotlb_alloc] of at
    least one page returns a page of the pool, and [swiotlb_free] of that
    page (from any processor) accepts it and puts the bookkeeping back as
    it was before the allocation. *)
Theorem X11_alloc_free_round_trip plat dev mem cpu size mem1 page cpu' size' :
  pool_inv mem -> pool_addr_ok mem ->
  swiotlb_lockless_mode plat = false ->
  tbl_dma_addr_of dev mem mod PAGE_SIZE = start mem mod PAGE_SIZE ->
  PAGE_SIZE <= size -> size + IO_TLB_SIZE <= 2 ^ 43 ->
  swiotlb_alloc plat dev (Some mem) cpu size = Ok (Some mem1, Some page) ->
  start mem <= Z.shiftl page PAGE_SHIFT
    < start mem + nslabs mem * IO_TLB_SIZE /\
  exists mem2,
    swiotlb_free plat dev (Some mem1) cpu' page size' = Ok (Some mem2, true) /\
    pool_inv mem2 /\
    (forall j, test_bit mem2 j = test_bit mem j) /\
    (forall j, orig_addr (slot_at mem2 j) = orig_addr (slot_at mem j)) /\
    (forall b, 0 <= b < nareas mem ->
       used (area_at mem2 b) = used (area_at mem b) /\
       free_slots (area_at mem2 b) ≡ₚ free_slots (area_at mem b)).
Proof.
  intros Hinv Haddr Hl Hbus Hsz Hw43 Halloc.
  assert (size + IO_TLB_SIZE <= 2 ^ 64) as Hw by lia.
  apply swiotlb_alloc_find in Halloc
    as (index & Hfind & [[_ ?]|[Hne [= ->]]]); [done|].
  destruct (swiotlb_find_slots_view _ _ _ _ _ _ _ _ _ Hinv Hfind)
    as (mem0 & a & _ & _ & Ha & Hdo & [[-> _]|(Hl' & _)]); [|congruence].
  pose proof (pool_inv_nareas_small mem Hinv) as Hna.
  destruct (swiotlb_do_find_slots_inv dev mem a 0 size 0 mem1 index
              Hinv ltac:(lia) Hdo) as (_ & Hn0 & [[_ ->]|(Hidx & Hin & Hok & ->)]);
    [done|].
  assert (size = size + swiotlb_align_offset dev 0) as Hsize
    by (rewrite swiotlb_align_offset_0; lia).
  assert (0 < nslots_of size /\ nslots_of size <= IO_TLB_SEGSIZE) as [Hn1 Hn2].
  { pose proof (nslots_of_nonneg size).
    pose proof Hok as (_ & _ & _ & Hseg & _).
    pose proof (io_tlb_offset_nonneg index). lia. }
  assert (nslots_of size = nr_slots size) as Hnn.
  { unfold nslots_of. apply u32_small. unfold nr_slots.
    rewrite u64_small by (unfold PAGE_SIZE, PAGE_SHIFT, IO_TLB_SIZE,
                            IO_TLB_SHIFT in *; lia).
    split; [apply Z.div_pos; unfold IO_TLB_SIZE, IO_TLB_SHIFT,
              PAGE_SIZE, PAGE_SHIFT in *; lia|].
    apply Z.div_lt_upper_bound;
      unfold PAGE_SIZE, PAGE_SHIFT, IO_TLB_SIZE, IO_TLB_SHIFT in *; lia. }
  destruct (candidate_run dev mem a 0 size 0 index Hinv Ha Hin Hok)
    as (_ & _ & Hend0 & _).
  destruct Haddr as (Hst0 & Hal & Hend).
  destruct (same_shape_claimed dev mem a 0 size index) as (Hst1 & _).
  assert (0 <= start mem + index * IO_TLB_SIZE < 2 ^ 64) as Hrange
    by (unfold IO_TLB_SIZE, IO_TLB_SHIFT in *; nia).
  assert ((start mem + index * IO_TLB_SIZE) mod PAGE_SIZE = 0) as Hpage.
  { pose proof Hok as (_ & _ & Hp & _). specialize (Hp Hsz).
    unfold PAGE_SIZE in Hp |- *. rewrite land_low_mod in Hp
      by (unfold PAGE_SHIFT; lia).
    unfold slot_addr in Hp. rewrite shiftl_shift in Hp.
    rewrite u64_mod_pow2 in Hp by (unfold PAGE_SHIFT; lia).
    rewrite <- Z.add_mod_idemp_l in Hp
      by (unfold PAGE_SHIFT; lia).
    unfold PAGE_SIZE in Hbus. rewrite Hbus in Hp.
    rewrite Z.add_mod_idemp_l in Hp by (unfold PAGE_SHIFT; lia). done. }
  rewrite Hst1, page_of_unit by done.
  split; [unfold IO_TLB_SIZE, IO_TLB_SHIFT in *; nia|].
  destruct (claimed_release_restores plat dev mem a 0 size 0 index 0 cpu'
              Hinv (conj Hst0 (conj Hal Hend)) Ha ltac:(unfold PAGE_SIZE,
                PAGE_SHIFT in *; lia) Hw)
    as (mem2 & Hrelease & _ & Hrest).
  - done.
  - by rewrite <- Hsize.
  - by rewrite <- Hsize.
  - rewrite <- Hsize, <- Hnn. lia.
  - rewrite <- Hsize, <- Hnn. lia.
  - done.
  - cbv zeta in Hrelease. rewrite <- Hsize in Hrelease.
    rewrite save_orig_addrs_0, swiotlb_align_offset_0, Z.add_0_r in Hrelease.
    exists mem2. split; [|exact Hrest].
    unfold swiotlb_free. cbv zeta.
    rewrite page_of_unit by done.
    assert (is_swiotlb_buffer (Some (claimed dev mem a 0 size index))
              (start mem + index * IO_TLB_SIZE) = true) as ->.
    { unfold is_swiotlb_buffer. rewrite Hst1.
      destruct (same_shape_claimed dev mem a 0 size index)
        as (_ & -> & _).
      rewrite shiftl_shift.
      apply andb_true_iff. split; [apply Z.leb_le | apply Z.ltb_lt];
        unfold IO_TLB_SIZE, IO_TLB_SHIFT in *; nia. }
    rewrite Hrelease. reflexivity.
Qed.

Lemma X11_alloc_free_round_trip_witness :
  exists mem1 page mem2,
    swiotlb_alloc locked_plat plain_dev (Some pool_1x128) 0 8192
      = Ok (Some mem1, Some page) /\
    swiotlb_free locked_plat plain_dev (Some mem1) 0 page 8192
      = Ok (Some mem2, true) /\
    forall j, test_bit mem2 j = test_bit pool_1x128 j.
Proof.
  eexists _, _.
  eassert (swiotlb_alloc locked_plat plain_dev (Some pool_1x128) 0 8192
           = Ok (Some _, Some _)) as Halloc by (vm_compute; reflexivity).
  destruct (fun H3 H4 H5 H6 =>
              X11_alloc_free_round_trip _ _ _ _ _ _ _ 0 8192
                (pool_inv_init _ _ _ geometry_ok_128_1) pool_addr_ok_1x128
                H3 H4 H5 H6 Halloc)
    as (_ & mem2 & Hfree & _ & Hbits & _).
  - reflexivity.
  - vm_compute. reflexivity.
  - vm_compute. discriminate.
  - vm_compute. discriminate.
  - exists mem2. split; [exact Halloc|]. split; [exact Hfree | exact Hbits].
Defined.

(** ** Syncing part of a mapping *)

Lemma page_base_plus_offset x y :
  0 <= y ->
  Z.shiftl (PFN_DOWN x) PAGE_SHIFT + Z.land y (PAGE_SIZE - 1) = y <->
  PFN_DOWN x = PFN_DOWN y.
Proof.
  intros Hy. unfold PFN_DOWN, PAGE_SIZE, PAGE_SHIFT.
  rewrite Z.shiftl_mul_pow2, !Z.shiftr_div_pow2 by lia.
  rewrite land_low_mod by lia.
  pose proof (Z.div_mod y (2 ^ 12) ltac:(lia)).
  pose proof (Z.mod_pos_bound y (2 ^ 12) ltac:(lia)).
  split; intros Heq; [|rewrite Heq; lia].
  assert (x / 2 ^ 12 * 2 ^ 12 = 2 ^ 12 * (y / 2 ^ 12)) by lia. lia.
Qed.

(** The first piece of a copy through high memory lies in the page [pfn]
    handed to the copy, at the offset the original address has inside its
    own page. *)
Lemma bounce_copy_highmem_first plat dir pfn voff o size copies :
  PageHighMem plat pfn = true -> 0 < size ->
  bounce_copy plat dir pfn voff o size = Ok copies ->
  exists rest,
    copies = Copy (way_of dir) voff
               (Z.shiftl pfn PAGE_SHIFT + Z.land o (PAGE_SIZE - 1))
               (Z.min (PAGE_SIZE - Z.land o (PAGE_SIZE - 1)) size) :: rest.
Proof.
  intros Hhigh Hsize. unfold bounce_copy. cbv zeta. rewrite Hhigh.
  cbn [bounce_highmem]. destruct (Z.eqb_spec size 0); [lia|].
  destruct (bounce_highmem _ _ _ _ _ _) as [rest| |]; cbn [rbind];
    intros H; [|discriminate H..].
  apply Ok_inj in H. subst copies. by exists rest.
Qed.

Lemma swiotlb_bounce_cases plat dev mem tlb_addr size dir :
  let index := s32 (Z.shiftr (u64 (tlb_addr - start mem)) IO_TLB_SHIFT) in
  let slot := slot_at mem index in
  let off := Z.land tlb_addr (IO_TLB_SIZE - 1)
             - swiotlb_align_offset dev (orig_addr slot) in
  orig_addr slot <> INVALID_PHYS_ADDR ->
  if decide (0 <= off)
  then
    off <= alloc_size slot ->
    exists copies,
      swiotlb_bounce plat dev mem tlb_addr size dir
        = Ok (if alloc_size slot - off <? size then [WarnOverflowSize]
              else [], copies) /\
      copied_bytes copies = Z.min size (alloc_size slot - off) /\
      Forall (fun c => copy_dir c = way_of dir) copies /\
      (PageHighMem plat (PFN_DOWN (orig_addr slot)) = false ->
       copies = [Copy (way_of dir) (u64 (tlb_addr - start mem))
                   (u64 (orig_addr slot + off))
                   (Z.min size (alloc_size slot - off))]) /\
      (PageHighMem plat (PFN_DOWN (orig_addr slot)) = true ->
       0 < Z.min size (alloc_size slot - off) ->
       let in_page := Z.land (u64 (orig_addr slot + off)) (PAGE_SIZE - 1) in
       exists rest,
         copies = Copy (way_of dir) (u64 (tlb_addr - start mem))
                    (Z.shiftl (PFN_DOWN (orig_addr slot)) PAGE_SHIFT
                     + in_page)
                    (Z.min (PAGE_SIZE - in_page)
                       (Z.min size (alloc_size slot - off))) :: rest)
  else
    swiotlb_bounce plat dev mem tlb_addr size dir
      = Ok ([WarnAccessBeforeStart], []).
Proof.
  cbv zeta. intros Hvalid. unfold swiotlb_bounce. cbv zeta.
  set (slot := slot_at mem _) in *.
  destruct (Z.eqb_spec (orig_addr slot) INVALID_PHYS_ADDR); [done|].
  case_decide as Hoff.
  - intros Hle.
    destruct (Z.ltb_spec (Z.land tlb_addr (IO_TLB_SIZE - 1))
                (swiotlb_align_offset dev (orig_addr slot))); [lia|].
    set (off := Z.land tlb_addr (IO_TLB_SIZE - 1)
                - swiotlb_align_offset dev (orig_addr slot)) in *.
    destruct (Z.ltb_spec (alloc_size slot) off); [lia|].
    match goal with |- context [bounce_copy ?p ?d ?f ?v ?o ?s] =>
      destruct (bounce_copy_spec p d f v o s)
        as (copies & Hcopy & Hbytes & Hd & Hlow); rewrite Hcopy end.
    cbn [rbind]. exists copies.
    assert ((if alloc_size slot - off <? size then alloc_size slot - off
             else size) = Z.min size (alloc_size slot - off)) as Hmin
      by (destruct (Z.ltb_spec (alloc_size slot - off) size); lia).
    rewrite Hmin in *. split_and!; try done.
    intros Hhigh Hpos. cbv zeta.
    exact (bounce_copy_highmem_first _ _ _ _ _ _ _ Hhigh Hpos Hcopy).
  - destruct (Z.ltb_spec (Z.land tlb_addr (IO_TLB_SIZE - 1))
                (swiotlb_align_offset dev (orig_addr slot))); [done | lia].
Qed.

Lemma swiotlb_align_offset_add_units dev o k :
  swiotlb_align_offset dev (o + k * IO_TLB_SIZE) = swiotlb_align_offset dev o.
Proof.
  unfold swiotlb_align_offset.
  rewrite <- !Z.land_assoc,
    !(Z.land_comm (dma_get_min_align_mask dev)), !Z.land_assoc.
  f_equal. unfold IO_TLB_SIZE, IO_TLB_SHIFT.
  rewrite !land_low_mod by lia. by rewrite Z.mod_add by lia.
Qed.

(** The slots of a run after a mapping. *)
Lemma mapped_slots dev mem0 a o A index k :
  pool_inv mem0 -> 0 <= index ->
  index + nr_slots (A + swiotlb_align_offset dev o) <= nslabs mem0 ->
  nslots_of (A + swiotlb_align_offset dev o)
    = nr_slots (A + swiotlb_align_offset dev o) ->
  nr_slots (A + swiotlb_align_offset dev o) <= IO_TLB_SEGSIZE ->
  0 <= A -> A + IO_TLB_SIZE <= 2 ^ 64 ->
  0 <= k < nr_slots (A + swiotlb_align_offset dev o) ->
  let mem1 :=
    save_orig_addrs index o (nr_slots (A + swiotlb_align_offset dev o))
      (claimed dev mem0 a o (A + swiotlb_align_offset dev o) index) in
  orig_addr (slot_at mem1 (index + k)) = u64 (o + k * IO_TLB_SIZE) /\
  (k * IO_TLB_SIZE <= A ->
   alloc_size (slot_at mem1 (index + k)) = A - k * IO_TLB_SIZE).
Proof.
  intros Hinv0 Hidx Hend Hnn Hseg HA HAw Hk. cbv zeta.
  pose proof (swiotlb_align_offset_range dev o) as Hoff.
  set (offset := swiotlb_align_offset dev o) in *.
  set (n := nr_slots (A + offset)) in *.
  pose proof (inv_slots_len mem0 Hinv0) as Hsl0.
  destruct (same_shape_claimed dev mem0 a o (A + offset) index)
    as (_&_&_&_&_&Hslc&_).
  rewrite save_orig_addrs_slot, Hslc. rewrite decide_True by lia.
  cbn [orig_addr alloc_size].
  replace (index + k - index) with k by lia. split.
  - unfold slot_addr. by rewrite shiftl_shift.
  - intros HkA. rewrite claimed_alloc_size by lia.
    replace (index + k - index) with k by lia.
    rewrite shiftl_shift. fold offset.
    unfold IO_TLB_SIZE, IO_TLB_SHIFT, IO_TLB_SEGSIZE in *.
    rewrite (u32_small (k * 2 ^ 11)) by lia.
    rewrite u32_small by lia. rewrite u64_small; lia.
Qed.

(** A bounce at [delta] bytes into a fresh mapping. *)
Lemma mapped_bounce plat dev mem cpu o ms A m dir attrs
    mem1 tlb_addr diags copies delta size way :
  pool_inv mem -> pool_addr_ok mem -> 0 <= o ->
  o + A + 2 * IO_TLB_SIZE <= 2 ^ 64 -> 0 <= A ->
  swiotlb_tbl_map_single plat dev (Some mem) cpu o ms A m dir attrs
    = Ok (Some mem1, tlb_addr, diags, copies) ->
  tlb_addr <> DMA_MAPPING_ERROR ->
  0 <= delta < A ->
  let offset := swiotlb_align_offset dev o in
  let k := (offset + delta) / IO_TLB_SIZE in
  if decide (offset <= (offset + delta) mod IO_TLB_SIZE)
  then
    exists c,
      swiotlb_bounce plat dev mem1 (tlb_addr + delta) size way
        = Ok (if A - delta <? size then [WarnOverflowSize] else [], c) /\
      copied_bytes c = Z.min size (A - delta) /\
      (PageHighMem plat (PFN_DOWN (o + k * IO_TLB_SIZE)) = false ->
       c = [Copy (way_of way) (tlb_addr + delta - start mem) (o + delta)
              (Z.min size (A - delta))]) /\
      (PageHighMem plat (PFN_DOWN (o + k * IO_TLB_SIZE)) = true ->
       0 < size ->
       let in_page := Z.land (o + delta) (PAGE_SIZE - 1) in
       exists rest,
         c = Copy (way_of way) (tlb_addr + delta - start mem)
               (Z.shiftl (PFN_DOWN (o + k * IO_TLB_SIZE)) PAGE_SHIFT
                + in_page)
               (Z.min (PAGE_SIZE - in_page) (Z.min size (A - delta)))
             :: rest)
  else
    swiotlb_bounce plat dev mem1 (tlb_addr + delta) size way
      = Ok ([WarnAccessBeforeStart], []).
Proof.
  intros Hinv Haddr Ho Hw HA Hmap Hne Hdelta. cbv zeta.
  pose proof (swiotlb_align_offset_range dev o) as Hoff.
  assert (A + IO_TLB_SIZE <= 2 ^ 64) as HAw
    by (unfold IO_TLB_SIZE, IO_TLB_SHIFT in *; lia).
  assert (0 <= o < 2 ^ 64) as Ho64
    by (unfold IO_TLB_SIZE, IO_TLB_SHIFT in *; lia).
  destruct (swiotlb_tbl_map_single_view _ _ _ _ _ _ _ _ _ _ _ _ _ _
              Hinv Haddr Ho64 HA HAw Hmap)
    as [(? & _)|(_ & mem0 & a & index & _ & Hinv0 & Hsh & Ha & Hin & Hok
                 & Hnn & Hn & _ & Hmem1 & Htlb)]; [done|].
  cbv zeta in Hnn, Hn, Hmem1, Htlb.
  set (offset := swiotlb_align_offset dev o) in *.
  set (n := nr_slots (A + offset)) in *.
  pose proof Hsh as (Hst & Hns & Hna & _).
  destruct (candidate_run dev mem0 a o (A + offset) m index Hinv0
              ltac:(lia) Hin Hok) as (_ & Hidx & Hend0 & _).
  rewrite Hnn in Hend0.
  pose proof Hok as (_ & _ & _ & Hseg & _). rewrite Hnn in Hseg.
  pose proof (io_tlb_offset_nonneg index) as Hio.
  destruct Haddr as (Hst0 & Hal & Hend).
  pose proof (inv_small mem Hinv) as Hsmall.
  pose proof (nr_slots_bounds (A + offset) ltac:(lia)
                ltac:(unfold IO_TLB_SIZE, IO_TLB_SHIFT in *; lia)) as Hnb.
  fold n in Hnb.
  set (k := (offset + delta) / IO_TLB_SIZE).
  set (r := (offset + delta) mod IO_TLB_SIZE).
  assert (offset + delta = k * IO_TLB_SIZE + r /\ 0 <= r < IO_TLB_SIZE)
    as [Hkr Hr].
  { unfold k, r, IO_TLB_SIZE, IO_TLB_SHIFT in *.
    pose proof (Z.div_mod (offset + delta) (2 ^ 11) ltac:(lia)).
    pose proof (Z.mod_pos_bound (offset + delta) (2 ^ 11) ltac:(lia)). lia. }
  assert (0 <= k < n) as Hk.
  { unfold IO_TLB_SIZE, IO_TLB_SHIFT in *. split; [|nia].
    apply Z.div_pos; lia. }
  assert (start mem1 = start mem) as Hst1.
  { rewrite Hmem1.
    destruct (save_orig_addrs_frame index o n
                (claimed dev mem0 a o (A + offset) index))
      as (_ & _ & (-> & _)).
    destruct (same_shape_claimed dev mem0 a o (A + offset) index)
      as (-> & _). done. }
  assert (tlb_addr + delta
          = start mem + (index + k) * IO_TLB_SIZE + r) as Haddr' by lia.
  assert (s32 (Z.shiftr (u64 (tlb_addr + delta - start mem1)) IO_TLB_SHIFT)
          = index + k) as Hidx'.
  { rewrite Hst1, Haddr'. apply unit_index_of_addr; try lia.
    unfold IO_TLB_SIZE, IO_TLB_SHIFT in *. nia. }
  assert (Z.land (tlb_addr + delta) (IO_TLB_SIZE - 1) = r) as Hlow
    by (rewrite Haddr'; by apply unit_offset_of_addr).
  destruct (mapped_slots dev mem0 a o A index k Hinv0 Hidx
              ltac:(fold offset; fold n; lia) Hnn
              ltac:(fold offset; fold n; lia) HA HAw Hk) as [Horig Hsize].
  cbv zeta in Horig, Hsize. fold offset in Horig, Hsize.
  fold n in Horig, Hsize. rewrite <- Hmem1 in Horig, Hsize.
  rewrite u64_small in Horig
    by (unfold IO_TLB_SIZE, IO_TLB_SHIFT in *; nia).
  pose proof (swiotlb_bounce_cases plat dev mem1 (tlb_addr + delta) size way)
    as Hb.
  cbv zeta in Hb. rewrite Hidx', Hlow, Horig in Hb.
  rewrite swiotlb_align_offset_add_units in Hb. fold offset in Hb.
  specialize (Hb ltac:(unfold INVALID_PHYS_ADDR, IO_TLB_SIZE, IO_TLB_SHIFT
                         in *; nia)).
  destruct (decide (offset <= r)) as [Hin_unit|Hbefore].
  - rewrite decide_True in Hb by lia.
    rewrite Hsize in Hb by lia.
    destruct (Hb ltac:(lia)) as (c & Hc & Hbytes & _ & Hlowmem & Hhighmem).
    cbv zeta in Hhighmem.
    replace (A - k * IO_TLB_SIZE - (r - offset)) with (A - delta)
      in Hc, Hbytes, Hlowmem, Hhighmem by lia.
    replace (o + k * IO_TLB_SIZE + (r - offset)) with (o + delta)
      in Hlowmem, Hhighmem by lia.
    rewrite Hst1 in Hlowmem, Hhighmem.
    rewrite !u64_small in Hlowmem, Hhighmem
      by (unfold IO_TLB_SIZE, IO_TLB_SHIFT in *; nia).
    exists c. split; [done|]. split; [done|]. split; [done|].
    intros Hpage Hpos. apply Hhighmem; [done | lia].
  - by rewrite decide_False in Hb by lia.
Qed.

(** X12: syncing part of a mapping.  After a successful mapping of [A]
    bytes at original address [o], a sync that starts [delta] bytes into
    the mapping goes through the slot that holds that byte.  When the
    position of the byte inside its unit is not below the alignment
    offset of the mapping, the sync copies the requested size clamped to
    the [A - delta] bytes that remain, from or to the pool at the bounce
    address plus [delta], and warns when it had to clamp.  Outside high
    memory the other end of the copy is the original buffer at
    [o + delta].  In high memory the copy goes page by page, and its first
    piece lies at the offset of [o + delta] inside the page of the address
    recorded for the unit, [o + k * IO_TLB_SIZE]: that is [o + delta] only
    when the two addresses share a page.  When the position is below the
    alignment offset, the sync is taken for an access before the mapping
    start: nothing is copied and the warning is raised. *)
Theorem X12_partial_sync plat dev mem cpu o ms A m dir attrs
    mem1 tlb_addr diags copies delta size :
  pool_inv mem -> pool_addr_ok mem -> 0 <= o ->
  o + A + 2 * IO_TLB_SIZE <= 2 ^ 64 -> 0 <= A ->
  swiotlb_tbl_map_single plat dev (Some mem) cpu o ms A m dir attrs
    = Ok (Some mem1, tlb_addr, diags, copies) ->
  tlb_addr <> DMA_MAPPING_ERROR ->
  0 <= delta < A -> 0 <= size ->
  let offset := swiotlb_align_offset dev o in
  let k := (offset + delta) / IO_TLB_SIZE in
  let n := Z.min size (A - delta) in
  if decide (offset <= (offset + delta) mod IO_TLB_SIZE)
  then
    exists c_dev c_cpu,
      swiotlb_sync_single_for_device plat dev mem1 (tlb_addr + delta) size
        DMA_BIDIRECTIONAL
        = Ok (if A - delta <? size then [WarnOverflowSize] else [], c_dev) /\
      swiotlb_sync_single_for_cpu plat dev mem1 (tlb_addr + delta) size
        DMA_BIDIRECTIONAL
        = Ok (if A - delta <? size then [WarnOverflowSize] else [], c_cpu) /\
      copied_bytes c_dev = n /\ copied_bytes c_cpu = n /\
      (PageHighMem plat (PFN_DOWN (o + k * IO_TLB_SIZE)) = false ->
       c_dev = [Copy DMA_TO_DEVICE (tlb_addr + delta - start mem)
                  (o + delta) n] /\
       c_cpu = [Copy DMA_FROM_DEVICE (tlb_addr + delta - start mem)
                  (o + delta) n]) /\
      (PageHighMem plat (PFN_DOWN (o + k * IO_TLB_SIZE)) = true ->
       0 < size ->
       let in_page := Z.land (o + delta) (PAGE_SIZE - 1) in
       let first :=
         Z.shiftl (PFN_DOWN (o + k * IO_TLB_SIZE)) PAGE_SHIFT + in_page in
       exists r_dev r_cpu,
         c_dev = Copy DMA_TO_DEVICE (tlb_addr + delta - start mem) first
                   (Z.min (PAGE_SIZE - in_page) n) :: r_dev /\
         c_cpu = Copy DMA_FROM_DEVICE (tlb_addr + delta - start mem) first
                   (Z.min (PAGE_SIZE - in_page) n) :: r_cpu /\
         (first = o + delta <->
          PFN_DOWN (o + k * IO_TLB_SIZE) = PFN_DOWN (o + delta)))
  else
    swiotlb_sync_single_for_device plat dev mem1 (tlb_addr + delta) size
      DMA_BIDIRECTIONAL = Ok ([WarnAccessBeforeStart], []) /\
    swiotlb_sync_single_for_cpu plat dev mem1 (tlb_addr + delta) size
      DMA_BIDIRECTIONAL = Ok ([WarnAccessBeforeStart], []).
Proof.
  intros Hinv Haddr Ho Hw HA Hmap Hne Hdelta Hsize. cbv zeta.
  pose proof (mapped_bounce plat dev mem cpu o ms A m dir attrs mem1
                tlb_addr diags copies delta size DMA_TO_DEVICE
                Hinv Haddr Ho Hw HA Hmap Hne Hdelta) as Hdev.
  pose proof (mapped_bounce plat dev mem cpu o ms A m dir attrs mem1
                tlb_addr diags copies delta size DMA_FROM_DEVICE
                Hinv Haddr Ho Hw HA Hmap Hne Hdelta) as Hcpu.
  cbv zeta in Hdev, Hcpu.
  unfold swiotlb_sync_single_for_device, swiotlb_sync_single_for_cpu.
  case_decide.
  - destruct Hdev as (cd & Hd1 & Hd2 & Hd3 & Hd4).
    destruct Hcpu as (cc & Hc1 & Hc2 & Hc3 & Hc4).
    exists cd, cc. split_and!; try done.
    + intros Hpage. split; [by apply Hd3 | by apply Hc3].
    + intros Hpage Hpos.
      destruct (Hd4 Hpage Hpos) as (rd & ->).
      destruct (Hc4 Hpage Hpos) as (rc & ->).
      exists rd, rc. split; [done|]. split; [done|].
      apply page_base_plus_offset. lia.
  - done.
Qed.

Lemma X12_partial_sync_witness :
  exists mem1 tlb_addr c_cpu rest,
    swiotlb_tbl_map_single highmem_plat plain_dev (Some pool_1x128) 0
      (2 ^ 12 + 3000) 5000 5000 0 DMA_BIDIRECTIONAL 0
      = Ok (Some mem1, tlb_addr, [],
            [Copy DMA_TO_DEVICE 0 (2 ^ 12 + 3000) 1096;
             Copy DMA_TO_DEVICE 1096 (2 ^ 13) 3904]) /\
    swiotlb_sync_single_for_cpu highmem_plat plain_dev mem1 (tlb_addr + 1500)
      500 DMA_BIDIRECTIONAL = Ok ([], c_cpu) /\
    c_cpu = Copy DMA_FROM_DEVICE (tlb_addr + 1500 - start pool_1x128)
              (2 ^ 12 + 404) 500 :: rest.
Proof.
  eexists _, _.
  eassert (swiotlb_tbl_map_single highmem_plat plain_dev (Some pool_1x128) 0
      (2 ^ 12 + 3000) 5000 5000 0 DMA_BIDIRECTIONAL 0
      = Ok (Some _, _, _, _)) as Hmap by (vm_compute; reflexivity).
  assert (0 <= 2 ^ 12 + 3000) as H3 by (vm_compute; discriminate).
  assert (2 ^ 12 + 3000 + 5000 + 2 * IO_TLB_SIZE <= 2 ^ 64) as H4
    by (vm_compute; discriminate).
  pose proof (X12_partial_sync _ _ _ _ _ _ _ _ _ _ _ _ _ _ 1500 500
                pool_inv_1x128 pool_addr_ok_1x128 H3 H4 ltac:(lia) Hmap
                ltac:(vm_compute; discriminate) ltac:(lia) ltac:(lia)) as H.
  cbv zeta in H.
  rewrite decide_True in H by (vm_compute; discriminate).
  destruct H as (cd & cc & _ & Hc & _ & _ & _ & Hhigh).
  destruct (Hhigh eq_refl ltac:(lia)) as (rd & rc & _ & Hcc & _).
  exists cc, rc. split; [exact Hmap|]. split; [exact Hc|].
  exact Hcc.
Defined.

(** ** [swiotlb_map] *)

Lemma swiotlb_tbl_map_single_some plat dev mem cpu o ms A m dir attrs
    omem' tlb_addr diags copies :
  swiotlb_tbl_map_single plat dev (Some mem) cpu o ms A m dir attrs
    = Ok (omem', tlb_addr, diags, copies) ->
  exists mem', omem' = Some mem'.
Proof.
  unfold swiotlb_tbl_map_single. cbv zeta.
  destruct (nslabs mem =? 0); [intros [= <- _ _ _]; eauto|].
  destruct (A <? ms); [intros [= <- _ _ _]; eauto|].
  destruct (swiotlb_find_slots _ _ _ _ _ _ _) as [[m1 index]| |];
    cbn [rbind]; [|done..].
  destruct (index =? -1); [intros [= <- _ _ _]; eauto|].
  destruct (2 ^ 32 <=? _); [done|].
  destruct (swiotlb_bounce _ _ _ _ _ _) as [[d1 c1]| |]; cbn [rbind];
    [|done..].
  intros [= <- _ _ _]. eauto.
Qed.

Lemma skip_cpu_sync_set attrs :
  Z.land (Z.lor attrs DMA_ATTR_SKIP_CPU_SYNC) DMA_ATTR_SKIP_CPU_SYNC
  = DMA_ATTR_SKIP_CPU_SYNC.
Proof.
  apply Z.bits_inj'. intros k _. rewrite Z.land_spec, Z.lor_spec.
  by destruct (Z.testbit attrs k), (Z.testbit DMA_ATTR_SKIP_CPU_SYNC k).
Qed.

(** X9: [swiotlb_map] either fails without a trace or returns a reachable
    bounce address.  On a well-formed pool in locked mode, when
    [swiotlb_map] reports the mapping-error value the bitmap and the
    areas' used counts are as before the call, also on the path where a
    bounce buffer had been claimed and the device turned out unable to
    reach it: that buffer is released without a copy back.  Otherwise the
    address returned is the bus address of a bounce buffer inside the pool
    that the device can reach, and the pool is the one
    [swiotlb_tbl_map_single] left. *)
Theorem X9_swiotlb_map_outcomes dl plat dev mem cpu paddr size dir attrs
    omem' addr diags copies notes :
  pool_inv mem -> pool_addr_ok mem ->
  swiotlb_lockless_mode plat = false ->
  0 <= paddr < 2 ^ 64 -> 0 <= size -> size + IO_TLB_SIZE <= 2 ^ 64 ->
  swiotlb_map dl plat dev (Some mem) cpu paddr size dir attrs
    = Ok (omem', addr, diags, copies, notes) ->
  exists mem',
    omem' = Some mem' /\ pool_inv mem' /\
    ((addr = DMA_MAPPING_ERROR /\
      (forall j, test_bit mem' j = test_bit mem j) /\
      (forall b, 0 <= b < nareas mem ->
         used (area_at mem' b) = used (area_at mem b)) /\
      Forall (fun c => copy_dir c = DMA_TO_DEVICE) copies /\
      (notes = [] \/ exists bus, notes = [WarnAddrOverflow bus size])) \/
     (exists tlb_addr,
        swiotlb_tbl_map_single plat dev (Some mem) cpu paddr size size 0
          dir attrs = Ok (Some mem', tlb_addr, diags, copies) /\
        start mem <= tlb_addr < start mem + nslabs mem * IO_TLB_SIZE /\
        addr = phys_to_dma_unencrypted dev tlb_addr /\
        dma_capable dl addr size = true)).
Proof.
  intros Hinv Haddr Hl Hp Hsz Hw. unfold swiotlb_map.
  destruct (swiotlb_tbl_map_single _ _ _ _ _ _ _ _ _ _)
    as [[[[om1 tlb] d1] c1]| |] eqn:Hmap; cbn [rbind]; [|done..].
  destruct (swiotlb_tbl_map_single_some _ _ _ _ _ _ _ _ _ _ _ _ _ _ Hmap)
    as (mem1 & ->).
  pose proof (pool_inv_map_single _ _ _ _ _ _ _ _ _ _ _ _ _ _ Hinv Hmap)
    as [Hinv1 Hsh1].
  assert (Forall (fun c => copy_dir c = DMA_TO_DEVICE) c1) as Hdir1.
  { apply swiotlb_tbl_map_single_find in Hmap. cbv zeta in Hmap.
    destruct Hmap as [(_ & _ & -> & _)|(m1 & index & _ & _ &
      [(_ & _ & _ & ->)|(_ & _ & _ & _ & dd & Hb)])]; [done..|].
    revert Hb. unfold swiotlb_bounce. cbv zeta.
    destruct (_ =? INVALID_PHYS_ADDR); [by intros [= _ <-]|].
    destruct (_ <? swiotlb_align_offset _ _); [by intros [= _ <-]|].
    match goal with |- context [if ?c then Ok ([WarnOverflowOffset], []) else _]
      => destruct c; [by intros [= _ <-]|] end.
    match goal with |- context [bounce_copy ?p ?d ?f ?v ?o ?s] =>
      destruct (bounce_copy_spec p d f v o s) as (cs & -> & _ & Hd & _)
    end.
    cbn [rbind]. by intros [= _ <-]. }
  destruct (swiotlb_tbl_map_single_view _ _ _ _ _ _ _ _ _ _ _ _ _ _
              Hinv Haddr Hp Hsz Hw Hmap)
    as [(-> & -> & Hm)|(Hne & mem0 & a & index & Hfrom & _ & _ & Ha & Hin
                        & Hok & Hnn & Hn & _ & Hmem1 & Htlb)].
  { rewrite Z.eqb_refl. intros [= <- <- <- <- <-].
    exists mem1. split; [done|]. split; [done|]. left.
    rewrite (Hm Hl). split_and!; auto. }
  destruct (Z.eqb_spec tlb DMA_MAPPING_ERROR); [done|].
  destruct Hfrom as [->|(Hl' & _)]; [|congruence].
  destruct (dma_capable dl (phys_to_dma_unencrypted dev tlb) size) eqn:Hcap;
    cbn [negb].
  - intros [= <- <- <- <- <-]. exists mem1. split; [done|].
    split; [done|]. right. exists tlb. split; [done|].
    split; [|done].
    destruct (candidate_run dev mem a paddr
                (size + swiotlb_align_offset dev paddr) 0 index Hinv Ha Hin
                Hok) as (_ & Hidx & Hend0 & _).
    rewrite Hnn in Hend0.
    pose proof (swiotlb_align_offset_range dev paddr).
    destruct Haddr as (? & ? & ?).
    rewrite Htlb. unfold IO_TLB_SIZE, IO_TLB_SHIFT in *. nia.
  - destruct (claimed_release_restores plat dev mem a paddr size 0 index _
                cpu Hinv Haddr Ha Hsz Hw Hin Hok Hnn Hn (Z.le_refl _) Hl)
      as (mem2 & Hrelease & _ & Hinv2 & Hbits & _ & Hareas).
    cbv zeta in Hrelease. rewrite <- Hmem1, <- Htlb in Hrelease.
    unfold swiotlb_tbl_unmap_single. cbv zeta.
    rewrite skip_cpu_sync_set.
    change (DMA_ATTR_SKIP_CPU_SYNC =? 0) with false.
    cbn [andb rbind]. rewrite Hrelease. cbn [rbind].
    intros [= <- <- <- <- <-]. exists mem2. split; [done|].
    split; [done|]. left. rewrite !app_nil_r. split_and!; try done.
    + intros b Hb. by apply Hareas.
    + right. eauto.
Qed.

Lemma X9_swiotlb_map_outcomes_witness :
  exists mem' diags copies notes,
    swiotlb_map (DmaLayer (fun _ _ => false) true) locked_plat plain_dev
      (Some pool_1x128) 0 4096 100 DMA_TO_DEVICE 0
      = Ok (Some mem', DMA_MAPPING_ERROR, diags, copies, notes) /\
    forall j, test_bit mem' j = test_bit pool_1x128 j.
Proof.
  eexists _, _, _, _.
  eassert (swiotlb_map (DmaLayer (fun _ _ => false) true) locked_plat
             plain_dev (Some pool_1x128) 0 4096 100 DMA_TO_DEVICE 0
           = Ok (Some _, DMA_MAPPING_ERROR, _, _, _)) as Hmap
    by (vm_compute; reflexivity).
  split; [exact Hmap|].
  assert (0 <= 4096 < 2 ^ 64) as H1 by lia.
  assert (100 + IO_TLB_SIZE <= 2 ^ 64) as H2 by (vm_compute; discriminate).
  assert (0 <= 100) as H0 by lia.
  destruct (X9_swiotlb_map_outcomes _ _ _ _ _ _ _ _ _ _ _ _ _ _
              pool_inv_1x128 pool_addr_ok_1x128
              (eq_refl : swiotlb_lockless_mode locked_plat = false)
              H1 H0 H2
              Hmap)
    as (mem' & [= <-] & _ & [(_ & Hbits & _)|(tlb & _ & _ & He & Hc)]).
  - exact Hbits.
  - discriminate Hc.
Defined.

(** ** The largest mapping *)

(** X7: a request within [swiotlb_max_mapping_size] fits one segment.
    For a device whose minimum-alignment mask is below the size of a
    segment, a mapping of at most [swiotlb_max_mapping_size] bytes needs,
    once the alignment offset of its original address is added, at most
    [IO_TLB_SEGSIZE] units, whatever the original address. *)
Theorem X7_max_mapping_fits_segment dev o size :
  0 <= dma_get_min_align_mask dev < IO_TLB_SIZE * IO_TLB_SEGSIZE ->
  0 <= size <= swiotlb_max_mapping_size dev ->
  nr_slots (size + swiotlb_align_offset dev o) <= IO_TLB_SEGSIZE /\
  swiotlb_max_mapping_size dev <= IO_TLB_SIZE * IO_TLB_SEGSIZE.
Proof.
  unfold swiotlb_max_mapping_size, roundup. cbv zeta.
  pose proof (swiotlb_align_offset_range dev o) as Hoff.
  set (mask := dma_get_min_align_mask dev) in *.
  unfold IO_TLB_SIZE, IO_TLB_SHIFT, IO_TLB_SEGSIZE in *.
  intros Hmask. rewrite (s32_small mask) by lia.
  destruct (Z.eqb_spec mask 0) as [H0|H0].
  - rewrite u64_small by lia. intros Hsize.
    assert (swiotlb_align_offset dev o = 0) as ->.
    { unfold swiotlb_align_offset. fold mask. rewrite H0.
      by rewrite Z.land_0_r. }
    split; [|lia]. unfold nr_slots, IO_TLB_SIZE, IO_TLB_SHIFT.
    rewrite u64_small by lia.
    apply Z.lt_succ_r, Z.div_lt_upper_bound; lia.
  - rewrite (s32_small (mask + (2 ^ 11 - 1))) by lia.
    rewrite Z.quot_div_nonneg by lia.
    pose proof (Z.div_mod (mask + (2 ^ 11 - 1)) (2 ^ 11) ltac:(lia)).
    pose proof (Z.mod_pos_bound (mask + (2 ^ 11 - 1)) (2 ^ 11) ltac:(lia)).
    rewrite (s32_small (_ `div` _ * _)) by lia.
    rewrite s32_small by lia. rewrite u64_small by lia. intros Hsize.
    split; [|lia]. unfold nr_slots, IO_TLB_SIZE, IO_TLB_SHIFT.
    rewrite u64_small by lia.
    apply Z.lt_succ_r, Z.div_lt_upper_bound; lia.
Qed.

Lemma X7_max_mapping_fits_segment_witness :
  nr_slots (swiotlb_max_mapping_size nvme_dev
            + swiotlb_align_offset nvme_dev 4095) <= IO_TLB_SEGSIZE.
Proof.
  apply (X7_max_mapping_fits_segment nvme_dev 4095
           (swiotlb_max_mapping_size nvme_dev)).
  - vm_compute. split; [discriminate | reflexivity].
  - vm_compute. split; discriminate.
Defined.

(** ** The units in use *)

Lemma mem_used_prefix mem (k : nat) :
  pool_inv mem -> Z.of_nat k <= nareas mem ->
  foldl (fun acc i => u64 (acc + used (area_at mem i))) 0
        (seqZ 0 (Z.of_nat k))
  + free_below mem (Z.of_nat k) = Z.of_nat k * area_nslabs mem /\
  0 <= foldl (fun acc i => u64 (acc + used (area_at mem i))) 0
         (seqZ 0 (Z.of_nat k)).
Proof.
  intros Hinv. unfold free_below.
  pose proof (inv_small mem Hinv) as Hsmall.
  pose proof (inv_nslabs mem Hinv) as Hns.
  pose proof (inv_area_nslabs mem Hinv) as Han.
  induction k as [|k IH]; intros Hk; [done|].
  rewrite Nat2Z.inj_succ, <- Z.add_1_r.
  rewrite seqZ_app by lia. rewrite !foldl_app.
  change (seqZ (0 + Z.of_nat k) 1) with [0 + Z.of_nat k].
  cbn [foldl]. rewrite Z.add_0_l.
  destruct (IH ltac:(lia)) as [IH1 IH0].
  destruct (inv_used mem Hinv (Z.of_nat k) ltac:(lia)) as [Hu0 Hu].
  assert (forall l : list Z, 0 <= foldl (fun acc a =>
            acc + Z.of_nat (length (free_slots (area_at mem a)))) 0 l)
    as Hnn.
  { intros l. induction l as [|x l IHl] using rev_ind; [done|].
    rewrite foldl_app. cbn [foldl]. lia. }
  specialize (Hnn (seqZ 0 (Z.of_nat k))).
  rewrite u64_small by nia. split; [nia | lia].
Qed.

(** X8: used and free add up to the pool.  On a well-formed pool the
    count returned by [mem_used], the sum of the areas' used counters,
    plus the number of units on the areas' free lists is the number of
    units of the pool; the sum never wraps. *)
Theorem X8_mem_used_complement mem :
  pool_inv mem ->
  mem_used mem + free_below mem (nareas mem) = nslabs mem /\
  0 <= mem_used mem <= nslabs mem.
Proof.
  intros Hinv. unfold mem_used.
  pose proof (inv_nareas mem Hinv) as Hna.
  destruct (mem_used_prefix mem (Z.to_nat (nareas mem)) Hinv ltac:(lia))
    as [H1 H0].
  rewrite Z2Nat.id in H1, H0 by lia.
  rewrite (inv_nslabs mem Hinv). split; [done|]. split; [done|].
  assert (0 <= free_below mem (nareas mem)); [|lia].
  unfold free_below. generalize (seqZ 0 (nareas mem)). intros l.
  induction l as [|x l IHl] using rev_ind; [done|].
  rewrite foldl_app. cbn [foldl]. lia.
Qed.

Lemma X8_mem_used_complement_witness :
  mem_used mapped_1x128 + free_below mapped_1x128 (nareas mapped_1x128)
    = nslabs mapped_1x128.
Proof.
  apply X8_mem_used_complement.
  eapply (pool_inv_map_single locked_plat plain_dev pool_1x128 0 4096 100
            100 0 DMA_TO_DEVICE 0);
    [apply pool_inv_init, geometry_ok_128_1 | vm_compute; reflexivity].
Defined.

(** ** Syncing *)

(** X13: a sync copies one way only.  [swiotlb_sync_single_for_device]
    returns for every direction but [DMA_NONE], for which its [BUG_ON]
    fires; what it copies goes towards the pool, and it copies nothing for
    [DMA_FROM_DEVICE].  [swiotlb_sync_single_for_cpu] is the mirror image:
    what it copies goes back to the original buffer, and it copies nothing
    for [DMA_TO_DEVICE]. *)
Theorem X13_sync_one_way plat dev mem tlb_addr size dir :
  match dir with
  | DMA_NONE =>
    swiotlb_sync_single_for_device plat dev mem tlb_addr size dir = Bug /\
    swiotlb_sync_single_for_cpu plat dev mem tlb_addr size dir = Bug
  | _ =>
    exists d1 c1 d2 c2,
      swiotlb_sync_single_for_device plat dev mem tlb_addr size dir
        = Ok (d1, c1) /\
      swiotlb_sync_single_for_cpu plat dev mem tlb_addr size dir
        = Ok (d2, c2) /\
      Forall (fun c => copy_dir c = DMA_TO_DEVICE) c1 /\
      Forall (fun c => copy_dir c = DMA_FROM_DEVICE) c2 /\
      (dir = DMA_FROM_DEVICE -> d1 = [] /\ c1 = []) /\
      (dir = DMA_TO_DEVICE -> d2 = [] /\ c2 = [])
  end.
Proof.
  assert (forall way, way = DMA_TO_DEVICE \/ way = DMA_FROM_DEVICE ->
            exists d c,
              swiotlb_bounce plat dev mem tlb_addr size way = Ok (d, c) /\
              Forall (fun c => copy_dir c = way) c) as Hb.
  { intros way Hway. unfold swiotlb_bounce. cbv zeta.
    destruct (_ =? INVALID_PHYS_ADDR); [by eexists _, _|].
    destruct (_ <? swiotlb_align_offset _ _); [by eexists _, _|].
    match goal with |- context [if ?c then Ok ([WarnOverflowOffset], []) else _]
      => destruct c; [by eexists _, _|] end.
    match goal with |- context [bounce_copy ?p ?d ?f ?v ?o ?s] =>
      destruct (bounce_copy_spec p d f v o s) as (copies & -> & _ & Hd & _)
    end.
    cbn [rbind]. eexists _, _. split; [done|].
    by destruct Hway as [-> | ->]. }
  destruct (Hb DMA_TO_DEVICE ltac:(auto)) as (dt & ct & Ht & Hdt).
  destruct (Hb DMA_FROM_DEVICE ltac:(auto)) as (df & cf & Hf & Hdf).
  unfold swiotlb_sync_single_for_device, swiotlb_sync_single_for_cpu.
  destruct dir; [| | |done].
  - exists dt, ct, df, cf. by split_and!.
  - exists dt, ct, [], []. by split_and!.
  - exists [], [], df, cf. by split_and!.
Qed.

(** ** The pool after initialisation *)

Lemma init_free_order (n : nat) mem :
  0 < nareas mem -> 0 < area_nslabs mem ->
  nslabs mem = nareas mem * area_nslabs mem -> nslabs mem < 2 ^ 31 ->
  Z.of_nat (length (areas mem)) = nareas mem ->
  Z.of_nat n <= nslabs mem ->
  (forall a, 0 <= a < nareas mem -> free_slots (area_at mem a) = []) ->
  forall a, 0 <= a < nareas mem ->
    free_slots (area_at (foldl init_slot mem (seqZ 0 (Z.of_nat n))) a)
    = seqZ (a * area_nslabs mem)
        (Z.max 0 (Z.min (area_nslabs mem)
                        (Z.of_nat n - a * area_nslabs mem))).
Proof.
  intros Hna Han Hns Hsmall Hal.
  induction n as [|n IH]; intros Hn Hempty a Ha.
  - cbn [foldl seqZ]. rewrite Hempty by done.
    rewrite Z.max_l; [done|]. nia.
  - rewrite Nat2Z.inj_succ, <- Z.add_1_r.
    rewrite seqZ_app by lia. rewrite foldl_app.
    change (seqZ (0 + Z.of_nat n) 1) with [0 + Z.of_nat n].
    cbn [foldl]. rewrite Z.add_0_l.
    set (memn := foldl init_slot mem (seqZ 0 (Z.of_nat n))) in *.
    destruct (same_shape_foldl init_slot (seqZ 0 (Z.of_nat n))
                same_shape_init_slot mem)
      as (_ & _ & Hnan & Hann & _ & _ & Haln).
    fold memn in Hnan, Hann, Haln.
    rewrite area_at_init_slot, Hann, Haln, Hal.
    assert (0 <= Z.of_nat n / area_nslabs mem < nareas mem) as Hq.
    { split; [apply Z.div_pos; lia|].
      apply Z.div_lt_upper_bound; lia. }
    assert (nareas mem < 2 ^ 31) as Hnas by nia.
    rewrite s32_small by lia.
    pose proof (Z.div_mod (Z.of_nat n) (area_nslabs mem) ltac:(lia)) as Hdm.
    pose proof (Z.mod_pos_bound (Z.of_nat n) (area_nslabs mem) ltac:(lia))
      as Hmb.
    specialize (IH ltac:(lia) Hempty).
    case_decide as Hd.
    + destruct Hd as [<- _]. cbn [free_slots]. rewrite IH by done.
      rewrite Z.max_r, Z.min_r by nia. rewrite Z.max_r, Z.min_r by nia.
      replace (Z.of_nat n + 1 - Z.of_nat n / area_nslabs mem * area_nslabs mem)
        with ((Z.of_nat n - Z.of_nat n / area_nslabs mem * area_nslabs mem)
              + 1) by lia.
      rewrite (seqZ_app _ _ 1) by lia. f_equal.
      replace (Z.of_nat n / area_nslabs mem * area_nslabs mem +
               (Z.of_nat n - Z.of_nat n / area_nslabs mem * area_nslabs mem))
        with (Z.of_nat n) by lia.
      done.
    + rewrite IH by done. f_equal.
      assert (a <> Z.of_nat n / area_nslabs mem) as Hne
        by (intros ->; apply Hd; split; [done | lia]).
      destruct (Z.lt_ge_cases a (Z.of_nat n / area_nslabs mem)); nia.
Qed.

Lemma init_state st ns na :
  geometry_ok ns na ->
  init_inv ns (swiotlb_init_io_tlb_mem st ns na) /\
  nareas (swiotlb_init_io_tlb_mem st ns na) = na /\
  nslabs (swiotlb_init_io_tlb_mem st ns na) = ns /\
  area_nslabs (swiotlb_init_io_tlb_mem st ns na) = ns / na /\
  start (swiotlb_init_io_tlb_mem st ns na) = st /\
  forall a, 0 <= a < na ->
    free_slots (area_at (swiotlb_init_io_tlb_mem st ns na) a)
    = seqZ (a * (ns / na)) (ns / na).
Proof.
  intros (Hna & Hns & Hsmall & [k Hk]).
  unfold swiotlb_init_io_tlb_mem. cbv zeta.
  set (mem0 := Mem st ns na (ns / na) _ _ _).
  assert (ns / na = k * IO_TLB_SEGSIZE) as Han.
  { rewrite Hk. replace (k * (IO_TLB_SEGSIZE * na))
      with (k * IO_TLB_SEGSIZE * na) by lia.
    apply Z.div_mul. lia. }
  assert (0 < k) by (unfold IO_TLB_SEGSIZE in *; nia).
  assert (forall a, 0 <= a < na -> area_at mem0 a = empty_area) as Hempty.
  { intros a Ha. unfold area_at. cbn [areas mem0].
    by rewrite zlookup_replicate by lia. }
  destruct (init_loop (Z.to_nat ns) mem0) as [Hinv Hsh];
    cbn [nareas area_nslabs nslabs bitmap slots areas mem0];
    rewrite ?length_replicate, ?Han; unfold IO_TLB_SEGSIZE in *;
    try lia; try nia.
  { split_and!.
    - intros j. unfold test_bit. cbn [bitmap mem0].
      rewrite bool_decide_eq_false_2 by lia.
      destruct (decide (0 <= j < Z.of_nat (Z.to_nat ns))).
      + by rewrite zlookup_replicate.
      + destruct (zlookup _ j) eqn:E; [|done].
        apply zlookup_Some_range in E. rewrite length_replicate in E. lia.
    - intros; lia.
    - intros a Ha. cbn [nareas mem0] in Ha. rewrite Hempty by done. cbn.
      split_and!; try done; [apply NoDup_nil_2|].
      intros i. split; [by intros ?%elem_of_nil | lia]. }
  pose proof (init_free_order (Z.to_nat ns) mem0) as Hord.
  cbn [nareas area_nslabs nslabs areas mem0] in Hord.
  rewrite length_replicate, !Z2Nat.id in Hord by lia.
  rewrite Z2Nat.id in Hinv, Hsh by lia.
  destruct Hsh as (Hst' & Hns' & Hna' & Han' & _).
  cbn [start nslabs nareas area_nslabs mem0] in *.
  split; [done|]. split; [done|]. split; [done|].
  split; [by rewrite Han', Han|]. split; [done|].
  intros a Ha. rewrite Hord; rewrite ?Han; try lia; try nia.
  - f_equal. nia.
  - intros b Hb. by rewrite Hempty.
Qed.

(** X14: initialisation leaves the whole pool free.  For a pool of whole
    segments per area, [swiotlb_init_io_tlb_mem] yields a well-formed pool
    in which every unit has its bit set and carries the free sentinel,
    no unit is counted as used, no reclamation queue holds anything, and
    the free list of each area lists the units of the area in ascending
    order. *)
Theorem X14_init_all_free st ns na :
  geometry_ok ns na ->
  let mem := swiotlb_init_io_tlb_mem st ns na in
  pool_inv mem /\
  (forall j, test_bit mem j = bool_decide (0 <= j < ns)) /\
  (forall j, 0 <= j < ns -> orig_addr (slot_at mem j) = INVALID_PHYS_ADDR) /\
  (forall a, 0 <= a < na ->
     used (area_at mem a) = 0 /\
     free_slots_from_other_cpu (area_at mem a) = [] /\
     free_slots (area_at mem a) = seqZ (a * (ns / na)) (ns / na)) /\
  mem_used mem = 0.
Proof.
  intros Hgeo. cbv zeta.
  pose proof (pool_inv_init st ns na Hgeo) as Hinv.
  destruct (init_state st ns na Hgeo)
    as ((Hbits & Hslots & Hareas) & Hna & Hns & Han & Hst & Hord).
  set (mem := swiotlb_init_io_tlb_mem st ns na) in *.
  split; [done|]. split; [done|]. split; [done|].
  assert (forall a, 0 <= a < na -> used (area_at mem a) = 0) as Hused.
  { intros a Ha. rewrite <- Hna in Ha. by destruct (Hareas a Ha) as (_&_&_&?). }
  split.
  - intros a Ha. split; [by apply Hused|]. split; [|by apply Hord].
    rewrite <- Hna in Ha. by destruct (Hareas a Ha) as (_&_&?&_).
  - unfold mem_used. rewrite Hna.
    assert (forall l : list Z, (forall a, a ∈ l -> 0 <= a < na) ->
              foldl (fun acc i => u64 (acc + used (area_at mem i))) 0 l = 0)
      as Hsum.
    { intros l. induction l as [|x l IHl] using rev_ind; [done|].
      intros Hl. rewrite foldl_app. cbn [foldl].
      rewrite IHl by (intros a Hin; apply Hl, elem_of_app; by left).
      rewrite Hused; [done|]. apply Hl, elem_of_app. right. by left. }
    apply Hsum. intros a Hin%elem_of_seqZ. lia.
Qed.

Lemma X14_init_all_free_witness :
  free_slots (area_at pool_2x128 1) = seqZ (1 * (256 / 2)) (256 / 2) /\
  mem_used pool_2x128 = 0.
Proof.
  destruct (X14_init_all_free (2 ^ 20) 256 2 geometry_ok_256_2)
    as (_ & _ & _ & Hareas & Hused).
  split; [|exact Hused].
  apply (Hareas 1). lia.
Defined.

(** ** Boot-time sizing *)

Lemma is_power_of_2_pow n :
  is_power_of_2 n = true -> 0 < n -> n = 2 ^ Z.log2 n.
Proof.
  unfold is_power_of_2. intros [_ Hland%Z.eqb_eq]%andb_true_iff Hn.
  destruct (Z.log2_spec n Hn) as [Hlo Hhi].
  destruct (decide (n = 2 ^ Z.log2 n)) as [|Hne]; [done|]. exfalso.
  assert (Z.log2 (n - 1) = Z.log2 n) as Hlog.
  { apply Z.log2_unique; [apply Z.log2_nonneg | lia]. }
  assert (Z.testbit (Z.land n (n - 1)) (Z.log2 n) = true) as Hbit.
  { rewrite Z.land_spec, (Z.bit_log2 n Hn). rewrite <- Hlog.
    rewrite Z.bit_log2; [done|].
    pose proof (Z.pow_pos_nonneg 2 (Z.log2 n) ltac:(lia)
                  (Z.log2_nonneg n)). lia. }
  rewrite Hland, Z.bits_0 in Hbit. done.
Qed.

Lemma roundup_pow_of_two_spec n :
  1 <= n <= 2 ^ 62 ->
  roundup_pow_of_two n = 2 ^ Z.log2_up n /\
  n <= roundup_pow_of_two n /\ 0 <= Z.log2_up n <= 62 /\
  (roundup_pow_of_two n = n \/ roundup_pow_of_two n < 2 * n).
Proof.
  intros Hn. unfold roundup_pow_of_two.
  pose proof (Z.log2_up_nonneg n) as H0.
  assert (Z.log2_up n <= 62) as H62.
  { rewrite <- (Z.log2_up_pow2 62) by lia. apply Z.log2_up_le_mono. lia. }
  rewrite Z.shiftl_1_l.
  assert (2 ^ Z.log2_up n <= 2 ^ 62) by (apply Z.pow_le_mono_r; lia).
  rewrite u64_small by lia.
  destruct (decide (n = 1)) as [->|Hn1].
  { change (Z.log2_up 1) with 0. simpl. lia. }
  destruct (Z.log2_up_spec n ltac:(lia)) as [Hlo Hhi].
  split; [done|]. split; [lia|]. split; [lia|]. right.
  replace (Z.log2_up n) with (Z.succ (Z.pred (Z.log2_up n))) at 1 by lia.
  rewrite Z.pow_succ_r; [lia|].
  assert (0 < Z.log2_up n) by (apply Z.log2_up_pos; lia). lia.
Qed.

Lemma pow2_divide x y : 0 <= x -> 0 <= y -> 2 ^ x <= 2 ^ y -> (2 ^ x | 2 ^ y).
Proof.
  intros Hx Hy Hle. apply Z.pow_le_mono_r_iff in Hle; [|lia..].
  exists (2 ^ (y - x)). rewrite <- Z.pow_add_r by lia. f_equal. lia.
Qed.

Lemma is_power_of_2_of_pow k : 0 <= k -> is_power_of_2 (2 ^ k) = true.
Proof.
  intros Hk. unfold is_power_of_2.
  pose proof (Z.pow_pos_nonneg 2 k ltac:(lia) Hk).
  apply andb_true_iff. split; [apply negb_true_iff, Z.eqb_neq; lia|].
  apply Z.eqb_eq. rewrite land_low_mod by done. apply Z.mod_same. lia.
Qed.

(** The configuration after [swiotlb_adjust_nareas]: two powers of two,
    the units at least a segment per area. *)
Lemma swiotlb_adjust_nareas_pow2 n c :
  0 <= n <= 2 ^ 23 -> 0 < default_nslabs c <= 2 ^ 30 ->
  exists a s,
    0 <= a <= 23 /\ 7 + a <= s <= 30 /\
    swiotlb_adjust_nareas n c = BootConfig (2 ^ s) (2 ^ a) /\
    n <= 2 ^ a /\ default_nslabs c <= 2 ^ s.
Proof.
  intros Hn Hns. unfold swiotlb_adjust_nareas. cbv zeta.
  set (na := if n =? 0 then 1 else _).
  assert (exists a, 0 <= a <= 23 /\ na = 2 ^ a /\ n <= na)
    as (a & Ha & Hna & Hle).
  { unfold na. destruct (Z.eqb_spec n 0) as [->|Hn0].
    { exists 0. split; [lia|]. split; [done | lia]. }
    destruct (is_power_of_2 n) eqn:Hp; cbn [negb].
    - apply is_power_of_2_pow in Hp; [|lia].
      exists (Z.log2 n). split; [|split; [done | lia]].
      split; [apply Z.log2_nonneg|].
      rewrite <- (Z.log2_pow2 23) by lia. apply Z.log2_le_mono. lia.
    - destruct (roundup_pow_of_two_spec n ltac:(lia)) as (Heq & Hge & Hr & _).
      assert (Z.log2_up n <= 23).
      { rewrite <- (Z.log2_up_pow2 23) by lia. apply Z.log2_up_le_mono. lia. }
      assert (2 ^ Z.log2_up n <= 2 ^ 23) by (apply Z.pow_le_mono_r; lia).
      exists (Z.log2_up n). rewrite Heq.
      rewrite u32_small by lia. split; [lia|]. split; [done | lia]. }
  clearbody na. subst na. exists a.
  assert (0 < 2 ^ a <= 2 ^ 23) as Hpa.
  { split; [apply Z.pow_pos_nonneg; lia | apply Z.pow_le_mono_r; lia]. }
  assert (IO_TLB_SEGSIZE * 2 ^ a = 2 ^ (7 + a)) as Hseg
    by (rewrite Z.pow_add_r by lia; done).
  unfold round_up_default_nslabs. cbn [default_nareas default_nslabs].
  destruct (Z.eqb_spec (2 ^ a) 0); [lia|].
  assert (2 ^ (7 + a) <= 2 ^ 30) as H30 by (apply Z.pow_le_mono_r; lia).
  rewrite Hseg, (u64_small (2 ^ (7 + a))) by lia.
  destruct (Z.ltb_spec (default_nslabs c) (2 ^ (7 + a))); cbn [fst].
  - destruct (roundup_pow_of_two_spec (2 ^ (7 + a)) ltac:(lia))
      as (Heq & _ & _ & _).
    rewrite Heq, Z.log2_up_pow2 by lia.
    exists (7 + a). split; [done|]. split; [lia|]. split; [done|]. lia.
  - destruct (is_power_of_2 (default_nslabs c)) eqn:Hp; cbn [fst].
    + pose proof (is_power_of_2_pow _ Hp ltac:(lia)) as Heq.
      assert (0 <= Z.log2 (default_nslabs c) <= 30).
      { split; [apply Z.log2_nonneg|].
        rewrite <- (Z.log2_pow2 30) by lia. apply Z.log2_le_mono. lia. }
      exists (Z.log2 (default_nslabs c)). rewrite <- Heq.
      split; [done|]. split; [|split; [done | lia]].
      split; [|lia]. rewrite Heq in H.
      apply Z.pow_le_mono_r_iff in H; lia.
    + destruct (roundup_pow_of_two_spec (default_nslabs c) ltac:(lia))
        as (Heq & Hge & _ & _).
      assert (Z.log2_up (default_nslabs c) <= 30).
      { rewrite <- (Z.log2_up_pow2 30) by lia.
        apply Z.log2_up_le_mono. lia. }
      pose proof (Z.log2_up_nonneg (default_nslabs c)).
      exists (Z.log2_up (default_nslabs c)). rewrite Heq in *.
      split; [done|]. split; [|split; [done | lia]].
      split; [|lia].
      assert (2 ^ (7 + a) <= 2 ^ Z.log2_up (default_nslabs c)) as Hle' by lia.
      apply Z.pow_le_mono_r_iff in Hle'; lia.
Qed.

(** X10: the boot-time rounding yields whole segments per area.  Whatever
    number of areas is asked for (up to 2^23) and whatever the default
    number of units was (up to 2^30), after [swiotlb_adjust_nareas] the
    number of areas is a power of two not below the request, the number of
    units is a power of two not below its former value, and every area
    holds a whole number of segments: the configuration is one the
    initialisation accepts. *)
Theorem X10_boot_geometry n c :
  0 <= n <= 2 ^ 23 -> 0 < default_nslabs c <= 2 ^ 30 ->
  let c' := swiotlb_adjust_nareas n c in
  geometry_ok (default_nslabs c') (default_nareas c') /\
  n <= default_nareas c' /\ default_nslabs c <= default_nslabs c' /\
  is_power_of_2 (default_nareas c') = true /\
  is_power_of_2 (default_nslabs c') = true.
Proof.
  intros Hn Hns. cbv zeta.
  destruct (swiotlb_adjust_nareas_pow2 n c Hn Hns)
    as (a & s & Ha & Hs & -> & Hcover & Hgrow).
  cbn [default_nslabs default_nareas].
  assert (0 < 2 ^ a) by (apply Z.pow_pos_nonneg; lia).
  assert (0 < 2 ^ s <= 2 ^ 30)
    by (split; [apply Z.pow_pos_nonneg; lia | apply Z.pow_le_mono_r; lia]).
  split; [|split; [done|]; split; [done|];
           split; apply is_power_of_2_of_pow; lia].
  unfold geometry_ok. split; [done|]. split; [lia|]. split; [lia|].
  replace (IO_TLB_SEGSIZE * 2 ^ a) with (2 ^ (7 + a))
    by (rewrite Z.pow_add_r by lia; done).
  apply pow2_divide; [lia..|]. apply Z.pow_le_mono_r; lia.
Qed.

Lemma X10_boot_geometry_witness :
  geometry_ok
    (default_nslabs (swiotlb_adjust_nareas 6 (BootConfig 1000 0)))
    (default_nareas (swiotlb_adjust_nareas 6 (BootConfig 1000 0))) /\
  swiotlb_adjust_nareas 6 (BootConfig 1000 0) = BootConfig 1024 8.
Proof.
  split; [|vm_compute; reflexivity].
  apply (X10_boot_geometry 6 (BootConfig 1000 0)).
  - lia.
  - cbn. lia.
Defined.

(** X16: the value returned by [round_up_default_nslabs] tells whether it
    changed the number of units.  The function returns true exactly when
    the default number of units after the call differs from the one
    before; it never lowers that number and never touches the number of
    areas. *)
Theorem X16_round_up_flag c :
  0 < default_nslabs c <= 2 ^ 62 -> 0 <= default_nareas c <= 2 ^ 55 ->
  let r := round_up_default_nslabs c in
  (snd r = true <-> default_nslabs (fst r) <> default_nslabs c) /\
  default_nareas (fst r) = default_nareas c /\
  default_nslabs c <= default_nslabs (fst r).
Proof.
  intros Hns Hna. cbv zeta. unfold round_up_default_nslabs.
  destruct (Z.eqb_spec (default_nareas c) 0); cbn [fst snd].
  { split; [split; [done | intros Hd; by destruct Hd]|]. split; [done | lia]. }
  unfold IO_TLB_SEGSIZE. rewrite u64_small by lia.
  destruct (Z.ltb_spec (default_nslabs c) (128 * default_nareas c));
    cbn [fst snd default_nslabs default_nareas].
  - destruct (roundup_pow_of_two_spec (128 * default_nareas c) ltac:(lia))
      as (_ & Hge & _ & _).
    split; [split; [lia | done]|]. split; [done | lia].
  - destruct (is_power_of_2 (default_nslabs c)) eqn:Hp;
      cbn [fst snd default_nslabs default_nareas].
    + split; [split; [done | intros Hd; by destruct Hd]|]. split; [done | lia].
    + destruct (roundup_pow_of_two_spec (default_nslabs c) ltac:(lia))
        as (Heq & Hge & Hr & _).
      split; [|split; [done | lia]]. split; [|done]. intros _ Hsame.
      rewrite <- Hsame, Heq, is_power_of_2_of_pow in Hp by lia. done.
Qed.

Lemma X16_round_up_flag_witness :
  round_up_default_nslabs (BootConfig 1000 4) = (BootConfig 1024 4, true) /\
  (snd (round_up_default_nslabs (BootConfig 1000 4)) = true <->
   default_nslabs (fst (round_up_default_nslabs (BootConfig 1000 4)))
   <> default_nslabs (BootConfig 1000 4)).
Proof.
  split; [vm_compute; reflexivity|].
  apply (X16_round_up_flag (BootConfig 1000 4)); cbn; lia.
Defined.

(** ** The pool set up at boot *)

Lemma ALIGN_segment x :
  0 <= x < 2 ^ 63 ->
  ALIGN x IO_TLB_SEGSIZE = (x + 127) / 128 * 128.
Proof.
  intros Hx. unfold ALIGN, IO_TLB_SEGSIZE.
  rewrite u64_small by lia.
  change (128 - 1) with (Z.ones 7).
  rewrite <- Z.ldiff_land, Z.ldiff_ones_r by lia.
  rewrite Z.shiftl_mul_pow2, Z.shiftr_div_pow2 by lia. done.
Qed.

Lemma halve_pow2 j :
  10 <= j <= 62 ->
  ALIGN (Z.shiftr (2 ^ j) 1) IO_TLB_SEGSIZE = 2 ^ (j - 1).
Proof.
  intros Hj. rewrite Z.shiftr_div_pow2 by lia.
  replace (2 ^ j) with (2 ^ (j - 1) * 2 ^ 1)
    by (rewrite <- Z.pow_add_r by lia; f_equal; lia).
  rewrite Z.div_mul by lia.
  assert (0 < 2 ^ (j - 1) <= 2 ^ 61)
    by (split; [apply Z.pow_pos_nonneg; lia | apply Z.pow_le_mono_r; lia]).
  rewrite ALIGN_segment by lia.
  replace (2 ^ (j - 1)) with (2 ^ (j - 8) * 128)
    by (change 128 with (2 ^ 7); rewrite <- Z.pow_add_r by lia; f_equal; lia).
  rewrite Z.div_add_l by lia. rewrite (Z.div_small 127 128) by lia. lia.
Qed.

(** The retry loop on a power of two: it ends, and what it obtains is a
    power of two, the size first asked for or a smaller one that is still
    at least [IO_TLB_MIN_SLABS]. *)
Lemma memblock_retry_pow2 env fuel : forall j,
  0 <= j <= 62 -> (Z.to_nat j < fuel)%nat ->
  memblock_retry fuel env (2 ^ j) = Ok None \/
  exists tlb i,
    memblock_retry fuel env (2 ^ j) = Ok (Some (tlb, 2 ^ i)) /\
    swiotlb_memblock_alloc env (2 ^ i) = Some tlb /\
    0 <= i <= j /\ (i = j \/ IO_TLB_MIN_SLABS <= 2 ^ i).
Proof.
  induction fuel as [|fuel IH]; intros j Hj Hfuel; [lia|].
  cbn [memblock_retry].
  destruct (swiotlb_memblock_alloc env (2 ^ j)) as [tlb|] eqn:Halloc.
  { right. exists tlb, j. split; [done|]. split; [done|]. lia. }
  change IO_TLB_MIN_SLABS with (2 ^ 9).
  destruct (Z.leb_spec (2 ^ j) (2 ^ 9)) as [Hle|Hgt]; [by left|].
  assert (10 <= j).
  { destruct (decide (10 <= j)); [done|].
    assert (2 ^ j <= 2 ^ 9) by (apply Z.pow_le_mono_r; lia). lia. }
  rewrite halve_pow2 by lia.
  destruct (IH (j - 1) ltac:(lia) ltac:(lia))
    as [->|(tlb & i & -> & Ha & Hi & Hmin)]; [by left|].
  right. exists tlb, i. split; [done|]. split; [done|]. split; [lia|].
  right. destruct Hmin as [->|Hmin]; [|done].
  change IO_TLB_MIN_SLABS with (2 ^ 9). apply Z.pow_le_mono_r; lia.
Qed.

Lemma area_nslabs_init st ns na :
  area_nslabs (swiotlb_init_io_tlb_mem st ns na) = ns / na.
Proof.
  unfold swiotlb_init_io_tlb_mem. cbv zeta.
  match goal with |- area_nslabs (foldl _ ?m0 ?l) = _ =>
    destruct (same_shape_foldl init_slot l same_shape_init_slot m0)
      as (_ & _ & _ & -> & _) end.
  done.
Qed.

Lemma pool_inv_init_iff st i a :
  0 <= i <= 30 -> 0 <= a ->
  pool_inv (swiotlb_init_io_tlb_mem st (2 ^ i) (2 ^ a)) <->
  IO_TLB_SEGSIZE * 2 ^ a <= 2 ^ i.
Proof.
  intros Hi Ha.
  assert (0 < 2 ^ a) by (apply Z.pow_pos_nonneg; lia).
  assert (0 < 2 ^ i <= 2 ^ 30)
    by (split; [apply Z.pow_pos_nonneg; lia | apply Z.pow_le_mono_r; lia]).
  assert (IO_TLB_SEGSIZE * 2 ^ a = 2 ^ (7 + a)) as Hseg
    by (rewrite Z.pow_add_r by lia; done).
  split.
  - intros Hinv. pose proof (inv_seg _ Hinv) as [q Hq].
    pose proof (inv_area_nslabs _ Hinv) as Hpos.
    rewrite area_nslabs_init in Hq, Hpos.
    pose proof (Z.mul_div_le (2 ^ i) (2 ^ a) ltac:(lia)).
    unfold IO_TLB_SEGSIZE in *.
    assert (128 <= 2 ^ i `div` 2 ^ a) as Hd by lia.
    apply (Z.mul_le_mono_nonneg_l _ _ (2 ^ a)) in Hd; lia.
  - intros Hle. apply pool_inv_init. unfold geometry_ok.
    split; [lia|]. split; [lia|]. split; [lia|].
    rewrite Hseg in *. apply pow2_divide; lia.
Qed.

Lemma geometry_ok_no_division_by_zero ns na :
  geometry_ok ns na -> init_divides_by_zero ns na = false.
Proof.
  intros (Hna & Hns & _ & [q Hq]). unfold init_divides_by_zero.
  destruct (Z.eqb_spec na 0); [lia|]. cbn [orb].
  destruct (Z.eqb_spec (ns / na) 0) as [Hz|]; [|apply andb_false_r].
  apply Z.div_small_iff in Hz; [|lia].
  unfold IO_TLB_SEGSIZE in *.
  assert (1 <= q) by nia. nia.
Qed.

Lemma init_divides_by_zero_pow2 i a :
  0 <= i -> 0 <= a ->
  init_divides_by_zero (2 ^ i) (2 ^ a) = true <-> 2 ^ i < 2 ^ a.
Proof.
  intros Hi Ha.
  assert (0 < 2 ^ i) by (apply Z.pow_pos_nonneg; lia).
  assert (0 < 2 ^ a) by (apply Z.pow_pos_nonneg; lia).
  unfold init_divides_by_zero.
  destruct (Z.eqb_spec (2 ^ a) 0); [lia|]. cbn [orb].
  destruct (Z.ltb_spec 0 (2 ^ i)); [|lia]. cbn [andb].
  rewrite Z.eqb_eq, Z.div_small_iff by lia. lia.
Qed.

(** X20: what [swiotlb_init_remap] sets up.  When no number of areas was
    configured, [swiotlb_init_remap] always ends.  It ends fatally in two
    cases only: the panic on a failed bitmap allocation, and the division
    by zero inside the initialisation when the allocator, after the
    request was halved, granted fewer units than there are areas.  When
    it initialises the pool, the numbers of units and of areas are powers
    of two, the number of areas covers the possible processors and is not
    above the number of units, the allocator granted that number of
    units, and the pool is well formed exactly when every area got at
    least one segment: always when the allocator granted the first
    request, and after a fallback to a smaller size only if that size
    still holds [IO_TLB_SEGSIZE] units per area. *)
Theorem X20_init_remap_outcomes env addressing_limit st :
  0 < default_nslabs (boot_defaults st) <= 2 ^ 30 ->
  default_nareas (boot_defaults st) = 0 ->
  0 <= num_possible_cpus env <= 2 ^ 23 ->
  let c := swiotlb_adjust_nareas (u32 (num_possible_cpus env))
             (boot_defaults st) in
  match swiotlb_init_remap env addressing_limit st with
  | OutOfFuel => False
  | Bug =>
    alloc_bitmap_ok env = false \/
    exists tlb ns,
      swiotlb_memblock_alloc env ns = Some tlb /\
      ns < default_nslabs c /\ ns < default_nareas c
  | Ok st' =>
    io_tlb_default_mem st' = io_tlb_default_mem st \/
    exists tlb,
      let ns := default_nslabs (boot_defaults st') in
      let na := default_nareas (boot_defaults st') in
      swiotlb_memblock_alloc env ns = Some tlb /\
      io_tlb_default_mem st' = swiotlb_init_io_tlb_mem tlb ns na /\
      is_power_of_2 ns = true /\ is_power_of_2 na = true /\
      num_possible_cpus env <= na /\ na = default_nareas c /\
      na <= ns /\ ns <= default_nslabs c /\
      (pool_inv (io_tlb_default_mem st') <-> IO_TLB_SEGSIZE * na <= ns) /\
      (ns = default_nslabs c -> pool_inv (io_tlb_default_mem st'))
  end.
Proof.
  intros Hns Hna0 Hcpus. cbv zeta. unfold swiotlb_init_remap.
  destruct (negb addressing_limit && negb (swiotlb_force_bounce st));
    [by left|].
  destruct (swiotlb_force_disable st); [by left|].
  cbv zeta. rewrite Hna0. change (0 =? 0) with true. cbv iota.
  rewrite (u32_small (num_possible_cpus env)) by lia.
  destruct (swiotlb_adjust_nareas_pow2 (num_possible_cpus env)
              (boot_defaults st) ltac:(lia) Hns)
    as (a & s & Ha & Hs & -> & Hcover & Hgrow).
  cbn [default_nslabs default_nareas].
  assert (s < 2 ^ s) as Hlin by (apply Z.pow_gt_lin_r; lia).
  assert (0 < 2 ^ s) by (apply Z.pow_pos_nonneg; lia).
  destruct (memblock_retry_pow2 env (S (Z.to_nat (2 ^ s))) s
              ltac:(lia) ltac:(lia))
    as [->|(tlb & i & -> & Halloc & Hi & Hmin)];
    cbn [rbind]; [by left|].
  destruct (negb (alloc_slots_ok env) || negb (alloc_areas_ok env));
    [by left|].
  destruct (alloc_bitmap_ok env); cbn [negb]; [|by left].
  assert ((if negb (2 ^ s =? 2 ^ i)
           then BootConfig (2 ^ i) (2 ^ a) else BootConfig (2 ^ s) (2 ^ a))
          = BootConfig (2 ^ i) (2 ^ a)) as ->.
  { destruct (Z.eqb_spec (2 ^ s) (2 ^ i)) as [He|]; [|done].
    cbn [negb]. by rewrite He. }
  cbn [default_nslabs default_nareas].
  assert (2 ^ i <= 2 ^ s) by (apply Z.pow_le_mono_r; lia).
  assert (2 ^ (7 + a) <= 2 ^ s) as Hseg by (apply Z.pow_le_mono_r; lia).
  assert (2 ^ (7 + a) = 128 * 2 ^ a) as Hseg'
    by (rewrite Z.pow_add_r by lia; done).
  assert (0 < 2 ^ a) by (apply Z.pow_pos_nonneg; lia).
  destruct (init_divides_by_zero (2 ^ i) (2 ^ a)) eqn:Htrap.
  { right. exists tlb, (2 ^ i).
    apply init_divides_by_zero_pow2 in Htrap; [|lia..].
    split; [done|]. lia. }
  assert (2 ^ a <= 2 ^ i) as Hfit.
  { destruct (decide (2 ^ a <= 2 ^ i)) as [|Hno]; [done|].
    assert (init_divides_by_zero (2 ^ i) (2 ^ a) = true); [|congruence].
    apply init_divides_by_zero_pow2; lia. }
  right. exists tlb. cbv zeta. cbn [boot_defaults io_tlb_default_mem].
  cbn [default_nslabs default_nareas].
  split; [done|]. split; [done|].
  split; [apply is_power_of_2_of_pow; lia|].
  split; [apply is_power_of_2_of_pow; lia|].
  split; [done|]. split; [done|]. split; [done|]. split; [lia|].
  split; [apply pool_inv_init_iff; lia|].
  intros Heq. apply pool_inv_init_iff; [lia..|].
  rewrite Heq. unfold IO_TLB_SEGSIZE. lia.
Qed.

Lemma X20_init_remap_outcomes_witness :
  (exists st',
     swiotlb_init_remap tight_env true fresh_boot = Ok st' /\
     boot_defaults st' = BootConfig 512 8 /\
     io_tlb_default_mem st' = swiotlb_init_io_tlb_mem (2 ^ 20) 512 8 /\
     (pool_inv (io_tlb_default_mem st') <-> IO_TLB_SEGSIZE * 8 <= 512)) /\
  swiotlb_init_remap crowded_env true fresh_boot = Bug /\
  exists tlb ns,
    swiotlb_memblock_alloc crowded_env ns = Some tlb /\ ns < 1024.
Proof.
  split.
  - pose proof (X20_init_remap_outcomes tight_env true fresh_boot) as H.
    cbv zeta in H.
    specialize (H ltac:(vm_compute; split; [reflexivity | discriminate])
                  eq_refl
                  ltac:(vm_compute; split; discriminate)).
    destruct (swiotlb_init_remap tight_env true fresh_boot) as [st'| |] eqn:E;
      [|discriminate E..].
    exists st'. split; [reflexivity|].
    assert (boot_defaults st' = BootConfig 512 8) as Hc
      by (apply Ok_inj in E; subst st'; vm_compute; reflexivity).
    assert (io_tlb_default_mem st' = swiotlb_init_io_tlb_mem (2 ^ 20) 512 8)
      as Hm by (apply Ok_inj in E; subst st'; vm_compute; reflexivity).
    split; [exact Hc|]. split; [exact Hm|].
    destruct H as [Hsame|(tlb & _ & _ & _ & _ & _ & _ & _ & _ & Hiff & _)].
    + rewrite Hm in Hsame. vm_compute in Hsame. discriminate Hsame.
    + rewrite Hc in Hiff. exact Hiff.
  - pose proof (X20_init_remap_outcomes crowded_env true fresh_boot) as H.
    cbv zeta in H.
    specialize (H ltac:(vm_compute; split; [reflexivity | discriminate])
                  eq_refl
                  ltac:(vm_compute; split; discriminate)).
    assert (swiotlb_init_remap crowded_env true fresh_boot = Bug) as E
      by (vm_compute; reflexivity).
    split; [exact E|]. rewrite E in H.
    destruct H as [Hbit|(tlb & ns & Halloc & _ & Hlt)];
      [discriminate Hbit|].
    exists tlb, ns. split; [exact Halloc|].
    assert (default_nareas
              (swiotlb_adjust_nareas (u32 (num_possible_cpus crowded_env))
                 (boot_defaults fresh_boot)) = 1024) as Hna
      by (vm_compute; reflexivity).
    rewrite Hna in Hlt. exact Hlt.
Defined.

(** ** Reclamation in lockless mode *)

Lemma pool_inv_other_le_used mem a :
  pool_inv mem -> 0 <= a < nareas mem ->
  Z.of_nat (length (free_slots_from_other_cpu (area_at mem a)))
    <= used (area_at mem a).
Proof.
  intros Hinv Ha.
  destruct (inv_used mem Hinv a Ha) as [Hu0 Hu].
  pose proof (inv_area_nslabs mem Hinv) as Hpos.
  pose proof (NoDup_range_length
    (free_slots_from_other_cpu (area_at mem a) ++ free_slots (area_at mem a))
    (a * area_nslabs mem) (area_nslabs mem)) as HL.
  rewrite length_app, Z.max_r in HL by lia.
  assert (Z.of_nat (length (free_slots_from_other_cpu (area_at mem a))
                    + length (free_slots (area_at mem a)))
          <= area_nslabs mem); [|lia].
  apply HL.
  - apply NoDup_app. split; [by apply Hinv|]. split; [|by apply Hinv].
    intros x Hx Hx'.
    apply (inv_other_in mem Hinv a x Ha) in Hx as [_ Hx].
    apply (inv_free_iff mem Hinv a x Ha) in Hx' as [_ Hx']. congruence.
  - intros j [Hj|Hj]%elem_of_app.
    + apply (inv_other_in mem Hinv a j Ha) in Hj as [Hj _].
      unfold in_area in Hj. lia.
    + apply (inv_free_iff mem Hinv a j Ha) in Hj as [Hj _].
      unfold in_area in Hj. lia.
Qed.

Lemma reclaim_loop_bits a l : forall mem j,
  test_bit (foldl (reclaim_slot a) mem l) j =
  if decide (j ∈ l /\ 0 <= j < Z.of_nat (length (bitmap mem)))
  then true else test_bit mem j.
Proof.
  induction l as [|x l IH]; intros mem j; simpl; [done|].
  rewrite IH, test_bit_reclaim_slot.
  destruct (same_shape_reclaim_slot a mem x) as (_&_&_&_&->&_).
  repeat case_decide; try done; exfalso; set_solver by lia.
Qed.

Lemma reclaim_loop_state a l : forall mem,
  pool_inv mem -> 0 <= a < nareas mem -> NoDup l ->
  (forall x, x ∈ l -> x ∈ free_slots_from_other_cpu (area_at mem a)) ->
  free_slots (area_at (foldl (reclaim_slot a) mem l) a)
    = reverse l ++ free_slots (area_at mem a) /\
  free_slots_from_other_cpu (area_at (foldl (reclaim_slot a) mem l) a)
    = unlink_all l (free_slots_from_other_cpu (area_at mem a)) /\
  used (area_at (foldl (reclaim_slot a) mem l) a)
    = used (area_at mem a) - Z.of_nat (length l).
Proof.
  induction l as [|x l IH]; intros mem Hinv Ha Hnd Hin.
  - cbn [foldl reverse length]. rewrite unlink_all_nil.
    split; [done|]. split; [done | lia].
  - apply NoDup_cons in Hnd as [Hx Hnd].
    assert (x ∈ free_slots_from_other_cpu (area_at mem a)) as Hxo
      by (apply Hin; by left).
    pose proof (same_shape_reclaim_slot a mem x) as (_&_&Hna&_).
    assert (area_at (reclaim_slot a mem x) a =
            Area (used (area_at mem a) - 1)
              (x :: free_slots (area_at mem a))
              (unlink x (free_slots_from_other_cpu (area_at mem a))))
      as Harea.
    { rewrite area_at_reclaim_slot.
      rewrite decide_True
        by (split; [done | rewrite (inv_areas_len mem Hinv); lia]).
      pose proof (pool_inv_other_le_used mem a Hinv Ha) as Hle.
      assert (0 < Z.of_nat
                    (length (free_slots_from_other_cpu (area_at mem a)))).
      { destruct (free_slots_from_other_cpu (area_at mem a));
          [by apply elem_of_nil in Hxo | cbn; lia]. }
      destruct (inv_used mem Hinv a Ha) as [_ Hu].
      pose proof (inv_small mem Hinv). pose proof (inv_nslabs mem Hinv).
      pose proof (inv_area_nslabs mem Hinv).
      assert (area_nslabs mem < 2 ^ 31) by nia.
      rewrite u64_small by lia.
      rewrite unlink_not_in; [done|].
      intros Hxf. apply (inv_free_iff mem Hinv a x Ha) in Hxf as [_ Hxf].
      apply (inv_other_in mem Hinv a x Ha) in Hxo as [_ Hxo]. congruence. }
    cbn [foldl].
    destruct (IH (reclaim_slot a mem x)) as (Hf & Ho & Hu).
    + by apply pool_inv_reclaim_slot.
    + by rewrite Hna.
    + done.
    + intros y Hy. rewrite Harea. cbn [free_slots_from_other_cpu].
      apply elem_of_unlink. split; [by intros ->|]. apply Hin. by right.
    + rewrite Hf, Ho, Hu, Harea.
      cbn [used free_slots free_slots_from_other_cpu].
      rewrite unlink_unlink_all, reverse_cons, <- app_assoc.
      split; [done|]. split; [done|]. cbn [length]. lia.
Qed.

Lemma unlink_all_self l : unlink_all l l = [].
Proof.
  unfold unlink_all. induction l as [|x l IH]; [done|].
  rewrite filter_cons_False by (intros Hn; apply Hn; by left).
  apply elem_of_nil_inv. intros y [Hy Hin]%list_elem_of_filter.
  apply Hy. by right.
Qed.

Lemma pool_inv_queued_2x128 : pool_inv queued_2x128.
Proof.
  eassert (swiotlb_tbl_map_single lockless_plat plain_dev (Some pool_2x128)
             0 4096 100 100 0 DMA_TO_DEVICE 0 = Ok (Some _, _, _, _))
    as Hmap by (vm_compute; reflexivity).
  pose proof (pool_inv_map_single _ _ _ _ _ _ _ _ _ _ _ _ _ _
                (pool_inv_init _ _ _ geometry_ok_256_2) Hmap) as [Hinv1 _].
  eapply (pool_inv_release_slots lockless_plat plain_dev _ 1 (2 ^ 20));
    [exact Hinv1 | |vm_compute; reflexivity].
  apply release_okb_correct. vm_compute. reflexivity.
Qed.

(** X15: a lockless search that fails has drained the queue.  In lockless
    mode, when [swiotlb_find_slots] fails on a well-formed pool, the
    reclamation queue of the searching processor's area is empty
    afterwards: every unit that waited there is free again, at the head of
    the area's free list, with its bit set, and the area's used count has
    gone down by the length of the queue. *)
Theorem X15_failed_lockless_search_drains plat dev mem cpu o A m mem' :
  pool_inv mem -> swiotlb_lockless_mode plat = true ->
  swiotlb_find_slots plat dev mem cpu o A m = Ok (mem', -1) ->
  let a := s32 (Z.land cpu (u32 (nareas mem - 1))) in
  let queue := free_slots_from_other_cpu (area_at mem a) in
  free_slots_from_other_cpu (area_at mem' a) = [] /\
  free_slots (area_at mem' a) = reverse queue ++ free_slots (area_at mem a) /\
  used (area_at mem' a) = used (area_at mem a) - Z.of_nat (length queue) /\
  (forall j, test_bit mem' j =
             if decide (j ∈ queue) then true else test_bit mem j).
Proof.
  intros Hinv Hl Hfind. cbv zeta.
  destruct (swiotlb_find_slots_view _ _ _ _ _ _ _ _ _ Hinv Hfind)
    as (mem0 & a & Hinv0 & Hsh & Ha & Hdo & Hfrom).
  pose proof (pool_inv_nareas_small mem Hinv) as Hna.
  assert (nareas mem0 = nareas mem) as Hna0 by (by destruct Hsh as (_&_&?&_)).
  destruct (swiotlb_do_find_slots_inv dev mem0 a o A m mem' (-1) Hinv0
              ltac:(lia) Hdo) as (_ & _ & [[-> _]|(? & _)]); [|lia].
  destruct Hfrom as [[_ Hidx]|(_ & Haeq & ->)];
    [destruct (Hidx Hl); lia|].
  rewrite <- Haeq.
  destruct (reclaim_loop_state a (free_slots_from_other_cpu (area_at mem a))
              mem Hinv Ha) as (Hf & Ho & Hu);
    [by apply Hinv | done |].
  rewrite Hf, Ho, Hu, unlink_all_self. split_and!; try done.
  intros j. rewrite reclaim_loop_bits.
  case_decide as Hd; case_decide as Hd'; try done; [tauto|].
  exfalso. apply Hd. split; [done|].
  apply (inv_other_in mem Hinv a j Ha) in Hd' as [Hd' _].
  rewrite (inv_bitmap_len mem Hinv).
  eapply pool_inv_in_area_range; done.
Qed.

Lemma X15_failed_lockless_search_drains_witness :
  exists mem',
    swiotlb_find_slots lockless_plat plain_dev queued_2x128 0 0
      (129 * 2 ^ 11) 0 = Ok (mem', -1) /\
    free_slots_from_other_cpu (area_at queued_2x128 0) = [0] /\
    free_slots_from_other_cpu (area_at mem' 0) = [] /\
    test_bit mem' 0 = true.
Proof.
  eexists.
  eassert (swiotlb_find_slots lockless_plat plain_dev queued_2x128 0 0
             (129 * 2 ^ 11) 0 = Ok (_, -1)) as Hfind
    by (vm_compute; reflexivity).
  split; [exact Hfind|]. split; [vm_compute; reflexivity|].
  destruct (X15_failed_lockless_search_drains lockless_plat plain_dev
              queued_2x128 0 0 (129 * 2 ^ 11) 0 _ pool_inv_queued_2x128
              eq_refl Hfind) as (H1 & _ & _ & H4).
  split; [exact H1|]. rewrite H4. vm_compute. reflexivity.
Defined.

(** ** The alignment asked for by the caller *)

Lemma low_bits_clear x k :
  1 <= k -> x mod 2 = 0 -> Z.land x (Z.ones k - 1) = 0 -> x mod 2 ^ k = 0.
Proof.
  intros Hk Heven Hland. rewrite <- Z.land_ones by lia.
  apply Z.bits_inj'. intros i Hi. rewrite Z.land_spec, Z.bits_0.
  destruct (decide (i < k)) as [Hlt|Hge];
    [|rewrite Z.ones_spec_high by lia; apply andb_false_r].
  rewrite Z.ones_spec_low, andb_true_r by lia.
  destruct (decide (i = 0)) as [->|Hi0].
  - pose proof (Z.bit0_mod x) as Hb0. rewrite Heven in Hb0.
    by destruct (Z.testbit x 0).
  - assert (Z.testbit (Z.land x (Z.ones k - 1)) i = false) as Hbit
      by (rewrite Hland; apply Z.bits_0).
    rewrite Z.land_spec in Hbit.
    assert (Z.ones k - 1 = Z.shiftl (Z.ones (k - 1)) 1) as Heq.
    { rewrite Z.shiftl_mul_pow2, !Z.ones_equiv by lia.
      replace k with (Z.succ (k - 1)) at 1 by lia.
      rewrite Z.pow_succ_r by lia. lia. }
    rewrite Heq in Hbit.
    rewrite Z.shiftl_spec, Z.ones_spec_low, andb_true_r in Hbit by lia.
    done.
Qed.

Lemma pool_inv_mapped_1x128 : pool_inv mapped_1x128.
Proof.
  eapply (pool_inv_map_single locked_plat plain_dev pool_1x128 0 4096 100
            100 0 DMA_TO_DEVICE 0);
    [apply pool_inv_init, geometry_ok_128_1 | vm_compute; reflexivity].
Qed.

(** What the walk checks: the address of the run relative to the
    boundary-masked bus base of the pool. *)
Lemma find_slots_masked_alignment plat dev mem cpu o A m mem' index :
  pool_inv mem ->
  tbl_dma_addr_of dev mem mod IO_TLB_SIZE = 0 ->
  swiotlb_find_slots plat dev mem cpu o A m = Ok (mem', index) ->
  0 <= index ->
  (forall k, 1 <= k -> m = Z.ones k ->
     slot_addr (tbl_dma_addr_of dev mem) index mod 2 ^ k = 0) /\
  (PAGE_SIZE <= A ->
   slot_addr (tbl_dma_addr_of dev mem) index mod PAGE_SIZE = 0).
Proof.
  intros Hinv Hbase Hfind Hidx.
  destruct (swiotlb_find_slots_view _ _ _ _ _ _ _ _ _ Hinv Hfind)
    as (mem0 & a & Hinv0 & Hsh & Ha & Hdo & _).
  pose proof (pool_inv_nareas_small mem Hinv) as Hna.
  assert (nareas mem0 = nareas mem) as Hna0 by (by destruct Hsh as (_&_&?&_)).
  destruct (swiotlb_do_find_slots_inv dev mem0 a o A m mem' index Hinv0
              ltac:(lia) Hdo) as (_ & _ & [[_ ->]|(_ & _ & Hok & _)]);
    [lia|].
  assert (tbl_dma_addr_of dev mem0 = tbl_dma_addr_of dev mem) as Htbl.
  { unfold tbl_dma_addr_of. by destruct Hsh as (-> & _). }
  destruct Hok as (_ & Hcaller & Hpage & _). rewrite Htbl in Hcaller, Hpage.
  set (bus := slot_addr (tbl_dma_addr_of dev mem) index) in *.
  assert (bus mod 2 = 0) as Heven.
  { assert (bus mod 2 ^ 11 = 0) as H11.
    { unfold bus, slot_addr. rewrite shiftl_shift.
      rewrite u64_mod_pow2 by lia.
      unfold IO_TLB_SIZE, IO_TLB_SHIFT in *.
      rewrite Z.mod_add by lia. done. }
    apply Z.mod_divide in H11 as [q Hq]; [|lia].
    rewrite Hq. replace (q * 2 ^ 11) with (q * 2 ^ 10 * 2) by lia.
    apply Z.mod_mul. lia. }
  split.
  - intros k Hk ->. apply low_bits_clear; [done..|]. apply Hcaller.
    rewrite Z.ones_equiv.
    pose proof (Z.pow_le_mono_r 2 1 k ltac:(lia) ltac:(lia)). lia.
  - intros HA. specialize (Hpage HA). unfold PAGE_SIZE in *.
    by rewrite land_low_mod in Hpage by (unfold PAGE_SHIFT; lia).
Qed.

Lemma mod_pow2_mod x b k :
  0 <= k <= b -> (x mod 2 ^ b) mod 2 ^ k = x mod 2 ^ k.
Proof.
  intros Hk.
  assert (0 < 2 ^ k) by (apply Z.pow_pos_nonneg; lia).
  assert (0 < 2 ^ b) by (apply Z.pow_pos_nonneg; lia).
  rewrite (Z.div_mod x (2 ^ b)) at 2 by lia.
  replace (2 ^ b) with (2 ^ k * 2 ^ (b - k)) at 2
    by (rewrite <- Z.pow_add_r by lia; f_equal; lia).
  rewrite Z.add_comm, <- Z.mul_assoc, Z.mul_comm.
  by rewrite Z.mod_add by lia.
Qed.

(** X17: the caller's alignment and the page alignment are met on the bus.
    On a well-formed pool whose bus base is unit-aligned, for a device
    whose boundary mask is [2^b - 1], the bus address of the first unit of
    every run returned by [swiotlb_find_slots] is a multiple of [2^k] when
    the caller's alignment mask is [2^k - 1] with [k <= b], and a multiple
    of the page size when the request is of at least one page and the
    boundary of at least one page.  The walk tests the address relative to
    the boundary-masked bus base, which agrees with the bus address on the
    bits below the boundary. *)
Theorem X17_caller_alignment plat dev mem cpu o A m mem' index b :
  pool_inv mem ->
  dma_get_seg_boundary dev = Z.ones b -> 0 <= b <= 64 ->
  0 <= phys_to_dma_unencrypted dev (start mem) ->
  phys_to_dma_unencrypted dev (start mem) mod IO_TLB_SIZE = 0 ->
  swiotlb_find_slots plat dev mem cpu o A m = Ok (mem', index) ->
  0 <= index ->
  let bus := phys_to_dma_unencrypted dev (start mem) + index * IO_TLB_SIZE in
  (forall k, 1 <= k <= b -> m = Z.ones k -> bus mod 2 ^ k = 0) /\
  (PAGE_SIZE <= A -> PAGE_SHIFT <= b -> bus mod PAGE_SIZE = 0).
Proof.
  intros Hinv Hbm Hb Hbus Hal Hfind Hidx. cbv zeta.
  set (bus0 := phys_to_dma_unencrypted dev (start mem)) in *.
  assert (tbl_dma_addr_of dev mem = bus0 mod 2 ^ b) as Htbl
    by (unfold tbl_dma_addr_of; fold bus0; rewrite Hbm; apply Z.land_ones; lia).
  assert (tbl_dma_addr_of dev mem mod IO_TLB_SIZE = 0) as Hbase.
  { rewrite Htbl. unfold IO_TLB_SIZE, IO_TLB_SHIFT in *.
    destruct (decide (11 <= b)) as [Hge|Hlt].
    - by rewrite mod_pow2_mod by lia.
    - assert (bus0 mod 2 ^ b = 0) as ->; [|done].
      rewrite <- (mod_pow2_mod bus0 11 b) by lia. by rewrite Hal. }
  destruct (find_slots_masked_alignment plat dev mem cpu o A m mem' index
              Hinv Hbase Hfind Hidx) as [Hcaller Hpage].
  assert (forall k, 0 <= k <= b ->
            slot_addr (tbl_dma_addr_of dev mem) index mod 2 ^ k
            = (bus0 + index * IO_TLB_SIZE) mod 2 ^ k) as Hsame.
  { intros k Hk. unfold slot_addr. rewrite shiftl_shift.
    rewrite u64_mod_pow2 by lia. rewrite Htbl.
    assert (0 < 2 ^ k) by (apply Z.pow_pos_nonneg; lia).
    rewrite <- Z.add_mod_idemp_l, mod_pow2_mod by lia.
    by rewrite Z.add_mod_idemp_l by lia. }
  split.
  - intros k Hk Hm. rewrite <- Hsame by lia. by apply Hcaller; [lia|].
  - intros HA Hpb. unfold PAGE_SIZE in *.
    rewrite <- Hsame by (unfold PAGE_SHIFT in *; lia). by apply Hpage.
Qed.

Lemma X17_caller_alignment_witness :
  exists mem',
    swiotlb_find_slots locked_plat seg64k_dev mapped_1x128 0 0 3000
      (Z.ones 13) = Ok (mem', 4) /\
    tbl_dma_addr_of seg64k_dev mapped_1x128 = 0 /\
    (phys_to_dma_unencrypted seg64k_dev (start mapped_1x128)
     + 4 * IO_TLB_SIZE) mod 2 ^ 13 = 0.
Proof.
  eexists.
  eassert (swiotlb_find_slots locked_plat seg64k_dev mapped_1x128 0 0 3000
             (Z.ones 13) = Ok (_, 4)) as Hfind by (vm_compute; reflexivity).
  split; [exact Hfind|]. split; [vm_compute; reflexivity|].
  destruct (X17_caller_alignment locked_plat seg64k_dev mapped_1x128 0 0 3000
              (Z.ones 13) _ 4 16 pool_inv_mapped_1x128 eq_refl
              ltac:(lia) ltac:(vm_compute; discriminate)
              ltac:(vm_compute; reflexivity) Hfind ltac:(lia)) as [H _].
  apply (H 13); [lia | reflexivity].
Defined.

(** ** Device boundaries of at least one segment *)

(** X21: boundaries of at least one segment are respected.  On a
    well-formed pool whose bus base is unit-aligned, for a device whose
    boundary mask is [2^k - 1] with [2^k] between one segment (256KiB) and
    [2^63], the bus range of every run returned by [swiotlb_find_slots]
    stays between two consecutive multiples of the boundary, whatever the
    position of the pool relative to the boundary. *)
Theorem X21_boundary_respected plat dev mem cpu o A m mem' index k :
  pool_inv mem ->
  dma_get_seg_boundary dev = Z.ones k -> 18 <= k < 64 ->
  0 <= phys_to_dma_unencrypted dev (start mem) < 2 ^ 64 ->
  phys_to_dma_unencrypted dev (start mem) mod IO_TLB_SIZE = 0 ->
  swiotlb_find_slots plat dev mem cpu o A m = Ok (mem', index) ->
  0 <= index ->
  bus_range_ok dev mem index (nslots_of A).
Proof.
  intros Hinv Hbm Hk Hbus Hal Hfind Hidx.
  apply swiotlb_find_slots_inv in Hfind
    as (mem0 & a & Hinv0 & Hsh & Ha & Hfind); [|done].
  pose proof (pool_inv_nareas_small mem0 Hinv0).
  apply swiotlb_do_find_slots_inv in Hfind as (_ & Hn0 & Hcase);
    [|done|lia].
  destruct Hcase as [[_ ->] | (_ & Hin & Hok & _)]; [lia|].
  pose proof (pool_inv_free_range mem0 a index Hinv0 Ha Hin).
  pose proof (inv_small mem0 Hinv0).
  pose proof (nslots_of_nonneg A).
  destruct Hsh as (Hst & _).
  eapply placement_boundary; eauto using candidate_placement; lia.
Qed.

Lemma X21_boundary_respected_witness :
  exists mem1 i mem2,
    swiotlb_find_slots locked_plat seg256k_dev pool_shifted 0 0
      (27 * 2 ^ 11) 0 = Ok (mem1, i) /\
    swiotlb_find_slots locked_plat seg256k_dev mem1 0 0 3000 0
      = Ok (mem2, 28) /\
    test_bit mem1 27 = true /\
    bus_range_ok seg256k_dev mem1 28 (nslots_of 3000) /\
    ~ bus_range_ok seg256k_dev mem1 27 (nslots_of 3000).
Proof.
  eexists _, _, _.
  eassert (swiotlb_find_slots locked_plat seg256k_dev pool_shifted 0 0
             (27 * 2 ^ 11) 0 = Ok (_, _)) as Hfirst
    by (vm_compute; reflexivity).
  split; [exact Hfirst|].
  pose proof (proj1 (pool_inv_find_slots _ _ _ _ _ _ _ _ _
                (pool_inv_init (2 ^ 20 + 100 * 2 ^ 11) 128 1
                   geometry_ok_128_1) Hfirst)) as Hinv.
  match type of Hinv with pool_inv ?m1 =>
    eassert (swiotlb_find_slots locked_plat seg256k_dev m1 0 0 3000 0
             = Ok (_, 28)) as Hfind by (vm_compute; reflexivity);
    assert (0 <= phys_to_dma_unencrypted seg256k_dev (start m1) < 2 ^ 64)
      as Hbus by (vm_compute; split; [discriminate | reflexivity]);
    assert (phys_to_dma_unencrypted seg256k_dev (start m1) mod IO_TLB_SIZE
            = 0) as Hal by (vm_compute; reflexivity)
  end.
  split; [exact Hfind|].
  split; [vm_compute; reflexivity|].
  split.
  - exact (X21_boundary_respected locked_plat seg256k_dev _ 0 0 3000 0 _ 28
             18 Hinv eq_refl ltac:(lia) Hbus Hal Hfind ltac:(lia)).
  - intros H. vm_compute in H. discriminate H.
Defined.

(** ** A lockless search stays in its own area *)

Lemma reclaim_loop_slot_at a l : forall mem j,
  slot_at (foldl (reclaim_slot a) mem l) j =
  if decide (j ∈ l /\ 0 <= j < Z.of_nat (length (slots mem)))
  then free_slot else slot_at mem j.
Proof.
  induction l as [|x l IH]; intros mem j; simpl; [done|].
  rewrite IH, slot_at_reclaim_slot.
  destruct (same_shape_reclaim_slot a mem x) as (_&_&_&_&_&->&_).
  repeat case_decide; try done; exfalso; set_solver by lia.
Qed.

Lemma area_unlink_all_foreign mem a b run :
  pool_inv mem -> 0 <= b < nareas mem -> b <> a ->
  (forall x, x ∈ run -> in_area mem a x) ->
  area_unlink_all run (area_at mem b) = area_at mem b.
Proof.
  intros Hinv Hb Hne Hrun. unfold area_unlink_all, unlink_all.
  pose proof (inv_area_nslabs mem Hinv) as Hpos.
  rewrite !filter_all.
  - by destruct (area_at mem b).
  - intros x Hx Hx'. apply (inv_other_in mem Hinv b x Hb) in Hx as [Hx _].
    apply Hne. eapply in_area_inj; [done | exact Hx | by apply Hrun].
  - intros x Hx Hx'. apply (inv_free_iff mem Hinv b x Hb) in Hx as [Hx _].
    apply Hne. eapply in_area_inj; [done | exact Hx | by apply Hrun].
Qed.

Lemma reclaim_loop_foreign_area a l : forall mem b,
  pool_inv mem -> 0 <= a < nareas mem -> NoDup l ->
  (forall x, x ∈ l -> x ∈ free_slots_from_other_cpu (area_at mem a)) ->
  0 <= b < nareas mem -> b <> a ->
  area_at (foldl (reclaim_slot a) mem l) b = area_at mem b.
Proof.
  induction l as [|x l IH]; intros mem b Hinv Ha Hnd Hin Hb Hne; [done|].
  apply NoDup_cons in Hnd as [Hx Hnd].
  assert (x ∈ free_slots_from_other_cpu (area_at mem a)) as Hxo
    by (apply Hin; by left).
  pose proof (same_shape_reclaim_slot a mem x) as (_&_&Hna&_).
  cbn [foldl]. rewrite IH; try done; try (by rewrite Hna).
  - rewrite area_at_reclaim_slot.
    rewrite decide_False by (intros [? _]; congruence).
    assert (area_unlink x (area_at mem b)
            = area_unlink_all [x] (area_at mem b)) as ->.
    { unfold area_unlink, area_unlink_all, unlink, unlink_all.
      f_equal; apply list_filter_iff; intros y;
        rewrite list_elem_of_singleton; done. }
    apply (area_unlink_all_foreign mem a); try done.
    intros y Hy%list_elem_of_singleton. subst y.
    by apply (inv_other_in mem Hinv a x Ha).
  - by apply pool_inv_reclaim_slot.
  - intros y Hy. rewrite area_at_reclaim_slot.
    rewrite decide_True
      by (split; [done | rewrite (inv_areas_len mem Hinv); lia]).
    cbn [free_slots_from_other_cpu].
    apply elem_of_unlink. split; [by intros ->|]. apply Hin. by right.
Qed.

(** X18: a lockless search stays in the area of its processor.  On a
    well-formed pool, one whose areas each hold a whole number of segments
    and whose bitmap, free lists and used counts agree ([pool_inv]), in
    lockless mode [swiotlb_find_slots], whether it succeeds or fails and
    whether it reclaims or not, leaves every other area exactly as it
    was, leaves the bit and the metadata of every unit outside its own
    area untouched, and returns only runs that lie inside its own area.
    The whole segments are needed: the walk keeps a run inside its segment,
    and thereby inside its area only when no segment straddles two
    areas. *)
Theorem X18_lockless_locality plat dev mem cpu o A m mem' index :
  pool_inv mem -> swiotlb_lockless_mode plat = true ->
  swiotlb_find_slots plat dev mem cpu o A m = Ok (mem', index) ->
  let a := s32 (Z.land cpu (u32 (nareas mem - 1))) in
  (forall b, 0 <= b < nareas mem -> b <> a ->
     area_at mem' b = area_at mem b) /\
  (forall j, ~ in_area mem a j ->
     test_bit mem' j = test_bit mem j /\
     orig_addr (slot_at mem' j) = orig_addr (slot_at mem j) /\
     alloc_size (slot_at mem' j) = alloc_size (slot_at mem j)) /\
  (0 <= index ->
   forall j, index <= j < index + nslots_of A -> in_area mem a j).
Proof.
  intros Hinv Hl Hfind. cbv zeta.
  destruct (swiotlb_find_slots_view _ _ _ _ _ _ _ _ _ Hinv Hfind)
    as (mem0 & a & Hinv0 & Hsh & Ha & Hdo & Hfrom).
  pose proof (pool_inv_nareas_small mem Hinv) as Hna.
  pose proof Hsh as (_ & _ & Hna0 & Han0 & _).
  assert (a = s32 (Z.land cpu (u32 (nareas mem - 1)))) as <-.
  { destruct Hfrom as [[_ H]|(_ & ? & _)]; [by destruct (H Hl) | done]. }
  (* from [mem] to [mem0] *)
  assert ((forall b, 0 <= b < nareas mem -> b <> a ->
             area_at mem0 b = area_at mem b) /\
          (forall j, ~ in_area mem a j ->
             test_bit mem0 j = test_bit mem j /\
             slot_at mem0 j = slot_at mem j)) as [Har0 Hun0].
  { destruct Hfrom as [[-> _]|(_ & _ & ->)]; [done|]. split.
    - intros b Hb Hne. apply reclaim_loop_foreign_area; try done.
      by apply Hinv.
    - intros j Hj. rewrite reclaim_loop_bits, reclaim_loop_slot_at.
      rewrite !decide_False; [done|..];
        intros [Hin _]; apply Hj;
        by apply (inv_other_in mem Hinv a j Ha). }
  destruct (swiotlb_do_find_slots_inv dev mem0 a o A m mem' index Hinv0
              ltac:(lia) Hdo) as (_ & _ & [[-> ->]|(Hidx & Hin & Hok & ->)]).
  { split; [done|]. split; [|lia].
    intros j Hj. destruct (Hun0 j Hj) as [-> ->]. done. }
  destruct (candidate_run dev mem0 a o A m index Hinv0 ltac:(lia) Hin Hok)
    as (Hrun & _).
  assert (forall j, index <= j < index + nslots_of A -> in_area mem a j)
    as Hrun'.
  { intros j Hj. destruct (Hrun j Hj) as (_ & Hia & _).
    unfold in_area in *. by rewrite <- Han0. }
  split; [|split; [|done]].
  - intros b Hb Hne. rewrite claimed_area. cbv zeta.
    rewrite decide_False by (intros [? _]; congruence).
    rewrite <- Har0 by done.
    apply (area_unlink_all_foreign mem0 a); try done; [lia|].
    intros x Hx%elem_of_seqZ. by destruct (Hrun x Hx) as (_ & ? & _).
  - intros j Hj. destruct (Hun0 j Hj) as [<- <-].
    assert (~ (index <= j < index + nslots_of A)) as Hout
      by (intros Hin'; by apply Hj, Hrun').
    rewrite claimed_test_bit, decide_False by done.
    by rewrite claimed_orig_addr, claimed_alloc_size_other.
Qed.

Lemma X18_lockless_locality_witness :
  exists mem' index,
    swiotlb_find_slots lockless_plat plain_dev queued_2x128 0 0
      (128 * 2 ^ 11) 0 = Ok (mem', index) /\
    area_at mem' 1 = area_at queued_2x128 1 /\
    test_bit mem' 200 = test_bit queued_2x128 200.
Proof.
  eexists _, _.
  eassert (swiotlb_find_slots lockless_plat plain_dev queued_2x128 0 0
             (128 * 2 ^ 11) 0 = Ok (_, _)) as Hfind
    by (vm_compute; reflexivity).
  split; [exact Hfind|].
  destruct (X18_lockless_locality lockless_plat plain_dev queued_2x128 0 0
              (128 * 2 ^ 11) 0 _ _ pool_inv_queued_2x128 eq_refl Hfind)
    as (Hareas & Hunits & _).
  assert (0 <= 1 < nareas queued_2x128) as H1
    by (vm_compute; split; [discriminate | reflexivity]).
  assert (1 <> s32 (Z.land 0 (u32 (nareas queued_2x128 - 1)))) as H2
    by (vm_compute; discriminate).
  assert (~ in_area queued_2x128
              (s32 (Z.land 0 (u32 (nareas queued_2x128 - 1)))) 200) as H3
    by (vm_compute; intros [_ H]; discriminate H).
  split; [exact (Hareas 1 H1 H2)|].
  exact (proj1 (Hunits 200 H3)).
Defined.
